(** * configd: the DNS configuration client (dnsinfo) and the rank comparison
    of network information

    A shallow embedding of [src/dnsinfo/dnsinfo_copy.c]:
    [dns_configuration_copy], [dns_configuration_free] and
    [_dns_configuration_ack], with the two file-level variables, the
    allocator and the calls made to the collaborators (libSC client, XPC)
    threaded through an explicit state; and of the rank comparison that
    [src/nwi/network_information.h] declares. *)

From Stdlib Require Import ZArith Strings.Byte.
From stdpp Require Import gmap list strings.

Local Open Scope Z_scope.

(** ** C integers *)

Definition INT_MAX : Z := 2 ^ 31 - 1.
Definition INT_MIN : Z := - 2 ^ 31.
Definition UINT32_MAX : Z := 2 ^ 32 - 1.

(** ** What the private headers fix

    [dnsinfo_private.h] (not among the sources) declares [_dns_config_buf_t]
    -- a [dns_config_t], then the two [uint32_t] fields [n_attribute] and
    [n_padding], then the attribute bytes -- and [DNS_CONFIG_BUF_MAX].  The
    sizes and offsets are taken as parameters. *)

Record layout : Type := Layout {
  size_t_bits : Z;                   (* width of size_t *)
  sizeof_dns_config_buf_t : Z;       (* sizeof(_dns_config_buf_t) *)
  offsetof_n_attribute : Z;          (* offsetof(_dns_config_buf_t, n_attribute) *)
  offsetof_n_padding : Z;            (* offsetof(_dns_config_buf_t, n_padding) *)
  DNS_CONFIG_BUF_MAX : Z
}.

Record layout_ok (L : layout) : Prop := LayoutOk {
  size_t_wide : 32 <= size_t_bits L;
  n_attribute_inside :
    0 <= offsetof_n_attribute L /\
    offsetof_n_attribute L + 4 <= sizeof_dns_config_buf_t L;
  n_padding_inside :
    0 <= offsetof_n_padding L /\
    offsetof_n_padding L + 4 <= sizeof_dns_config_buf_t L;
  header_fits : sizeof_dns_config_buf_t L <= DNS_CONFIG_BUF_MAX L;
  max_is_int : DNS_CONFIG_BUF_MAX L <= INT_MAX
}.

(** Arithmetic on [size_t] wraps. *)
Definition to_size_t (L : layout) (z : Z) : Z := z mod 2 ^ size_t_bits L.

(** ** Bytes *)

Definition byte_val (b : byte) : Z := Z.of_N (Byte.to_N b).

(** [ntohl] of the [uint32_t] stored at offset [off]: its four bytes, most
    significant first, whatever the byte order of the host. *)
Definition ntohl_at (off : Z) (data : list byte) : Z :=
  foldl (fun acc b => acc * 256 + byte_val b) 0
        (take 4 (drop (Z.to_nat off) data)).

(** ** XPC dictionaries

    The keys and request codes are macros and enumerators of
    [dnsinfo_internal.h]; only their names matter here. *)

Inductive xpc_key : Type :=
| DNSINFO_PROC_NAME
| DNSINFO_REQUEST
| DNSINFO_GENERATION
| DNSINFO_CONFIGURATION.

Inductive dnsinfo_request : Type :=
| DNSINFO_REQUEST_COPY
| DNSINFO_REQUEST_ACKNOWLEDGE.

Inductive xpc_value : Type :=
| xpc_string (s : string)
| xpc_int64 (r : dnsinfo_request)
| xpc_uint64 (n : Z)
| xpc_data (bytes : list byte).

#[global] Instance xpc_key_eq_dec : EqDecision xpc_key.
Proof. solve_decision. Defined.

#[global] Instance xpc_key_countable : Countable xpc_key.
Proof.
  refine (inj_countable'
            (fun k => match k with
                      | DNSINFO_PROC_NAME => 0%nat
                      | DNSINFO_REQUEST => 1%nat
                      | DNSINFO_GENERATION => 2%nat
                      | DNSINFO_CONFIGURATION => 3%nat
                      end)
            (fun n => match n with
                      | 0%nat => DNSINFO_PROC_NAME
                      | 1%nat => DNSINFO_REQUEST
                      | 2%nat => DNSINFO_GENERATION
                      | _ => DNSINFO_CONFIGURATION
                      end) _).
  by intros [].
Defined.

Abbreviation xpc_object_t := (gmap xpc_key xpc_value).

(** [xpc_dictionary_get_data]: the bytes under [k], or NULL when the key is
    absent or holds something else. *)
Definition xpc_dictionary_get_data (d : xpc_object_t) (k : xpc_key)
  : option (list byte) :=
  match d !! k with
  | Some (xpc_data bytes) => Some bytes
  | _ => None
  end.

(** ** The state of the process *)

(** The two fields of [libSC_info_client_t] that this file reads. *)
Record libSC_info_client_t : Type := Client {
  active : bool;
  connection : nat
}.

Abbreviation loc := positive.

(** Calls made to the collaborators, oldest first. *)
Inductive event : Type :=
| ev_os_log
| ev_client_create
| ev_client_release (c : option libSC_info_client_t)
| ev_send_message_with_reply_sync (c : libSC_info_client_t) (msg : xpc_object_t)
| ev_connection_send_message (conn : nat) (msg : xpc_object_t).

Record world : Type := World {
  dnsinfo_active : Z;                              (* static int *)
  dnsinfo_client : option libSC_info_client_t;     (* static pointer, None = NULL *)
  proc_name : option string;                       (* static of dns_configuration_copy *)
  once : bool;                                     (* its dispatch_once_t *)
  heap : gmap loc (list byte);                     (* live malloc blocks *)
  trace : list event
}.

(** What one call of [dns_configuration_copy] gets from outside. *)
Record copy_env : Type := CopyEnv {
  libSC_info_available : bool;
  getprogname : option string;
  libSC_info_client_create : option libSC_info_client_t;
  libSC_send_message_with_reply_sync : option xpc_object_t;
  uninitialised : nat -> byte                      (* what malloc leaves in a fresh block *)
}.

(** ** Outcomes

    A call returns, dies on a failed [assert], or leaves defined behaviour
    (overflow of the [int] counter, access outside a live block). *)

Inductive outcome (A : Type) : Type :=
| Returns (w : world) (a : A)
| Aborts (w : world)
| Undefined.

Arguments Returns {A} w a.
Arguments Aborts {A} w.
Arguments Undefined {A}.

Definition prog (A : Type) : Type := world -> outcome A.

Definition ret {A} (a : A) : prog A := fun w => Returns w a.

Definition bind {A B} (m : prog A) (f : A -> prog B) : prog B := fun w =>
  match m w with
  | Returns w' a => f a w'
  | Aborts w' => Aborts w'
  | Undefined => Undefined
  end.

Declare Scope prog_scope.
Delimit Scope prog_scope with prog.
Bind Scope prog_scope with prog.
Notation "x ← y ; z" := (bind y (fun x => z))
  (at level 20, y at level 100, z at level 200, only parsing) : prog_scope.
Notation "x ;; z" := (bind x (fun _ => z))
  (at level 100, z at level 200, only parsing, right associativity) : prog_scope.
Local Open Scope prog_scope.

Definition gets {A} (f : world -> A) : prog A := fun w => Returns w (f w).

Definition assert (b : bool) : prog unit := fun w =>
  if b then Returns w tt else Aborts w.

Definition undefined {A} : prog A := fun _ => Undefined.

(** Field updates of the state. *)
Definition with_trace (t : list event) (w : world) : world :=
  World (dnsinfo_active w) (dnsinfo_client w) (proc_name w) (once w) (heap w) t.

Definition with_active (n : Z) (w : world) : world :=
  World n (dnsinfo_client w) (proc_name w) (once w) (heap w) (trace w).

Definition with_client (c : option libSC_info_client_t) (w : world) : world :=
  World (dnsinfo_active w) c (proc_name w) (once w) (heap w) (trace w).

Definition with_proc_name (n : option string) (w : world) : world :=
  World (dnsinfo_active w) (dnsinfo_client w) n true (heap w) (trace w).

Definition with_heap (h : gmap loc (list byte)) (w : world) : world :=
  World (dnsinfo_active w) (dnsinfo_client w) (proc_name w) (once w) h (trace w).

Definition modify (f : world -> world) : prog unit := fun w => Returns (f w) tt.

Definition emit (ev : event) : prog unit :=
  modify (fun w => with_trace (trace w ++ [ev]) w).

Definition set_dnsinfo_active (n : Z) : prog unit := modify (with_active n).

Definition set_dnsinfo_client (c : option libSC_info_client_t) : prog unit :=
  modify (with_client c).

Definition set_proc_name (n : option string) : prog unit :=
  modify (with_proc_name n).

Definition set_heap (h : gmap loc (list byte)) : prog unit :=
  modify (with_heap h).

(** [dnsinfo_active++]: the value before. *)
Definition post_incr_dnsinfo_active : prog Z :=
  n ← gets dnsinfo_active;
  if n <? INT_MAX then set_dnsinfo_active (n + 1) ;; ret n else undefined.

(** [--dnsinfo_active]: the value after. *)
Definition pre_decr_dnsinfo_active : prog Z :=
  n ← gets dnsinfo_active;
  if INT_MIN <? n then set_dnsinfo_active (n - 1) ;; ret (n - 1) else undefined.

(** ** The allocator *)

Definition malloc (junk : nat -> byte) (len : Z) : prog loc :=
  h ← gets heap;
  let p := fresh (dom h) in
  set_heap (<[p := junk <$> seq 0 (Z.to_nat len)]> h) ;; ret p.

Definition free (p : loc) : prog unit :=
  h ← gets heap;
  match h !! p with
  | Some _ => set_heap (delete p h)
  | None => undefined
  end.

(** Overwrite [bytes] into block [p] from offset [off]. *)
Definition store (p : loc) (off : Z) (bytes : list byte) : prog unit :=
  h ← gets heap;
  match h !! p with
  | Some block =>
      if (0 <=? off) && (off + Z.of_nat (length bytes) <=? Z.of_nat (length block))
      then set_heap (<[p := take (Z.to_nat off) block ++ bytes
                             ++ drop (Z.to_nat off + length bytes) block]> h)
      else undefined
  | None => undefined
  end.

Definition load (p : loc) : prog (list byte) :=
  h ← gets heap;
  match h !! p with
  | Some block => ret block
  | None => undefined
  end.

(** [bcopy(src, dst, len)] and [bzero(dst + off, len)]. *)
Definition bcopy (src : list byte) (dst : loc) (len : Z) : prog unit :=
  if Z.of_nat (length src) <? len then undefined
  else store dst 0 (take (Z.to_nat len) src).

Definition bzero (dst : loc) (off len : Z) : prog unit :=
  store dst off (replicate (Z.to_nat len) x00).

(** ** dnsinfo_copy.c *)

Section dnsinfo_copy.

(** The layout, and the two things [dnsinfo_internal.h] and [dnsinfo.h]
    provide: the expansion of a buffer in place (the fixed-up block, or
    [None] for NULL) and the [generation] field of a [dns_config_t]. *)
Context (L : layout).
Context (_dns_configuration_expand_config : list byte -> option (list byte)).
Context (config_generation : list byte -> Z).

(** Lines 109-137, the block run on [__dns_configuration_queue()]. *)
Definition dnsinfo_connect (e : copy_env) : prog unit :=
  old ← post_incr_dnsinfo_active;
  client ← gets dnsinfo_client;
  if (old =? 0) || bool_decide (client = None) then
    done_once ← gets once;
    (if done_once then ret tt else set_proc_name (getprogname e)) ;;
    emit ev_client_create ;;
    set_dnsinfo_client (libSC_info_client_create e) ;;
    match libSC_info_client_create e with
    | None => pre_decr_dnsinfo_active ;; ret tt
    | Some _ => ret tt
    end
  else ret tt.

(** Lines 147-156, the request dictionary. *)
Definition copy_request (name : option string) : xpc_object_t :=
  let reqdict : xpc_object_t := ∅ in
  let reqdict :=
    match name with
    | Some n => <[DNSINFO_PROC_NAME := xpc_string n]> reqdict
    | None => reqdict
    end in
  <[DNSINFO_REQUEST := xpc_int64 DNSINFO_REQUEST_COPY]> reqdict.

(** Lines 162-210: from the reply to [buf]. *)
Definition dnsinfo_receive (e : copy_env) (reply : option xpc_object_t)
  : prog (option loc) :=
  match reply with
  | Some reply =>
      match xpc_dictionary_get_data reply DNSINFO_CONFIGURATION with
      | Some dataRef =>
          let dataLen := Z.of_nat (length dataRef) in
          if (sizeof_dns_config_buf_t L <=? dataLen)
             && (dataLen <=? DNS_CONFIG_BUF_MAX L) then
            let n_attribute := ntohl_at (offsetof_n_attribute L) dataRef in
            let n_padding := ntohl_at (offsetof_n_padding L) dataRef in
            let configLen := to_size_t L (sizeof_dns_config_buf_t L + n_attribute) in
            assert (configLen =? dataLen) ;;
            assert (n_padding <=? to_size_t L (DNS_CONFIG_BUF_MAX L - dataLen)) ;;
            let bufLen := to_size_t L (dataLen + n_padding) in
            assert (bufLen <=? DNS_CONFIG_BUF_MAX L) ;;
            buf ← malloc (uninitialised e) bufLen;
            bcopy dataRef buf dataLen ;;
            bzero buf dataLen n_padding ;;
            ret (Some buf)
          else ret None
      | None => ret None
      end
  | None => ret None
  end.

(** Lines 212-220: expansion in place, the block freed when it fails. *)
Definition dnsinfo_expand (buf : option loc) : prog (option loc) :=
  match buf with
  | Some buf =>
      block ← load buf;
      match _dns_configuration_expand_config block with
      | Some block' =>
          h ← gets heap;
          set_heap (<[buf := block']> h) ;; ret (Some buf)
      | None => free buf ;; ret None
      end
  | None => ret None
  end.

Definition dns_configuration_copy (e : copy_env) : prog (option loc) :=
  if negb (libSC_info_available e) then
    emit ev_os_log ;; ret None
  else
    dnsinfo_connect e ;;
    client ← gets dnsinfo_client;
    match client with
    | None => ret None
    | Some c =>
        if negb (active c) then ret None
        else
          name ← gets proc_name;
          emit (ev_send_message_with_reply_sync c (copy_request name)) ;;
          buf ← dnsinfo_receive e (libSC_send_message_with_reply_sync e);
          dnsinfo_expand buf
    end.

Definition dns_configuration_free (config : option loc) : prog unit :=
  match config with
  | None => ret tt
  | Some p =>
      n ← pre_decr_dnsinfo_active;
      (if n =? 0 then
         client ← gets dnsinfo_client;
         emit (ev_client_release client) ;;
         set_dnsinfo_client None
       else ret tt) ;;
      free p
  end.

(** Lines 262-269, the acknowledgement dictionary. *)
Definition ack_request (generation : Z) : xpc_object_t :=
  <[DNSINFO_GENERATION := xpc_uint64 generation]>
    (<[DNSINFO_REQUEST := xpc_int64 DNSINFO_REQUEST_ACKNOWLEDGE]> ∅).

Definition _dns_configuration_ack (config : option loc) (bundle_id : string)
  : prog unit :=
  match config with
  | None => ret tt
  | Some p =>
      client ← gets dnsinfo_client;
      match client with
      | None => ret tt
      | Some c =>
          if negb (active c) then ret tt
          else
            post_incr_dnsinfo_active ;;
            block ← load p;
            emit (ev_connection_send_message (connection c)
                    (ack_request (config_generation block)))
      end
  end.

End dnsinfo_copy.

(** ** Sequences of calls, and what is read off a trace *)

Section sequences.

Context (L : layout).
Context (_dns_configuration_expand_config : list byte -> option (list byte)).

Fixpoint copy_each (es : list copy_env) : prog (list (option loc)) :=
  match es with
  | [] => ret []
  | e :: es' =>
      r ← dns_configuration_copy L _dns_configuration_expand_config e;
      rs ← copy_each es';
      ret (r :: rs)
  end.

Fixpoint free_each (configs : list (option loc)) : prog unit :=
  match configs with
  | [] => ret tt
  | p :: configs' => dns_configuration_free p ;; free_each configs'
  end.

End sequences.

Definition is_release (ev : event) : bool :=
  match ev with
  | ev_client_release _ => true
  | _ => false
  end.

(** The teardowns of the channel recorded in a trace. *)
Definition releases (t : list event) : list event := filter is_release t.

(** The state once the copy request has gone out on client [c]. *)
Definition request_sent (c : libSC_info_client_t) (w : world) : world :=
  with_trace
    (trace w ++ [ev_send_message_with_reply_sync c (copy_request (proc_name w))]) w.

(** The block [dns_configuration_copy] builds from a reply of [data]. *)
Definition padded (L : layout) (data : list byte) : list byte :=
  data ++ replicate (Z.to_nat (ntohl_at (offsetof_n_padding L) data)) x00.

(** The call gets as far as sending its request: the service is reachable
    and the block on the queue leaves the active client [c] in
    [dnsinfo_client] (state [w1]). *)
Definition reaches_reply (e : copy_env) (w w1 : world) (c : libSC_info_client_t)
  : Prop :=
  libSC_info_available e = true /\
  dnsinfo_connect e w = Returns w1 tt /\
  dnsinfo_client w1 = Some c /\
  active c = true.

(** The three size invariants of a snapshot buffer of [data]. *)
Definition size_invariants (L : layout) (data : list byte) : Prop :=
  sizeof_dns_config_buf_t L + ntohl_at (offsetof_n_attribute L) data
    = Z.of_nat (length data) /\
  ntohl_at (offsetof_n_padding L) data
    <= DNS_CONFIG_BUF_MAX L - Z.of_nat (length data) /\
  Z.of_nat (length data) + ntohl_at (offsetof_n_padding L) data
    <= DNS_CONFIG_BUF_MAX L.

(** [main] of dnsinfo_copy.c (built with MAIN): a copy, freed when there
    is one; the exit that follows is not part of the state. *)
Definition main (L : layout) (X : list byte -> option (list byte)) (e : copy_env)
  : prog unit :=
  config ← dns_configuration_copy L X e;
  match config with
  | Some p => dns_configuration_free (Some p)
  | None => ret tt
  end.

(** The count and the client agree, [held] snapshots being out: the count
    covers them, and it is zero exactly when there is no client. *)
Definition consistent (w : world) (held : Z) : Prop :=
  0 <= held <= dnsinfo_active w
  /\ (dnsinfo_active w = 0 <-> dnsinfo_client w = None).

(** A call of the client API, and a run of calls.  A run keeps the set
    of the snapshots that are out: a copy that returns one adds it, a free
    takes it off; freeing or acknowledging a snapshot that is not out is a
    misuse and ends the run as undefined. *)
Inductive call : Type :=
| call_copy (e : copy_env)
| call_free (p : loc)
| call_ack (p : loc) (bundle_id : string).

Section runs.

Context (L : layout).
Context (_dns_configuration_expand_config : list byte -> option (list byte)).
Context (config_generation : list byte -> Z).

Definition step (c : call) (held : gset loc) : prog (gset loc) :=
  match c with
  | call_copy e =>
      r ← dns_configuration_copy L _dns_configuration_expand_config e;
      ret (match r with Some p => {[p]} ∪ held | None => held end)
  | call_free p =>
      if bool_decide (p ∈ held) then
        dns_configuration_free (Some p) ;; ret (held ∖ {[p]})
      else undefined
  | call_ack p bundle_id =>
      if bool_decide (p ∈ held) then
        _dns_configuration_ack config_generation (Some p) bundle_id ;;
        ret held
      else undefined
  end.

Fixpoint run (calls : list call) (held : gset loc) : prog (gset loc) :=
  match calls with
  | [] => ret held
  | c :: calls' => held' ← step c held; run calls' held'
  end.

End runs.

(** The state is in step with the snapshots out: they are live blocks, the
    count and the client agree on them, and no release so far was handed
    NULL. *)
Definition in_step (w : world) (held : gset loc) : Prop :=
  (forall p, p ∈ held -> is_Some (heap w !! p))
  /\ consistent w (Z.of_nat (size held))
  /\ Forall (fun ev => ev <> ev_client_release None) (releases (trace w)).

(** ** Sample values *)

Definition sample_layout : layout :=
  {| size_t_bits := 64;
     sizeof_dns_config_buf_t := 56;
     offsetof_n_attribute := 48;
     offsetof_n_padding := 52;
     DNS_CONFIG_BUF_MAX := 1024 * 1024 |}.

Definition sample_client : libSC_info_client_t :=
  {| active := true; connection := 7 |}.

Definition closed_world : world :=
  {| dnsinfo_active := 0; dnsinfo_client := None; proc_name := None;
     once := false; heap := ∅; trace := [] |}.

Definition open_world : world :=
  {| dnsinfo_active := 1; dnsinfo_client := Some sample_client;
     proc_name := Some "scutil"%string; once := true;
     heap := {[ 1%positive := [x2a] ]}; trace := [ev_client_create] |}.

(** A header of the sample layout declaring [na] attribute bytes and [np]
    bytes of padding (both below 256). *)
Definition sample_header (na np : byte) : list byte :=
  replicate 48 x00 ++ [x00; x00; x00; na] ++ [x00; x00; x00; np].

Definition sample_reply (data : list byte) : xpc_object_t :=
  {[ DNSINFO_CONFIGURATION := xpc_data data ]}.

Definition sample_env (reply : option xpc_object_t) : copy_env :=
  {| libSC_info_available := true;
     getprogname := Some "scutil"%string;
     libSC_info_client_create := Some sample_client;
     libSC_send_message_with_reply_sync := reply;
     uninitialised := fun _ => xff |}.

Definition no_service_env : copy_env :=
  {| libSC_info_available := true;
     getprogname := Some "scutil"%string;
     libSC_info_client_create := None;
     libSC_send_message_with_reply_sync := None;
     uninitialised := fun _ => xff |}.

Definition forked_env : copy_env :=
  {| libSC_info_available := false;
     getprogname := Some "scutil"%string;
     libSC_info_client_create := Some sample_client;
     libSC_send_message_with_reply_sync := None;
     uninitialised := fun _ => xff |}.

(** [closed_world] after the queue block of a call under [sample_env]. *)
Definition connected_world : world :=
  {| dnsinfo_active := 1; dnsinfo_client := Some sample_client;
     proc_name := Some "scutil"%string; once := true;
     heap := ∅; trace := [ev_client_create] |}.

(** Two attribute bytes, three bytes of padding. *)
Definition good_data : list byte := sample_header x02 x03 ++ [x0a; x0b].

(** Declares 40 attribute bytes, carries two. *)
Definition short_attribute_data : list byte := sample_header x28 x00 ++ [x0a; x0b].

(** Thirty bytes: shorter than the header. *)
Definition truncated_data : list byte := replicate 30 x00.

(** One byte more than [DNS_CONFIG_BUF_MAX], declaring no attribute bytes. *)
Definition oversized_data : list byte :=
  sample_header x00 x00 ++ replicate (Z.to_nat (1024 * 1024 - 55)) x00.

Definition always_expands (block : list byte) : option (list byte) := Some block.
Definition never_expands (block : list byte) : option (list byte) := None.

(** Two calls answered with [good_data], and the state they leave when made
    from [closed_world]. *)
Definition two_calls : list copy_env :=
  [sample_env (Some (sample_reply good_data));
   sample_env (Some (sample_reply good_data))].

Definition after_two_copies : world :=
  match copy_each sample_layout always_expands two_calls closed_world with
  | Returns w _ => w
  | _ => closed_world
  end.

(** A client that was created and is no longer active, and [closed_world]
    after the queue block of a call that gets it. *)
Definition inactive_env : copy_env :=
  {| libSC_info_available := true;
     getprogname := Some "scutil"%string;
     libSC_info_client_create := Some {| active := false; connection := 7 |};
     libSC_send_message_with_reply_sync := None;
     uninitialised := fun _ => xff |}.

Definition inactive_world : world :=
  {| dnsinfo_active := 1;
     dnsinfo_client := Some {| active := false; connection := 7 |};
     proc_name := Some "scutil"%string; once := true;
     heap := ∅; trace := [ev_client_create] |}.

(** [open_world] after a copy answered with [good_data]. *)
Definition after_open_copy : world :=
  match dns_configuration_copy sample_layout always_expands
          (sample_env (Some (sample_reply good_data))) open_world with
  | Returns w _ => w
  | _ => open_world
  end.

(** A copy, the acknowledgement of its snapshot and its free; and the state
    they leave when made from [closed_world]. *)
Definition sample_calls : list call :=
  [call_copy (sample_env (Some (sample_reply good_data)));
   call_ack 1%positive "scutil";
   call_free 1%positive].

Definition after_sample_calls : world :=
  match run sample_layout always_expands (fun _ => 42) sample_calls ∅
          closed_world with
  | Returns w _ => w
  | _ => closed_world
  end.

(** [closed_world] after [main] with a copy answered with [good_data]. *)
Definition after_main : world :=
  match main sample_layout always_expands
          (sample_env (Some (sample_reply good_data))) closed_world with
  | Returns w _ => w
  | _ => closed_world
  end.

(** ** network_information.h *)

Module nwi.

(** The record behind an [nwi_ifstate_t], as the spec's data model gives it:
    the interface name, the flag bits, and the rank, which is the position
    of the interface in the list of its address family (lower is ahead). *)
Record nwi_ifstate : Type := IfState {
  ifname : string;
  flags : Z;
  rank : Z
}.

(** Modelled from the spec: [nwi_ifstate_compare_rank] is only declared in
    [network_information.h]; its body ([network_information.c]) is not among
    the sources.  The header gives the three results (0 ranked equally, -1
    the first ahead, 1 the second ahead) and the spec makes the comparison a
    function of the stored position, lower position first. *)
Definition nwi_ifstate_compare_rank (ifstate1 ifstate2 : nwi_ifstate) : Z :=
  if rank ifstate1 =? rank ifstate2 then 0
  else if rank ifstate1 <? rank ifstate2 then -1
  else 1.

Definition EQUAL : Z := 0.
Definition A_FIRST : Z := -1.
Definition B_FIRST : Z := 1.

End nwi.

(** ** scutil.c

    [getString], [getLine] and [process_line].  A [char] is a byte; an array
    of [char] is the list of its bytes and a pointer into it an offset; an
    access outside the list is outside the object.  The allocations of the
    argument vector are taken to succeed. *)

Local Close Scope prog_scope.

Module scutil.

(** Characters are bytes; a C string in memory is the bytes up to a NUL. *)
Definition NUL : byte := x00.
Definition DQUOTE : byte := x22.
Definition BACKSLASH : byte := x5c.
Definition NEWLINE : byte := x0a.
Definition HASH : byte := x23.

Definition byte_eqb (a b : byte) : bool := Byte.eqb a b.

(** The bytes of a string literal. *)
Definition cstr (s : string) : list byte := String.list_byte_of_string s.

(** [isspace] in the C locale (the program never calls [setlocale]):
    space, and the five controls from tab to carriage return.  The bytes
    above 0x7f, negative as [char], are taken not to be white space. *)
Definition isspace (c : byte) : bool :=
  match c with
  | x20 | x09 | x0a | x0b | x0c | x0d => true
  | _ => false
  end.

(** Line 142: the number of positions the pointer moves over white space;
    [None] when the bytes end before anything else is met. *)
Fixpoint skip_space (l : list byte) : option nat :=
  match l with
  | [] => None
  | c :: l' => if isspace c then S <$> skip_space l' else Some 0%nat
  end.

(** Lines 153-165: from [s], the distance to [e] and the count [escaped]. *)
Fixpoint scan (isQuoted : bool) (l : list byte) : option (nat * nat) :=
  match l with
  | [] => None
  | c :: l' =>
      if byte_eqb c NUL then Some (0%nat, 0%nat)
      else if isQuoted && byte_eqb c DQUOTE then Some (0%nat, 0%nat)
      else if byte_eqb c BACKSLASH then
        match l' with
        | [] => None
        | d :: l'' =>
            if byte_eqb d NUL then Some (1%nat, 0%nat)
            else
              let esc := if byte_eqb d DQUOTE || isspace d then 1%nat else 0%nat in
              '(n, k) ← scan isQuoted l'';
              Some (S (S n), (esc + k)%nat)
        end
      else if negb isQuoted && isspace c then Some (0%nat, 0%nat)
      else '(n, k) ← scan isQuoted l'; Some (S n, k)
  end.

(** Lines 169-172: the copy of the [n] bytes from [s] into [string], an
    array of [size] bytes.  [i] is the index written next and [out] the
    bytes at the indices below it; a write at or above [size] and a read
    after the bytes end are outside the objects. *)
Fixpoint copy (l : list byte) (n : nat) (size : Z) (i : nat) (out : list byte)
  : option (nat * list byte) :=
  match n with
  | O => Some (i, out)
  | S n' =>
      match l with
      | [] => None
      | c :: l' =>
          if size <=? Z.of_nat i then None
          else if byte_eqb c BACKSLASH then
            match l' with
            | [] => None
            | d :: _ =>
                if byte_eqb d DQUOTE || isspace d
                then copy l' n' size i out
                else copy l' n' size (S i) (out ++ [c])
            end
          else copy l' n' size (S i) (out ++ [c])
      end
  end.

(** Lines 138-179 on the bytes from [*line] on: the string returned (its
    bytes before the terminator, or [None] for NULL) and the distance [*line]
    has moved.  The outer [None] is an access outside the bytes given or
    outside the new string; [malloc], whose result the code does not test,
    is taken to succeed. *)
Definition getString_at (l : list byte) : option (option (list byte) * nat) :=
  c0 ← head l;
  if byte_eqb c0 NUL then Some (None, 0%nat)
  else
    k ← skip_space l;
    c ← l !! k;
    if byte_eqb c NUL then Some (None, k)
    else
      let isQuoted := byte_eqb c DQUOTE in
      let s := if isQuoted then S k else k in
      '(n, escaped) ← scan isQuoted (drop s l);
      let size := Z.of_nat n - Z.of_nat escaped + 1 in
      '(i, string) ← copy (drop s l) n size 0 [];
      if size <=? Z.of_nat i then None
      else
        let e := (s + n)%nat in
        Some (Some string, if isQuoted then S e else e).

(** [getString(&line)] on the array [mem]: [line] is an offset into it, or
    [None] for NULL; the string returned with the new value of [line]. *)
Definition getString (mem : list byte) (line : option nat)
  : option (option (list byte) * option nat) :=
  match line with
  | None => Some (None, None)
  | Some pos =>
      '(string, d) ← getString_at (drop pos mem);
      Some (string, Some (pos + d)%nat)
  end.

(** Bytes with no role of their own in a word, and in a quoted string. *)
Definition word_char (c : byte) : bool :=
  negb (byte_eqb c NUL) && negb (isspace c) && negb (byte_eqb c BACKSLASH).

Definition quoted_char (c : byte) : bool :=
  negb (byte_eqb c NUL) && negb (byte_eqb c DQUOTE) && negb (byte_eqb c BACKSLASH).

(** *** Lines read and processed *)

Definition LINE_LENGTH : nat := 256.

(** What a run of the loop yields: a value, an access outside an object, or
    (for the loop of [process_line], run on fuel) no more fuel. *)
Inductive result (A : Type) : Type :=
| Ok (a : A)
| Fault
| OutOfFuel.

Arguments Ok {A} a.
Arguments Fault {A}.
Arguments OutOfFuel {A}.

(** The two optional parts of an [Input] (is there a line editor, is there
    a history), and the state the input functions work on. *)
Record Input : Type := MkInput {
  el : bool;
  h : bool
}.

Record io : Type := MkIo {
  fp : list byte;                  (* what is left to read of src->fp *)
  tty : list (list byte);          (* the lines el_gets has yet to return *)
  hist : list (list byte);         (* the events entered in the history *)
  nesting : Z;
  printed : list (Z * list byte)   (* the lines echoed at line 194 *)
}.

(** [strlen]: the bytes before the first NUL; none without a NUL. *)
Fixpoint strlen (l : list byte) : option nat :=
  match l with
  | [] => None
  | c :: l' => if byte_eqb c NUL then Some 0%nat else S <$> strlen l'
  end.

(** [fgets] reads at most [n] bytes, a newline ending the read. *)
Fixpoint fgets_read (n : nat) (stream : list byte) : list byte * list byte :=
  match n, stream with
  | O, _ => ([], stream)
  | _, [] => ([], [])
  | S n', c :: rest =>
      if byte_eqb c NEWLINE then ([c], rest)
      else let '(cs, r) := fgets_read n' rest in (c :: cs, r)
  end.

(** Lines 117-119: [fgetc] until a newline or the end of the file. *)
Fixpoint eat_line (stream : list byte) : list byte :=
  match stream with
  | [] => []
  | c :: rest => if byte_eqb c NEWLINE then rest else eat_line rest
  end.

(** [strncpy(buf, line, len)]: [len] bytes are written, those of [line]
    and then NULs, or only the first [len] of [line]. *)
Definition strncpy (buf line : list byte) (len : nat) : list byte :=
  take len (line ++ replicate len NUL) ++ drop len buf.

(** The string held in an array: its bytes before the first NUL. *)
Definition c_string (buf : list byte) : option (list byte) :=
  n ← strlen buf; Some (take n buf).

(** [getLine(buf, len, src)]: the array as it is left, or [None] for NULL,
    with the new state. *)
Definition getLine (buf : list byte) (len : nat) (src : Input) (st : io)
  : result (option (list byte) * io) :=
  if (length buf <? len)%nat then Fault
  else
    let read : option (list byte * io) :=
      if el src then
        match tty st with
        | [] => None
        | line :: lines =>
            Some (strncpy buf line len,
                  MkIo (fp st) lines (hist st) (nesting st) (printed st))
        end
      else
        let '(cs, rest) := fgets_read (len - 1) (fp st) in
        match cs, fp st with
        | [], [] => None
        | _, _ =>
            Some (cs ++ [NUL] ++ drop (S (length cs)) buf,
                  MkIo rest (tty st) (hist st) (nesting st) (printed st))
        end in
    match read with
    | None => Ok (None, st)
    | Some (buf, st) =>
        match strlen buf with
        | None => Fault
        | Some O => Fault
        | Some (S m) =>
            match buf !! m with
            | None => Fault
            | Some last =>
                let '(buf, st) :=
                  if byte_eqb last NEWLINE then (<[m := NUL]> buf, st)
                  else if negb (el src) then
                    (buf, MkIo (eat_line (fp st)) (tty st) (hist st)
                               (nesting st) (printed st))
                  else (buf, st) in
                match c_string buf with
                | None => Fault
                | Some line =>
                    let st :=
                      if h src then
                        MkIo (fp st) (tty st) (hist st ++ [line])
                             (nesting st) (printed st)
                      else st in
                    Ok (Some buf, st)
                end
            end
        end
    end.

Definition byte_Z (c : byte) : Z := Z.of_N (Byte.to_N c).

(** [tolower] in the C locale. *)
Definition tolower (c : byte) : byte :=
  let n := Byte.to_N c in
  if ((65 <=? n) && (n <=? 90))%N then
    match Byte.of_N (n + 32) with Some c' => c' | None => c end
  else c.

(** [strcasecmp] of two strings given by their bytes before the NUL. *)
Fixpoint strcasecmp (a b : list byte) : Z :=
  match a, b with
  | [], [] => 0
  | [], d :: _ => 0 - byte_Z (tolower d)
  | c :: _, [] => byte_Z (tolower c)
  | c :: a', d :: b' =>
      if byte_eqb (tolower c) (tolower d) then strcasecmp a' b'
      else byte_Z (tolower c) - byte_Z (tolower d)
  end.

(** Lines 203-211: the strings [getString] returns from [s] on, until it
    returns NULL. *)
Fixpoint getStrings (fuel : nat) (mem : list byte) (s : option nat)
  : result (list (list byte)) :=
  match fuel with
  | O => OutOfFuel
  | S fuel' =>
      match getString mem s with
      | None => Fault
      | Some (None, _) => Ok []
      | Some (Some arg, s') =>
          match getStrings fuel' mem s' with
          | Ok args => Ok (arg :: args)
          | Fault => Fault
          | OutOfFuel => OutOfFuel
          end
      end
  end.

Section process_line.

(** [do_command] (commands.c) is taken as it acts on the state. *)
Context (do_command : list (list byte) -> io -> io).

(** [process_line(src)], [stale] being what the array [line] holds on
    entry. *)
Definition process_line (stale : list byte) (src : Input) (st : io)
  : result (bool * io) :=
  match getLine stale LINE_LENGTH src st with
  | Fault => Fault
  | OutOfFuel => OutOfFuel
  | Ok (None, st) => Ok (false, st)
  | Ok (Some line, st) =>
      match c_string line with
      | None => Fault
      | Some text =>
          let st :=
            if 0 <? nesting st then
              MkIo (fp st) (tty st) (hist st) (nesting st)
                   (printed st ++ [(nesting st, text)])
            else st in
          if strcasecmp text (cstr "exit") =? 0 then Ok (false, st)
          else if strcasecmp text (cstr "quit") =? 0 then Ok (false, st)
          else if strcasecmp text (cstr "q") =? 0 then Ok (false, st)
          else
            match getStrings (S (length line)) line (Some 0%nat) with
            | Fault => Fault
            | OutOfFuel => OutOfFuel
            | Ok [] => Ok (true, st)
            | Ok (arg0 :: args) =>
                if byte_eqb (hd NUL arg0) HASH then Ok (true, st)
                else Ok (true, do_command (arg0 :: args) st)
            end
      end
  end.

End process_line.

(** The state once a line of text [text] has been read and echoed, [rest]
    being what is left of the file. *)
Definition after_line (src : Input) (st : io) (text rest : list byte) : io :=
  MkIo rest (tty st)
       (if h src then hist st ++ [text] else hist st)
       (nesting st)
       (if 0 <? nesting st then printed st ++ [(nesting st, text)]
        else printed st).

(** Words, each after the white space that leads to it. *)
Definition spaced (items : list (list byte * list byte)) : list byte :=
  flat_map (fun item => fst item ++ snd item) items.

Definition is_word (w : list byte) : Prop :=
  w <> [] /\ head w <> Some DQUOTE /\ Forall (fun c => word_char c = true) w.

Definition is_space (sp : list byte) : Prop :=
  Forall (fun c => isspace c = true) sp.

(** The lines that end the session: exit, quit or q, in any case. *)
Definition ends_session (text : list byte) : Prop :=
  tolower <$> text = cstr "exit" \/ tolower <$> text = cstr "quit"
  \/ tolower <$> text = cstr "q".

(** *** Sample values *)

Definition file_input : Input := {| el := false; h := false |}.
Definition editor_input : Input := {| el := true; h := true |}.

(** A state with [stream] left in the file and [lines] to come from the
    editor. *)
Definition sample_io (stream : list byte) (lines : list (list byte)) : io :=
  {| fp := stream; tty := lines; hist := []; nesting := 0; printed := [] |}.

(** An array of [LINE_LENGTH] bytes, all [A]; and one that still holds the
    line [get Setup:] read before. *)
Definition fresh_array : list byte := replicate LINE_LENGTH x41.

Definition used_array : list byte :=
  cstr "get Setup:" ++ replicate (LINE_LENGTH - 10) NUL.

(** A [do_command] that only notes its arguments, as lines printed at
    level -1. *)
Definition note_command (argv : list (list byte)) (st : io) : io :=
  MkIo (fp st) (tty st) (hist st) (nesting st)
       (printed st ++ map (fun arg => (-1, arg)) argv).

End scutil.

(** * Properties *)

(** ** Running the primitives *)

Lemma bind_returns {A B} (m : prog A) (f : A -> prog B) w w' a :
  m w = Returns w' a -> bind m f w = f a w'.
Proof. intros H. unfold bind. by rewrite H. Qed.

Lemma bind_aborts {A B} (m : prog A) (f : A -> prog B) w w' :
  m w = Aborts w' -> bind m f w = Aborts w'.
Proof. intros H. unfold bind. by rewrite H. Qed.

Lemma bind_inv {A B} (m : prog A) (f : A -> prog B) w w2 b :
  bind m f w = Returns w2 b ->
  exists w1 a, m w = Returns w1 a /\ f a w1 = Returns w2 b.
Proof.
  unfold bind. destruct (m w) as [w1 a| |] eqn:E; [|done..].
  intros H. by exists w1, a.
Qed.

Lemma post_incr_ok w :
  dnsinfo_active w < INT_MAX ->
  post_incr_dnsinfo_active w
  = Returns (with_active (dnsinfo_active w + 1) w) (dnsinfo_active w).
Proof.
  intros H. unfold post_incr_dnsinfo_active, bind, gets. cbn.
  destruct (Z.ltb_spec (dnsinfo_active w) INT_MAX); [done | lia].
Qed.

Lemma post_incr_inv w w' n :
  post_incr_dnsinfo_active w = Returns w' n ->
  n = dnsinfo_active w /\ w' = with_active (n + 1) w /\ n < INT_MAX.
Proof.
  unfold post_incr_dnsinfo_active, bind, gets. cbn.
  destruct (Z.ltb_spec (dnsinfo_active w) INT_MAX); [|done].
  intros [= <- <-]. done.
Qed.

Lemma pre_decr_ok w :
  INT_MIN < dnsinfo_active w ->
  pre_decr_dnsinfo_active w
  = Returns (with_active (dnsinfo_active w - 1) w) (dnsinfo_active w - 1).
Proof.
  intros H. unfold pre_decr_dnsinfo_active, bind, gets. cbn.
  destruct (Z.ltb_spec INT_MIN (dnsinfo_active w)); [done | lia].
Qed.

(** ** The header fields *)

Lemma byte_val_range b : 0 <= byte_val b < 256.
Proof.
  unfold byte_val. pose proof (Byte.to_N_bounded b). lia.
Qed.

Lemma be_decode_range (l : list byte) (acc : Z) :
  0 <= acc ->
  0 <= foldl (fun a b => a * 256 + byte_val b) acc l
    <= (acc + 1) * 256 ^ Z.of_nat (length l) - 1.
Proof.
  revert acc. induction l as [|b l IH]; intros acc Hacc.
  - cbn. lia.
  - cbn [foldl length]. pose proof (byte_val_range b) as Hb.
    destruct (IH (acc * 256 + byte_val b)) as [Hlo Hhi]; [lia|].
    split; [done|].
    rewrite Nat2Z.inj_succ, Z.pow_succ_r by lia.
    assert (0 < 256 ^ Z.of_nat (length l)) by (apply Z.pow_pos_nonneg; lia).
    nia.
Qed.

Lemma ntohl_at_range off data : 0 <= ntohl_at off data <= UINT32_MAX.
Proof.
  unfold ntohl_at, UINT32_MAX.
  set (l := take 4 (drop (Z.to_nat off) data)).
  assert (Hlen : (length l <= 4)%nat).
  { subst l. rewrite length_take. lia. }
  destruct (be_decode_range l 0) as [Hlo Hhi]; [lia|].
  split; [done|].
  assert (256 ^ Z.of_nat (length l) <= 256 ^ 4).
  { apply Z.pow_le_mono_r; lia. }
  change (256 ^ 4) with (2 ^ 32) in *. lia.
Qed.

Lemma to_size_t_small L z :
  32 <= size_t_bits L -> 0 <= z < 2 ^ 32 -> to_size_t L z = z.
Proof.
  intros Hbits Hz. unfold to_size_t. apply Z.mod_small.
  assert (2 ^ 32 <= 2 ^ size_t_bits L) by (apply Z.pow_le_mono_r; lia).
  lia.
Qed.

Lemma int_max_small : INT_MAX < 2 ^ 31.
Proof. unfold INT_MAX. lia. Qed.

(** ** The size checks of lines 168-200 *)

Section size_checks.

Context (L : layout) (HL : layout_ok L).
Context (data : list byte).

Lemma sizeof_header_range : 0 <= sizeof_dns_config_buf_t L < 2 ^ 31.
Proof.
  destruct HL as [_ [? ?] _ ? ?]. pose proof int_max_small. lia.
Qed.

Lemma configLen_matches :
  sizeof_dns_config_buf_t L <= Z.of_nat (length data) <= DNS_CONFIG_BUF_MAX L ->
  to_size_t L (sizeof_dns_config_buf_t L + ntohl_at (offsetof_n_attribute L) data)
  = Z.of_nat (length data)
  <-> sizeof_dns_config_buf_t L + ntohl_at (offsetof_n_attribute L) data
      = Z.of_nat (length data).
Proof.
  intros Hrange. pose proof sizeof_header_range as Hs.
  pose proof (max_is_int L HL) as Hmax. pose proof int_max_small as Hint.
  pose proof (ntohl_at_range (offsetof_n_attribute L) data) as Ha.
  unfold UINT32_MAX in Ha.
  pose proof (size_t_wide L HL) as Hbits.
  assert (Hpow : 2 ^ 32 <= 2 ^ size_t_bits L) by (apply Z.pow_le_mono_r; lia).
  unfold to_size_t.
  destruct (Z_lt_le_dec
              (sizeof_dns_config_buf_t L + ntohl_at (offsetof_n_attribute L) data)
              (2 ^ size_t_bits L)) as [Hlt|Hge].
  - rewrite Z.mod_small by lia. done.
  - rewrite <- (Z.mod_unique_pos _ _ 1
                  (sizeof_dns_config_buf_t L
                   + ntohl_at (offsetof_n_attribute L) data
                   - 2 ^ size_t_bits L)) by lia.
    split; lia.
Qed.

Lemma room_for_padding :
  0 <= Z.of_nat (length data) <= DNS_CONFIG_BUF_MAX L ->
  to_size_t L (DNS_CONFIG_BUF_MAX L - Z.of_nat (length data))
  = DNS_CONFIG_BUF_MAX L - Z.of_nat (length data).
Proof.
  intros Hr. apply to_size_t_small; [apply HL|].
  pose proof (max_is_int L HL). pose proof int_max_small. lia.
Qed.

Lemma bufLen_exact :
  0 <= Z.of_nat (length data) <= DNS_CONFIG_BUF_MAX L ->
  ntohl_at (offsetof_n_padding L) data
    <= DNS_CONFIG_BUF_MAX L - Z.of_nat (length data) ->
  to_size_t L (Z.of_nat (length data) + ntohl_at (offsetof_n_padding L) data)
  = Z.of_nat (length data) + ntohl_at (offsetof_n_padding L) data.
Proof.
  intros Hr Hp. apply to_size_t_small; [apply HL|].
  pose proof (ntohl_at_range (offsetof_n_padding L) data) as Ha.
  pose proof (max_is_int L HL). pose proof int_max_small. lia.
Qed.

End size_checks.

(** ** The allocator *)

Lemma malloc_fresh junk len w :
  malloc junk len w
  = Returns (with_heap (<[fresh (dom (heap w)) := junk <$> seq 0 (Z.to_nat len)]>
                         (heap w)) w)
            (fresh (dom (heap w))).
Proof. reflexivity. Qed.

Lemma fresh_not_live (h : gmap loc (list byte)) : h !! fresh (dom h) = None.
Proof. apply not_elem_of_dom, is_fresh. Qed.

Lemma store_ok w p off bytes block :
  heap w !! p = Some block ->
  0 <= off ->
  off + Z.of_nat (length bytes) <= Z.of_nat (length block) ->
  store p off bytes w
  = Returns (with_heap (<[p := take (Z.to_nat off) block ++ bytes
                               ++ drop (Z.to_nat off + length bytes) block]>
                         (heap w)) w) tt.
Proof.
  intros Hp Hoff Hlen. unfold store, bind, gets. cbn. rewrite Hp.
  destruct (Z.leb_spec 0 off); [|lia].
  destruct (Z.leb_spec (off + Z.of_nat (length bytes)) (Z.of_nat (length block)));
    [done | lia].
Qed.

Lemma load_ok w p block : heap w !! p = Some block -> load p w = Returns w block.
Proof. intros Hp. unfold load, bind, gets. cbn. by rewrite Hp. Qed.

Lemma free_ok w p block :
  heap w !! p = Some block -> free p w = Returns (with_heap (delete p (heap w)) w) tt.
Proof. intros Hp. unfold free, bind, gets. cbn. by rewrite Hp. Qed.

(** ** From the reply to the buffer *)

Section receive.

Context (L : layout) (HL : layout_ok L).

Lemma receive_no_data e reply w :
  xpc_dictionary_get_data reply DNSINFO_CONFIGURATION = None ->
  dnsinfo_receive L e (Some reply) w = Returns w None.
Proof. intros H. unfold dnsinfo_receive. by rewrite H. Qed.

Lemma receive_out_of_range e reply data w :
  xpc_dictionary_get_data reply DNSINFO_CONFIGURATION = Some data ->
  Z.of_nat (length data) < sizeof_dns_config_buf_t L
  \/ DNS_CONFIG_BUF_MAX L < Z.of_nat (length data) ->
  dnsinfo_receive L e (Some reply) w = Returns w None.
Proof.
  intros Hd Hr. unfold dnsinfo_receive. rewrite Hd.
  destruct (Z.leb_spec (sizeof_dns_config_buf_t L) (Z.of_nat (length data)));
    destruct (Z.leb_spec (Z.of_nat (length data)) (DNS_CONFIG_BUF_MAX L));
    cbn; first [done | lia].
Qed.

Lemma receive_size_violation e reply data w :
  xpc_dictionary_get_data reply DNSINFO_CONFIGURATION = Some data ->
  sizeof_dns_config_buf_t L <= Z.of_nat (length data) <= DNS_CONFIG_BUF_MAX L ->
  sizeof_dns_config_buf_t L + ntohl_at (offsetof_n_attribute L) data
    <> Z.of_nat (length data)
  \/ DNS_CONFIG_BUF_MAX L - Z.of_nat (length data)
     < ntohl_at (offsetof_n_padding L) data
  \/ DNS_CONFIG_BUF_MAX L
     < Z.of_nat (length data) + ntohl_at (offsetof_n_padding L) data ->
  dnsinfo_receive L e (Some reply) w = Aborts w.
Proof.
  intros Hd [Hmin Hmax] Hbad. unfold dnsinfo_receive. rewrite Hd.
  destruct (Z.leb_spec (sizeof_dns_config_buf_t L) (Z.of_nat (length data)));
    [|lia].
  destruct (Z.leb_spec (Z.of_nat (length data)) (DNS_CONFIG_BUF_MAX L)); [|lia].
  cbn [andb]. unfold bind at 1, assert at 1.
  destruct (Z.eqb_spec
              (to_size_t L (sizeof_dns_config_buf_t L
                            + ntohl_at (offsetof_n_attribute L) data))
              (Z.of_nat (length data))) as [Heq|Hne]; [|done].
  apply configLen_matches in Heq; [|done..].
  unfold bind at 1, assert at 1.
  rewrite room_for_padding by (done || lia).
  destruct (Z.leb_spec (ntohl_at (offsetof_n_padding L) data)
              (DNS_CONFIG_BUF_MAX L - Z.of_nat (length data))); [|done].
  lia.
Qed.

Lemma receive_valid e reply data w :
  xpc_dictionary_get_data reply DNSINFO_CONFIGURATION = Some data ->
  sizeof_dns_config_buf_t L + ntohl_at (offsetof_n_attribute L) data
    = Z.of_nat (length data) ->
  ntohl_at (offsetof_n_padding L) data
    <= DNS_CONFIG_BUF_MAX L - Z.of_nat (length data) ->
  dnsinfo_receive L e (Some reply) w
  = Returns (with_heap (<[fresh (dom (heap w)) := padded L data]> (heap w)) w)
            (Some (fresh (dom (heap w)))).
Proof.
  intros Hd Hattr Hpad.
  pose proof (ntohl_at_range (offsetof_n_attribute L) data) as Ha.
  pose proof (ntohl_at_range (offsetof_n_padding L) data) as Hp.
  pose proof (sizeof_header_range L HL) as Hs.
  assert (Hrange : sizeof_dns_config_buf_t L <= Z.of_nat (length data)
                   <= DNS_CONFIG_BUF_MAX L) by lia.
  unfold dnsinfo_receive. rewrite Hd.
  destruct (Z.leb_spec (sizeof_dns_config_buf_t L) (Z.of_nat (length data)));
    [|lia].
  destruct (Z.leb_spec (Z.of_nat (length data)) (DNS_CONFIG_BUF_MAX L)); [|lia].
  cbn [andb].
  rewrite (proj2 (configLen_matches L HL data Hrange) Hattr), Z.eqb_refl.
  rewrite room_for_padding by (done || lia).
  rewrite bufLen_exact by (done || lia).
  destruct (Z.leb_spec (ntohl_at (offsetof_n_padding L) data)
              (DNS_CONFIG_BUF_MAX L - Z.of_nat (length data))); [|lia].
  destruct (Z.leb_spec (Z.of_nat (length data)
                        + ntohl_at (offsetof_n_padding L) data)
              (DNS_CONFIG_BUF_MAX L)); [|lia].
  unfold assert. unfold bind at 1 2 3 4. rewrite malloc_fresh.
  set (p := fresh (dom (heap w))).
  set (n_padding := ntohl_at (offsetof_n_padding L) data) in *.
  set (junk := uninitialised e <$> seq 0 (Z.to_nat (Z.of_nat (length data) + n_padding))).
  assert (Hjunk : length junk = Z.to_nat (Z.of_nat (length data) + n_padding)).
  { subst junk. by rewrite length_fmap, length_seq. }
  unfold bcopy.
  destruct (Z.ltb_spec (Z.of_nat (length data)) (Z.of_nat (length data))); [lia|].
  rewrite Nat2Z.id, firstn_all.
  unfold bind at 1.
  erewrite store_ok; cycle 1.
  { cbn. apply lookup_insert_eq. }
  { lia. }
  { rewrite Hjunk. lia. }
  cbn [heap with_heap]. rewrite insert_insert_eq.
  unfold bind at 1, bzero.
  erewrite store_ok; cycle 1.
  { cbn. apply lookup_insert_eq. }
  { lia. }
  { rewrite !length_app, length_drop, Hjunk, length_replicate. cbn [take length].
    lia. }
  cbn [heap with_heap]. rewrite insert_insert_eq.
  unfold ret, with_heap. cbn. do 3 f_equal.
  unfold padded. fold n_padding.
  change (Z.to_nat 0) with 0%nat. cbn [Nat.add].
  rewrite Nat2Z.id, !take_0. cbn [app].
  rewrite take_app_length, length_replicate.
  rewrite (drop_ge _ (length data + _)).
  - by rewrite app_nil_r.
  - rewrite length_app, length_drop, Hjunk. lia.
Qed.

End receive.

(** ** The block on the queue *)

Lemma connect_reuse e w c :
  dnsinfo_active w <> 0 ->
  dnsinfo_client w = Some c ->
  dnsinfo_active w < INT_MAX ->
  dnsinfo_connect e w = Returns (with_active (dnsinfo_active w + 1) w) tt.
Proof.
  intros Hn Hc Hmax. unfold dnsinfo_connect.
  rewrite (bind_returns _ _ _ _ _ (post_incr_ok w Hmax)).
  unfold bind, gets. cbn. rewrite Hc.
  destruct (Z.eqb_spec (dnsinfo_active w) 0); [done|].
  by rewrite bool_decide_eq_false_2.
Qed.

Lemma reaches_reply_open e w c :
  libSC_info_available e = true ->
  dnsinfo_active w <> 0 ->
  dnsinfo_client w = Some c ->
  active c = true ->
  dnsinfo_active w < INT_MAX ->
  reaches_reply e w (with_active (dnsinfo_active w + 1) w) c.
Proof.
  intros Hav Hn Hc Hact Hmax. split; [done|]. split; [|done].
  by eapply connect_reuse.
Qed.

Lemma connect_inv e w w1 :
  dnsinfo_connect e w = Returns w1 tt ->
  heap w1 = heap w /\
  releases (trace w1) = releases (trace w) /\
  (is_Some (dnsinfo_client w1) -> dnsinfo_active w1 = dnsinfo_active w + 1).
Proof.
  unfold dnsinfo_connect. intros H.
  apply bind_inv in H as (w0 & old & Hincr & H).
  apply post_incr_inv in Hincr as (-> & -> & Hmax).
  revert H. unfold bind, gets. cbn.
  destruct ((dnsinfo_active w =? 0) || bool_decide (dnsinfo_client w = None)).
  - assert (Hrel : forall t, releases (t ++ [ev_client_create]) = releases t).
    { intros t. unfold releases. by rewrite filter_app, app_nil_r. }
    destruct (libSC_info_client_create e) as [c|] eqn:Hc.
    + cbn. destruct (once w); cbn; intros [= <-]; cbn; by rewrite Hrel.
    + cbn. destruct (once w); cbn;
        (destruct (INT_MIN <? dnsinfo_active w + 1); cbn; [|done]);
        intros [= <-]; cbn; rewrite Hrel; (repeat split; try done);
        by intros [? [=]].
  - intros [= <-]. done.
Qed.

Lemma copy_after_connect L X e w w1 c :
  reaches_reply e w w1 c ->
  dns_configuration_copy L X e w
  = bind (dnsinfo_receive L e (libSC_send_message_with_reply_sync e))
         (dnsinfo_expand X) (request_sent c w1).
Proof.
  intros (Hav & Hconn & Hc & Hact). unfold dns_configuration_copy.
  rewrite Hav. cbn [negb].
  rewrite (bind_returns _ _ _ _ _ Hconn).
  unfold bind at 1, gets at 1. rewrite Hc, Hact. cbn [negb].
  reflexivity.
Qed.

(** ** Expansion *)

Lemma expand_fresh_block X w p block :
  heap w !! p = None ->
  dnsinfo_expand X (Some p) (with_heap (<[p := block]> (heap w)) w)
  = match X block with
    | Some block' => Returns (with_heap (<[p := block']> (heap w)) w) (Some p)
    | None => Returns w None
    end.
Proof.
  intros Hp. unfold dnsinfo_expand.
  erewrite bind_returns; [|apply load_ok; cbn; apply lookup_insert_eq].
  destruct (X block) as [block'|].
  - unfold bind, gets, set_heap, modify, ret, with_heap. cbn.
    by rewrite insert_insert_eq.
  - erewrite bind_returns; [|eapply free_ok; cbn; apply lookup_insert_eq].
    unfold ret. cbn [heap with_heap].
    rewrite delete_insert_eq, delete_id by done.
    by destruct w.
Qed.

Lemma copy_valid L X e w w1 c reply data :
  layout_ok L ->
  reaches_reply e w w1 c ->
  libSC_send_message_with_reply_sync e = Some reply ->
  xpc_dictionary_get_data reply DNSINFO_CONFIGURATION = Some data ->
  size_invariants L data ->
  dns_configuration_copy L X e w
  = match X (padded L data) with
    | Some block' =>
        Returns (with_heap (<[fresh (dom (heap (request_sent c w1))) := block']>
                              (heap (request_sent c w1))) (request_sent c w1))
                (Some (fresh (dom (heap (request_sent c w1)))))
    | None => Returns (request_sent c w1) None
    end.
Proof.
  intros HL Hreach Hreply Hdata (Hattr & Hpad & _).
  rewrite (copy_after_connect _ _ _ _ _ _ Hreach), Hreply.
  erewrite bind_returns; [|by apply receive_valid].
  apply expand_fresh_block, fresh_not_live.
Qed.

(** ** What a successful copy leaves behind *)

Lemma assert_inv {A} b (k : prog A) w w' r :
  bind (assert b) (fun _ => k) w = Returns w' r -> b = true /\ k w = Returns w' r.
Proof. unfold bind, assert. by destruct b. Qed.

Lemma store_inv p off bytes w w' :
  store p off bytes w = Returns w' tt ->
  exists block block',
    heap w !! p = Some block /\ w' = with_heap (<[p := block']> (heap w)) w.
Proof.
  unfold store, bind, gets. cbn.
  destruct (heap w !! p) as [block|] eqn:Hp; [|done].
  destruct ((0 <=? off) && _); [|done].
  intros [= <-]. eauto.
Qed.

Lemma receive_inv L e reply w w' buf :
  dnsinfo_receive L e reply w = Returns w' buf ->
  (buf = None /\ w' = w)
  \/ (exists p block,
        buf = Some p /\ heap w !! p = None
        /\ w' = with_heap (<[p := block]> (heap w)) w).
Proof.
  unfold dnsinfo_receive.
  destruct reply as [reply|]; [|intros [= <- <-]; by left].
  destruct (xpc_dictionary_get_data reply DNSINFO_CONFIGURATION) as [data|];
    [|intros [= <- <-]; by left].
  destruct (_ && _); [|intros [= <- <-]; by left].
  intros H.
  apply assert_inv in H as [_ H].
  apply assert_inv in H as [_ H].
  apply assert_inv in H as [_ H].
  rewrite (bind_returns _ _ _ _ _ (malloc_fresh _ _ _)) in H.
  apply bind_inv in H as (wa & [] & Hcopy & H).
  apply bind_inv in H as (wb & [] & Hzero & H).
  injection H as <- <-.
  unfold bcopy in Hcopy. destruct (_ <? _); [done|].
  apply store_inv in Hcopy as (b1 & b1' & _ & ->).
  apply store_inv in Hzero as (b2 & b2' & _ & ->).
  right. exists (fresh (dom (heap w))), b2'. split; [done|].
  split; [apply fresh_not_live|].
  cbn. by rewrite !insert_insert_eq.
Qed.

Lemma expand_inv X buf w w' q :
  dnsinfo_expand X buf w = Returns w' (Some q) ->
  buf = Some q
  /\ exists block', w' = with_heap (<[q := block']> (heap w)) w.
Proof.
  unfold dnsinfo_expand. destruct buf as [p|]; [|done].
  unfold load, bind, gets. cbn.
  destruct (heap w !! p) as [block|]; [|done]. cbn.
  destruct (X block) as [block'|].
  - intros [= <- <-]. eauto.
  - unfold free, bind, gets. cbn. by destruct (heap w !! p).
Qed.

Lemma releases_snoc_other t ev :
  is_release ev = false -> releases (t ++ [ev]) = releases t.
Proof.
  intros Hev. unfold releases.
  rewrite filter_app, filter_cons_False, filter_nil, app_nil_r; [done|].
  rewrite Hev. intros [].
Qed.

Lemma copy_success_inv L X e w w' p :
  dns_configuration_copy L X e w = Returns w' (Some p) ->
  dnsinfo_active w' = dnsinfo_active w + 1
  /\ is_Some (dnsinfo_client w')
  /\ heap w !! p = None
  /\ (exists block, heap w' = <[p := block]> (heap w))
  /\ releases (trace w') = releases (trace w).
Proof.
  unfold dns_configuration_copy.
  destruct (libSC_info_available e); cbn [negb]; [|done].
  intros H. apply bind_inv in H as (w1 & [] & Hconn & H).
  apply connect_inv in Hconn as (Hheap & Hrel & Hact).
  unfold bind at 1, gets at 1 in H.
  destruct (dnsinfo_client w1) as [c|] eqn:Hc; [|done].
  destruct (active c); cbn [negb] in H; [|done].
  change (bind (dnsinfo_receive L e (libSC_send_message_with_reply_sync e))
               (dnsinfo_expand X) (request_sent c w1) = Returns w' (Some p)) in H.
  apply bind_inv in H as (w2 & buf & Hrecv & Hexp).
  apply expand_inv in Hexp as (-> & block' & ->).
  apply receive_inv in Hrecv as [[[=] _] | (q & block & [= <-] & Hfresh & ->)].
  cbn in *. rewrite Hheap in *. rewrite Hc.
  split; [by apply Hact|]. split; [done|]. split; [done|].
  split; [exists block'; by rewrite insert_insert_eq|].
  by rewrite releases_snoc_other.
Qed.

Lemma copy_each_inv L X es w w1 rs :
  copy_each L X es w = Returns w1 rs ->
  Forall is_Some rs ->
  length rs = length es
  /\ dnsinfo_active w1 = dnsinfo_active w + Z.of_nat (length es)
  /\ NoDup rs
  /\ (forall p, Some p ∈ rs -> heap w !! p = None /\ is_Some (heap w1 !! p))
  /\ (forall p, is_Some (heap w !! p) -> is_Some (heap w1 !! p))
  /\ releases (trace w1) = releases (trace w)
  /\ (es <> [] -> is_Some (dnsinfo_client w1)).
Proof.
  revert w rs. induction es as [|e es IH]; intros w rs Hrun Hall.
  - injection Hrun as <- <-. cbn.
    split; [done|]. split; [lia|]. split; [constructor|].
    split; [by intros p ?%elem_of_nil|]. done.
  - cbn [copy_each] in Hrun.
    apply bind_inv in Hrun as (wa & r & Hcopy & Hrun).
    apply bind_inv in Hrun as (wb & rs' & Hrest & Hret).
    injection Hret as <- <-.
    apply Forall_cons in Hall as [[p ->] Hall].
    apply copy_success_inv in Hcopy as (Hact & Hcl & Hfresh & [block Hheap] & Hrel).
    destruct (IH _ _ Hrest Hall) as (Hlen & Hact' & Hnd & Hnew & Hmono & Hrel' & Hcl').
    assert (Hp : is_Some (heap wa !! p)).
    { rewrite Hheap, lookup_insert_eq. by eexists. }
    split; [cbn; by rewrite Hlen|].
    split; [cbn [length]; lia|].
    split.
    { constructor; [|done]. intros Hin. apply Hnew in Hin as [Hnone _].
      rewrite Hnone in Hp. by destruct Hp. }
    split.
    { intros q [[= ->]|Hin]%elem_of_cons.
      - split; [done|]. by apply Hmono.
      - apply Hnew in Hin as [Hnone Hlive]. split; [|done].
        rewrite Hheap in Hnone. apply lookup_insert_None in Hnone. tauto. }
    split.
    { intros q Hq. apply Hmono. rewrite Hheap.
      destruct (decide (p = q)) as [->|Hne].
      - rewrite lookup_insert_eq. by eexists.
      - by rewrite lookup_insert_ne. }
    split; [congruence|].
    intros _. destruct es as [|e' es'].
    + injection Hrest as <- <-. done.
    + by apply Hcl'.
Qed.

(** ** What the frees undo *)

Lemma free_config_spec p w block :
  heap w !! p = Some block ->
  INT_MIN < dnsinfo_active w ->
  dns_configuration_free (Some p) w
  = Returns
      (with_heap (delete p (heap w))
         (if dnsinfo_active w - 1 =? 0 then
            with_client None
              (with_trace (trace w ++ [ev_client_release (dnsinfo_client w)])
                 (with_active (dnsinfo_active w - 1) w))
          else with_active (dnsinfo_active w - 1) w)) tt.
Proof.
  intros Hp Hmin. unfold dns_configuration_free.
  rewrite (bind_returns _ _ _ _ _ (pre_decr_ok w Hmin)).
  destruct (dnsinfo_active w - 1 =? 0).
  - erewrite bind_returns by reflexivity.
    erewrite free_ok by (cbn; exact Hp). reflexivity.
  - erewrite bind_returns by reflexivity.
    erewrite free_ok by (cbn; exact Hp). reflexivity.
Qed.

Lemma free_each_spec (ps : list (option loc)) : forall w m,
  NoDup ps ->
  (forall r, r ∈ ps -> exists p, r = Some p /\ is_Some (heap w !! p)) ->
  dnsinfo_active w = Z.of_nat (length ps) + m ->
  0 <= m ->
  exists w',
    free_each ps w = Returns w' tt
    /\ dnsinfo_active w' = m
    /\ (0 < m \/ ps = [] ->
        trace w' = trace w /\ dnsinfo_client w' = dnsinfo_client w)
    /\ (m = 0 -> ps <> [] ->
        trace w' = trace w ++ [ev_client_release (dnsinfo_client w)]
        /\ dnsinfo_client w' = None).
Proof.
  induction ps as [|r ps IH]; intros w m Hnd Hlive Hact Hm.
  - exists w. cbn in Hact. split; [done|]. split; [lia|]. split; [done|].
    by intros _ [].
  - apply NoDup_cons in Hnd as [Hr Hnd].
    destruct (Hlive r) as (p & -> & [block Hp]); [by left|].
    cbn [length] in Hact.
    assert (Hmin : INT_MIN < dnsinfo_active w) by (unfold INT_MIN; lia).
    cbn [free_each].
    rewrite (bind_returns _ _ _ _ _ (free_config_spec _ _ _ Hp Hmin)).
    set (w1 := with_heap _ _).
    assert (Hlive1 : forall r, r ∈ ps ->
                       exists q, r = Some q /\ is_Some (heap w1 !! q)).
    { intros r Hin. destruct (Hlive r) as (q & -> & Hq); [by right|].
      exists q. split; [done|]. subst w1. cbn.
      rewrite lookup_delete_ne; [done|]. by intros ->. }
    destruct (Z.eqb_spec (dnsinfo_active w - 1) 0) as [Hzero|Hpos].
    + assert (ps = []) as -> by (destruct ps; [done|cbn [length] in Hact; lia]).
      assert (m = 0) as -> by (cbn in Hact; lia).
      exists w1. subst w1. cbn. split; [done|]. split; [lia|].
      split; [by intros [?|?]; [lia|]|]. done.
    + destruct (IH w1 m Hnd Hlive1) as (w' & Hrun & Hact' & Hkeep & Hdrop);
        [subst w1; cbn; lia | done |].
      exists w'. split; [done|]. split; [done|]. split.
      * intros [Hm'|?]; [|done]. destruct Hkeep as [-> ->]; [by left|].
        by subst w1.
      * intros -> _. destruct ps as [|r' ps'].
        { cbn in Hact. lia. }
        destruct Hdrop as [-> ->]; [done..|]. by subst w1.
Qed.

(** ** The sample values *)

Lemma sample_layout_ok : layout_ok sample_layout.
Proof. split; vm_compute; intuition discriminate. Qed.

Lemma sample_reaches_reply reply :
  reaches_reply (sample_env reply) closed_world connected_world sample_client.
Proof. repeat split. Qed.

(** * The claims *)

(** C1 (as amended): for every reply whose configuration data has a byte
    count within [[sizeof(_dns_config_buf_t), DNS_CONFIG_BUF_MAX]] and whose
    declared attribute length plus the header size differs from that byte
    count, [dns_configuration_copy] dies on the first [assert], whatever the
    declared padding: the state at the abort is the one in which the request
    was sent, with nothing allocated, copied or expanded. *)
Theorem copy_aborts_on_attribute_length_mismatch L X e w w1 c reply data :
  layout_ok L ->
  reaches_reply e w w1 c ->
  libSC_send_message_with_reply_sync e = Some reply ->
  xpc_dictionary_get_data reply DNSINFO_CONFIGURATION = Some data ->
  sizeof_dns_config_buf_t L <= Z.of_nat (length data) <= DNS_CONFIG_BUF_MAX L ->
  sizeof_dns_config_buf_t L + ntohl_at (offsetof_n_attribute L) data
    <> Z.of_nat (length data) ->
  dns_configuration_copy L X e w = Aborts (request_sent c w1).
Proof.
  intros HL Hreach Hreply Hdata Hrange Hbad.
  rewrite (copy_after_connect _ _ _ _ _ _ Hreach), Hreply.
  apply bind_aborts. eapply receive_size_violation; eauto.
Qed.

(** At the sample values: 58 bytes received, 40 attribute bytes declared. *)
Lemma copy_aborts_on_attribute_length_mismatch_witness :
  dns_configuration_copy sample_layout always_expands
    (sample_env (Some (sample_reply short_attribute_data))) closed_world
  = Aborts (request_sent sample_client connected_world).
Proof.
  apply (copy_aborts_on_attribute_length_mismatch sample_layout always_expands
           (sample_env (Some (sample_reply short_attribute_data)))
           closed_world connected_world sample_client
           (sample_reply short_attribute_data) short_attribute_data).
  - exact sample_layout_ok.
  - apply sample_reaches_reply.
  - reflexivity.
  - reflexivity.
  - vm_compute. intuition discriminate.
  - vm_compute. discriminate.
Defined.

(** C1 (as stated) fails: a reply of one byte more than
    [DNS_CONFIG_BUF_MAX] whose header declares no attribute bytes has a
    byte count different from header size plus attribute length, and
    [dns_configuration_copy] returns NULL without aborting. *)
Lemma oversized_mismatch_is_not_fatal :
  sizeof_dns_config_buf_t sample_layout
  + ntohl_at (offsetof_n_attribute sample_layout) oversized_data
    <> Z.of_nat (length oversized_data)
  /\ dns_configuration_copy sample_layout always_expands
       (sample_env (Some (sample_reply oversized_data))) closed_world
     = Returns (request_sent sample_client connected_world) None.
Proof.
  split.
  - vm_compute. discriminate.
  - vm_compute. reflexivity.
Qed.

(** C2 (as amended): of the checks made on the configuration data of a
    reply, the three made by [assert] are fatal -- the attribute length, the
    padding bound and the total size: when the byte count is within
    [[sizeof(_dns_config_buf_t), DNS_CONFIG_BUF_MAX]] and any of them is
    violated, [dns_configuration_copy] aborts.  The range check is not: when
    the byte count is outside that range the call returns NULL, the state
    being the one in which the request was sent. *)
Theorem copy_size_checks_abort_but_range_check_returns L X e w w1 c reply data :
  layout_ok L ->
  reaches_reply e w w1 c ->
  libSC_send_message_with_reply_sync e = Some reply ->
  xpc_dictionary_get_data reply DNSINFO_CONFIGURATION = Some data ->
  (Z.of_nat (length data) < sizeof_dns_config_buf_t L
   \/ DNS_CONFIG_BUF_MAX L < Z.of_nat (length data) ->
   dns_configuration_copy L X e w = Returns (request_sent c w1) None)
  /\
  (sizeof_dns_config_buf_t L <= Z.of_nat (length data) <= DNS_CONFIG_BUF_MAX L ->
   ~ size_invariants L data ->
   dns_configuration_copy L X e w = Aborts (request_sent c w1)).
Proof.
  intros HL Hreach Hreply Hdata.
  rewrite (copy_after_connect _ _ _ _ _ _ Hreach), Hreply.
  split.
  - intros Hout.
    erewrite bind_returns; [|by eapply receive_out_of_range].
    reflexivity.
  - intros Hrange Hbad.
    apply bind_aborts. eapply receive_size_violation; eauto.
    unfold size_invariants in Hbad. lia.
Qed.

(** At the sample values: thirty bytes are returned on, a wrong attribute
    length is aborted on. *)
Lemma copy_size_checks_abort_but_range_check_returns_witness :
  dns_configuration_copy sample_layout always_expands
    (sample_env (Some (sample_reply truncated_data))) closed_world
  = Returns (request_sent sample_client connected_world) None
  /\
  dns_configuration_copy sample_layout always_expands
    (sample_env (Some (sample_reply short_attribute_data))) closed_world
  = Aborts (request_sent sample_client connected_world).
Proof.
  split.
  - apply (copy_size_checks_abort_but_range_check_returns sample_layout
             always_expands (sample_env (Some (sample_reply truncated_data)))
             closed_world connected_world sample_client
             (sample_reply truncated_data) truncated_data).
    + exact sample_layout_ok.
    + apply sample_reaches_reply.
    + reflexivity.
    + reflexivity.
    + left. vm_compute. reflexivity.
  - apply (copy_size_checks_abort_but_range_check_returns sample_layout
             always_expands
             (sample_env (Some (sample_reply short_attribute_data)))
             closed_world connected_world sample_client
             (sample_reply short_attribute_data) short_attribute_data).
    + exact sample_layout_ok.
    + apply sample_reaches_reply.
    + reflexivity.
    + reflexivity.
    + vm_compute. intuition discriminate.
    + vm_compute. intros (H & _). discriminate H.
Defined.

(** C2 (as stated) fails: a reply of thirty bytes, shorter than the header,
    violates the range check, and [dns_configuration_copy] returns NULL
    instead of aborting. *)
Lemma truncated_reply_is_not_fatal :
  Z.of_nat (length truncated_data) < sizeof_dns_config_buf_t sample_layout
  /\ dns_configuration_copy sample_layout always_expands
       (sample_env (Some (sample_reply truncated_data))) closed_world
     = Returns (request_sent sample_client connected_world) None.
Proof.
  split.
  - vm_compute. reflexivity.
  - vm_compute. reflexivity.
Qed.

(** C3: for every reply whose configuration data satisfies the three size
    invariants, the checks pass and the block built from it is one fresh
    allocation of byte count plus padding bytes, the received bytes first and
    unchanged, the padding after them all zero; that block is what
    [_dns_configuration_expand_config] is given, and the call returns (the
    expanded block, or NULL when expansion fails) without aborting. *)
Theorem copy_valid_reply_builds_padded_buffer L X e w w1 c reply data :
  layout_ok L ->
  reaches_reply e w w1 c ->
  libSC_send_message_with_reply_sync e = Some reply ->
  xpc_dictionary_get_data reply DNSINFO_CONFIGURATION = Some data ->
  size_invariants L data ->
  let w2 := request_sent c w1 in
  let p := fresh (dom (heap w2)) in
  let n_padding := ntohl_at (offsetof_n_padding L) data in
  dnsinfo_receive L e (Some reply) w2
  = Returns (with_heap (<[p := padded L data]> (heap w2)) w2) (Some p)
  /\ heap w2 !! p = None
  /\ Z.of_nat (length (padded L data)) = Z.of_nat (length data) + n_padding
  /\ take (length data) (padded L data) = data
  /\ drop (length data) (padded L data) = replicate (Z.to_nat n_padding) x00
  /\ dns_configuration_copy L X e w
     = match X (padded L data) with
       | Some block' => Returns (with_heap (<[p := block']> (heap w2)) w2) (Some p)
       | None => Returns w2 None
       end.
Proof.
  intros HL Hreach Hreply Hdata Hinv w2 p n_padding.
  pose proof (ntohl_at_range (offsetof_n_padding L) data) as Hp.
  destruct Hinv as (Hattr & Hpad & Htotal).
  repeat split.
  - by apply receive_valid.
  - apply fresh_not_live.
  - unfold padded. rewrite length_app, length_replicate. fold n_padding. lia.
  - unfold padded. apply take_app_length.
  - unfold padded. apply drop_app_length.
  - by eapply copy_valid.
Qed.

(** At the sample values: two attribute bytes and three bytes of padding. *)
Lemma copy_valid_reply_builds_padded_buffer_witness :
  dns_configuration_copy sample_layout always_expands
    (sample_env (Some (sample_reply good_data))) closed_world
  = Returns (with_heap {[ 1%positive := good_data ++ [x00; x00; x00] ]}
               (request_sent sample_client connected_world))
            (Some 1%positive).
Proof.
  pose proof (copy_valid_reply_builds_padded_buffer sample_layout always_expands
                (sample_env (Some (sample_reply good_data)))
                closed_world connected_world sample_client
                (sample_reply good_data) good_data) as H.
  destruct H as (_ & _ & _ & _ & _ & H).
  - exact sample_layout_ok.
  - apply sample_reaches_reply.
  - reflexivity.
  - reflexivity.
  - vm_compute. intuition discriminate.
  - rewrite H. vm_compute. reflexivity.
Defined.

(** C6 (as amended): when the block on the queue has to create the client
    (the count was zero or there is no client), the increment is undone
    exactly when [libSC_info_client_create] returns NULL: the count after the
    block is then the count before the call.  When a client is created but
    is not active, the client is kept and the count stays one above its value
    before the call.  Either way [dns_configuration_copy] returns NULL,
    having sent nothing and allocated nothing. *)
Theorem copy_rolls_back_without_client_not_with_inactive_one L X e w :
  libSC_info_available e = true ->
  dnsinfo_active w = 0 \/ dnsinfo_client w = None ->
  INT_MIN <= dnsinfo_active w < INT_MAX ->
  (libSC_info_client_create e = None ->
   exists w',
     dnsinfo_connect e w = Returns w' tt
     /\ dns_configuration_copy L X e w = Returns w' None
     /\ dnsinfo_active w' = dnsinfo_active w
     /\ dnsinfo_client w' = None
     /\ heap w' = heap w
     /\ trace w' = trace w ++ [ev_client_create])
  /\ (forall c,
        libSC_info_client_create e = Some c ->
        active c = false ->
        exists w',
          dnsinfo_connect e w = Returns w' tt
          /\ dns_configuration_copy L X e w = Returns w' None
          /\ dnsinfo_active w' = dnsinfo_active w + 1
          /\ dnsinfo_client w' = Some c
          /\ heap w' = heap w
          /\ trace w' = trace w ++ [ev_client_create]).
Proof.
  intros Hav Hneed [Hmin Hmax].
  assert (Hcond : (dnsinfo_active w =? 0) || bool_decide (dnsinfo_client w = None)
                  = true).
  { destruct Hneed as [->| ->]; [done|].
    rewrite bool_decide_eq_true_2 by done. apply orb_true_r. }
  split.
  - intros Hcreate.
    assert (Hconn : exists w',
               dnsinfo_connect e w = Returns w' tt
               /\ dnsinfo_active w' = dnsinfo_active w
               /\ dnsinfo_client w' = None
               /\ heap w' = heap w
               /\ trace w' = trace w ++ [ev_client_create]).
    { unfold dnsinfo_connect.
      rewrite (bind_returns _ _ _ _ _ (post_incr_ok w Hmax)).
      unfold bind at 1, gets at 1. cbn [dnsinfo_client with_active]. rewrite Hcond.
      rewrite Hcreate.
      unfold bind, gets, emit, set_proc_name, set_dnsinfo_client, modify, ret.
      destruct (once w) eqn:Honce; cbn; rewrite Honce; cbn;
        (destruct (Z.ltb_spec INT_MIN (dnsinfo_active w + 1)); [|lia]);
        cbn; eexists; (split; [reflexivity|]); cbn; repeat split; lia. }
    destruct Hconn as (w' & Hconn & Hact & Hcl & Hheap & Htrace).
    exists w'. repeat split; try done.
    unfold dns_configuration_copy. rewrite Hav. cbn [negb].
    rewrite (bind_returns _ _ _ _ _ Hconn).
    unfold bind, gets. by rewrite Hcl.
  - intros c Hcreate Hinactive.
    assert (Hconn : exists w',
               dnsinfo_connect e w = Returns w' tt
               /\ dnsinfo_active w' = dnsinfo_active w + 1
               /\ dnsinfo_client w' = Some c
               /\ heap w' = heap w
               /\ trace w' = trace w ++ [ev_client_create]).
    { unfold dnsinfo_connect.
      rewrite (bind_returns _ _ _ _ _ (post_incr_ok w Hmax)).
      unfold bind at 1, gets at 1. cbn [dnsinfo_client with_active]. rewrite Hcond.
      rewrite Hcreate.
      unfold bind, gets, emit, set_proc_name, set_dnsinfo_client, modify, ret.
      destruct (once w) eqn:Honce; cbn; rewrite Honce; cbn;
        eexists; (split; [reflexivity|]); cbn; repeat split. }
    destruct Hconn as (w' & Hconn & Hact & Hcl & Hheap & Htrace).
    exists w'. repeat split; try done.
    unfold dns_configuration_copy. rewrite Hav. cbn [negb].
    rewrite (bind_returns _ _ _ _ _ Hconn).
    unfold bind, gets. by rewrite Hcl, Hinactive.
Qed.

(** At the sample values, the first call of a process: with no service the
    count is back at zero; with a client that is not active it is one. *)
Lemma copy_rolls_back_without_client_not_with_inactive_one_witness :
  (exists w',
     dnsinfo_connect no_service_env closed_world = Returns w' tt
     /\ dns_configuration_copy sample_layout always_expands no_service_env
          closed_world = Returns w' None
     /\ dnsinfo_active w' = dnsinfo_active closed_world
     /\ dnsinfo_client w' = None
     /\ heap w' = heap closed_world
     /\ trace w' = trace closed_world ++ [ev_client_create])
  /\ (exists w',
        dnsinfo_connect inactive_env closed_world = Returns w' tt
        /\ dns_configuration_copy sample_layout always_expands inactive_env
             closed_world = Returns w' None
        /\ dnsinfo_active w' = dnsinfo_active closed_world + 1
        /\ dnsinfo_client w' = Some {| active := false; connection := 7 |}
        /\ heap w' = heap closed_world
        /\ trace w' = trace closed_world ++ [ev_client_create]).
Proof.
  split.
  - apply (copy_rolls_back_without_client_not_with_inactive_one
             sample_layout always_expands no_service_env closed_world).
    + reflexivity.
    + left. reflexivity.
    + vm_compute. intuition discriminate.
    + reflexivity.
  - apply (copy_rolls_back_without_client_not_with_inactive_one
             sample_layout always_expands inactive_env closed_world).
    + reflexivity.
    + left. reflexivity.
    + vm_compute. intuition discriminate.
    + reflexivity.
    + reflexivity.
Defined.

(** C6 (as stated) fails: on the first call of a process,
    [libSC_info_client_create] hands back a client that is not active.  The
    connection is not established and [dns_configuration_copy] returns NULL,
    but the count, zero before the call, is one after it: the increment is
    not rolled back. *)
Lemma inactive_client_is_not_rolled_back :
  active <$> libSC_info_client_create inactive_env = Some false
  /\ dnsinfo_active closed_world = 0
  /\ dns_configuration_copy sample_layout always_expands inactive_env
       closed_world
     = Returns inactive_world None
  /\ dnsinfo_active inactive_world = 1.
Proof.
  split; [reflexivity|]. split; [reflexivity|]. split; [|reflexivity].
  vm_compute. reflexivity.
Qed.

(** C7: when the service cannot be reached (between [fork] and [exec]),
    [dns_configuration_copy] returns NULL at once: it logs, and leaves the
    count, the client and the heap as they were -- no client is created and
    nothing is sent. *)
Theorem copy_unavailable_fails_at_once L X e w :
  libSC_info_available e = false ->
  dns_configuration_copy L X e w
  = Returns (with_trace (trace w ++ [ev_os_log]) w) None.
Proof.
  intros Hav. unfold dns_configuration_copy. rewrite Hav. reflexivity.
Qed.

(** At the sample values: a call in the child of a [fork], the connection
    of the parent open. *)
Lemma copy_unavailable_fails_at_once_witness :
  dns_configuration_copy sample_layout always_expands forked_env open_world
  = Returns (with_trace (trace open_world ++ [ev_os_log]) open_world) None.
Proof.
  apply (copy_unavailable_fails_at_once sample_layout always_expands
           forked_env open_world).
  reflexivity.
Defined.

(** C8: when the configuration data of the reply passes the size checks and
    [_dns_configuration_expand_config] fails on the block built from it,
    [dns_configuration_copy] returns NULL without aborting, and the block is
    freed: the heap after the call is the heap before it. *)
Theorem copy_expansion_failure_is_soft L X e w w1 c reply data :
  layout_ok L ->
  reaches_reply e w w1 c ->
  libSC_send_message_with_reply_sync e = Some reply ->
  xpc_dictionary_get_data reply DNSINFO_CONFIGURATION = Some data ->
  size_invariants L data ->
  X (padded L data) = None ->
  dns_configuration_copy L X e w = Returns (request_sent c w1) None
  /\ heap (request_sent c w1) = heap w.
Proof.
  intros HL Hreach Hreply Hdata Hinv Hfail. split.
  - erewrite copy_valid by eauto. by rewrite Hfail.
  - destruct Hreach as (_ & Hconn & _).
    apply connect_inv in Hconn as (Hheap & _). exact Hheap.
Qed.

(** At the sample values: a well-sized reply that does not expand. *)
Lemma copy_expansion_failure_is_soft_witness :
  dns_configuration_copy sample_layout never_expands
    (sample_env (Some (sample_reply good_data))) closed_world
  = Returns (request_sent sample_client connected_world) None
  /\ heap (request_sent sample_client connected_world) = heap closed_world.
Proof.
  apply (copy_expansion_failure_is_soft sample_layout never_expands
           (sample_env (Some (sample_reply good_data)))
           closed_world connected_world sample_client
           (sample_reply good_data) good_data).
  - exact sample_layout_ok.
  - apply sample_reaches_reply.
  - reflexivity.
  - reflexivity.
  - vm_compute. intuition discriminate.
  - reflexivity.
Defined.

(** C10: when the call has got as far as sending its request and then
    returns NULL -- no reply, a reply without configuration data, data whose
    byte count is outside [[sizeof(_dns_config_buf_t), DNS_CONFIG_BUF_MAX]],
    or a failed expansion -- the count after the call is the count before it
    plus one: the increment made on the queue is kept although the caller
    has nothing to free. *)
Theorem copy_failure_after_connect_keeps_increment L X e w w1 c :
  layout_ok L ->
  reaches_reply e w w1 c ->
  libSC_send_message_with_reply_sync e = None
  \/ (exists reply,
        libSC_send_message_with_reply_sync e = Some reply
        /\ xpc_dictionary_get_data reply DNSINFO_CONFIGURATION = None)
  \/ (exists reply data,
        libSC_send_message_with_reply_sync e = Some reply
        /\ xpc_dictionary_get_data reply DNSINFO_CONFIGURATION = Some data
        /\ (Z.of_nat (length data) < sizeof_dns_config_buf_t L
            \/ DNS_CONFIG_BUF_MAX L < Z.of_nat (length data)))
  \/ (exists reply data,
        libSC_send_message_with_reply_sync e = Some reply
        /\ xpc_dictionary_get_data reply DNSINFO_CONFIGURATION = Some data
        /\ size_invariants L data
        /\ X (padded L data) = None) ->
  dns_configuration_copy L X e w = Returns (request_sent c w1) None
  /\ dnsinfo_active (request_sent c w1) = dnsinfo_active w + 1.
Proof.
  intros HL Hreach Hcase. split.
  - destruct Hcase as [Hnone | [(reply & Hreply & Hdata)
                      | [(reply & data & Hreply & Hdata & Hout)
                      | (reply & data & Hreply & Hdata & Hinv & Hfail)]]].
    + by rewrite (copy_after_connect _ _ _ _ _ _ Hreach), Hnone.
    + rewrite (copy_after_connect _ _ _ _ _ _ Hreach), Hreply.
      erewrite bind_returns; [|by apply receive_no_data]. reflexivity.
    + rewrite (copy_after_connect _ _ _ _ _ _ Hreach), Hreply.
      erewrite bind_returns; [|by eapply receive_out_of_range]. reflexivity.
    + erewrite copy_valid by eauto. by rewrite Hfail.
  - destruct Hreach as (_ & Hconn & Hc & _).
    apply connect_inv in Hconn as (_ & _ & Hact).
    apply Hact. by rewrite Hc.
Qed.

(** At the sample values: no reply on an open connection. *)
Lemma copy_failure_after_connect_keeps_increment_witness :
  dns_configuration_copy sample_layout always_expands (sample_env None)
    open_world
  = Returns (request_sent sample_client
               (with_active (dnsinfo_active open_world + 1) open_world)) None
  /\ dnsinfo_active
       (request_sent sample_client
          (with_active (dnsinfo_active open_world + 1) open_world))
     = dnsinfo_active open_world + 1.
Proof.
  apply (copy_failure_after_connect_keeps_increment sample_layout
           always_expands (sample_env None) open_world
           (with_active (dnsinfo_active open_world + 1) open_world)
           sample_client).
  - exact sample_layout_ok.
  - repeat split.
  - left. reflexivity.
Defined.

(** C5: for a snapshot [p] (a live block) and an active client,
    [_dns_configuration_ack] adds one to the count and hands
    [xpc_connection_send_message] -- the send that takes no reply -- a
    dictionary holding the ACKNOWLEDGE request and the snapshot's
    generation; nothing else changes.  The count is not given back: a
    [dns_configuration_free] that follows the acknowledgement of a held
    snapshot leaves the client in place and releases nothing. *)
Theorem ack_pins_connection_and_sends_generation
    (config_generation : list byte -> Z) w p block c bundle_id :
  heap w !! p = Some block ->
  dnsinfo_client w = Some c ->
  active c = true ->
  dnsinfo_active w < INT_MAX ->
  let msg := ack_request (config_generation block) in
  let w' := with_trace (trace w ++ [ev_connection_send_message (connection c) msg])
              (with_active (dnsinfo_active w + 1) w) in
  _dns_configuration_ack config_generation (Some p) bundle_id w = Returns w' tt
  /\ dnsinfo_active w' = dnsinfo_active w + 1
  /\ msg !! DNSINFO_REQUEST = Some (xpc_int64 DNSINFO_REQUEST_ACKNOWLEDGE)
  /\ msg !! DNSINFO_GENERATION = Some (xpc_uint64 (config_generation block))
  /\ (0 < dnsinfo_active w ->
      exists w'',
        dns_configuration_free (Some p) w' = Returns w'' tt
        /\ dnsinfo_active w'' = dnsinfo_active w
        /\ dnsinfo_client w'' = Some c
        /\ releases (trace w'') = releases (trace w)).
Proof.
  intros Hp Hc Hact Hmax msg w'.
  split; [|split; [|split; [|split]]].
  - unfold _dns_configuration_ack, bind at 1, gets at 1. rewrite Hc, Hact.
    cbn [negb].
    rewrite (bind_returns _ _ _ _ _ (post_incr_ok w Hmax)).
    erewrite bind_returns; [|apply load_ok; cbn; exact Hp].
    reflexivity.
  - reflexivity.
  - subst msg. unfold ack_request.
    rewrite lookup_insert_ne by done. apply lookup_insert_eq.
  - subst msg. unfold ack_request. apply lookup_insert_eq.
  - intros Hpos. unfold dns_configuration_free.
    erewrite bind_returns; cycle 1.
    { apply pre_decr_ok. subst w'. cbn. unfold INT_MIN. lia. }
    subst w'. cbn [dnsinfo_active with_active with_trace].
    replace (dnsinfo_active w + 1 - 1) with (dnsinfo_active w) by lia.
    destruct (Z.eqb_spec (dnsinfo_active w) 0) as [?|_]; [lia|].
    unfold bind at 1, ret at 1.
    erewrite free_ok by (cbn; exact Hp).
    eexists. split; [reflexivity|]. cbn. repeat split; try done.
    unfold releases. by rewrite filter_app, app_nil_r.
Qed.

(** At the sample values: generation 42 acknowledged on connection 7. *)
Lemma ack_pins_connection_and_sends_generation_witness :
  _dns_configuration_ack (fun _ => 42) (Some 1%positive) "scutil" open_world
  = Returns
      (with_trace
         (trace open_world
          ++ [ev_connection_send_message 7 (ack_request 42)])
         (with_active 2 open_world)) tt.
Proof.
  pose proof (ack_pins_connection_and_sends_generation (fun _ => 42)
                open_world 1%positive [x2a] sample_client "scutil") as H.
  destruct H as (H & _).
  - reflexivity.
  - reflexivity.
  - reflexivity.
  - vm_compute. reflexivity.
  - exact H.
Defined.

(** C4: from a closed connection (count zero, no client), N calls of
    [dns_configuration_copy] that all return a snapshot, followed by
    [dns_configuration_free] of those N snapshots in any order, bring the
    count back to zero.  No client is released while copying or by any of the
    first N-1 frees, which leave the client in place; the last free releases
    the client and clears [dnsinfo_client]: one release in all. *)
Theorem copies_then_frees_balance L X es w w1 rs ps :
  dnsinfo_active w = 0 ->
  dnsinfo_client w = None ->
  copy_each L X es w = Returns w1 rs ->
  Forall is_Some rs ->
  ps ≡ₚ rs ->
  exists w2,
    free_each ps w1 = Returns w2 tt
    /\ length ps = length es
    /\ dnsinfo_active w1 = Z.of_nat (length es)
    /\ dnsinfo_active w2 = 0
    /\ releases (trace w1) = releases (trace w)
    /\ (es <> [] ->
        is_Some (dnsinfo_client w1)
        /\ dnsinfo_client w2 = None
        /\ trace w2 = trace w1 ++ [ev_client_release (dnsinfo_client w1)]
        /\ forall ps1 ps2,
             ps = ps1 ++ ps2 -> ps2 <> [] ->
             exists w',
               free_each ps1 w1 = Returns w' tt
               /\ dnsinfo_active w' = Z.of_nat (length ps2)
               /\ dnsinfo_client w' = dnsinfo_client w1
               /\ trace w' = trace w1).
Proof.
  intros Hzero Hclosed Hrun Hall Hperm.
  destruct (copy_each_inv _ _ _ _ _ _ Hrun Hall)
    as (Hlen & Hact & Hnd & Hnew & _ & Hrel & Hcl).
  assert (Hlive : forall r, r ∈ ps -> exists p, r = Some p /\ is_Some (heap w1 !! p)).
  { intros r Hin. rewrite Hperm in Hin.
    destruct (proj1 (Forall_forall _ _) Hall r Hin) as [p ->].
    exists p. split; [done|]. by apply Hnew. }
  assert (Hnd' : NoDup ps) by by rewrite Hperm.
  assert (Hlen' : length ps = length es) by by rewrite Hperm.
  destruct (free_each_spec ps w1 0 Hnd' Hlive) as (w2 & Hfree & Hact2 & _ & Hdrop);
    [lia | lia |].
  exists w2. split; [done|]. split; [done|]. split; [lia|]. split; [done|].
  split; [done|].
  intros Hne. split; [by apply Hcl|].
  assert (Hps : ps <> []).
  { intros ->. destruct es; [done|]. discriminate Hlen'. }
  destruct (Hdrop eq_refl Hps) as [Htrace Hnone].
  split; [done|]. split; [done|].
  intros ps1 ps2 -> Hps2.
  apply NoDup_app in Hnd' as (Hnd1 & _ & _).
  destruct (free_each_spec ps1 w1 (Z.of_nat (length ps2)) Hnd1)
    as (w' & Hfree1 & Hact1 & Hkeep & _).
  - intros r Hin. apply Hlive, elem_of_app. by left.
  - rewrite length_app in Hlen'. lia.
  - lia.
  - exists w'. split; [done|]. split; [done|].
    destruct Hkeep as [-> ->]; [|done].
    left. destruct ps2; [done|]. cbn [length]. lia.
Qed.

(** At the sample values: two copies, freed in the opposite order. *)
Lemma copies_then_frees_balance_witness :
  copy_each sample_layout always_expands two_calls closed_world
  = Returns after_two_copies [Some 1%positive; Some 2%positive]
  /\ exists w2,
       free_each [Some 2%positive; Some 1%positive] after_two_copies
       = Returns w2 tt
       /\ dnsinfo_active after_two_copies = 2
       /\ dnsinfo_active w2 = 0
       /\ dnsinfo_client w2 = None
       /\ trace w2
          = trace after_two_copies
            ++ [ev_client_release (dnsinfo_client after_two_copies)].
Proof.
  assert (Hrun : copy_each sample_layout always_expands two_calls closed_world
                 = Returns after_two_copies [Some 1%positive; Some 2%positive]).
  { vm_compute. reflexivity. }
  split; [exact Hrun|].
  destruct (copies_then_frees_balance sample_layout always_expands two_calls
              closed_world after_two_copies
              [Some 1%positive; Some 2%positive]
              [Some 2%positive; Some 1%positive]
              eq_refl eq_refl Hrun)
    as (w2 & Hfree & _ & Hact1 & Hact2 & _ & Hlast).
  - repeat constructor; by eexists.
  - apply perm_swap.
  - exists w2. destruct Hlast as (_ & Hnone & Htrace & _); [done|].
    split; [exact Hfree|]. split; [exact Hact1|].
    split; [exact Hact2|]. split; [exact Hnone|]. exact Htrace.
Defined.

(** C9: [nwi_ifstate_compare_rank] of a record with itself is EQUAL; when it
    puts the first of two records ahead, it puts the second ahead with the
    arguments swapped; and its result is fixed by the stored ranks alone, so
    that two records of the same rank may replace one another. *)
Theorem compare_rank_reflexive_antisymmetric (a b a' b' : nwi.nwi_ifstate) :
  nwi.nwi_ifstate_compare_rank a a = nwi.EQUAL
  /\ (nwi.nwi_ifstate_compare_rank a b = nwi.A_FIRST ->
      nwi.nwi_ifstate_compare_rank b a = nwi.B_FIRST)
  /\ (nwi.rank a = nwi.rank a' -> nwi.rank b = nwi.rank b' ->
      nwi.nwi_ifstate_compare_rank a b = nwi.nwi_ifstate_compare_rank a' b').
Proof.
  unfold nwi.nwi_ifstate_compare_rank, nwi.EQUAL, nwi.A_FIRST, nwi.B_FIRST.
  split; [by rewrite Z.eqb_refl|]. split.
  - destruct (Z.eqb_spec (nwi.rank a) (nwi.rank b)); [done|].
    destruct (Z.ltb_spec (nwi.rank a) (nwi.rank b)); [|done]. intros _.
    destruct (Z.eqb_spec (nwi.rank b) (nwi.rank a)); [lia|].
    destruct (Z.ltb_spec (nwi.rank b) (nwi.rank a)); [lia|done].
  - by intros -> ->.
Qed.

(** At sample records: en0 at position 0, en1 at position 1. *)
Lemma compare_rank_reflexive_antisymmetric_witness :
  nwi.nwi_ifstate_compare_rank (nwi.IfState "en0" 5 0) (nwi.IfState "en0" 5 0)
  = nwi.EQUAL
  /\ nwi.nwi_ifstate_compare_rank (nwi.IfState "en1" 1 1) (nwi.IfState "en0" 5 0)
     = nwi.B_FIRST
  /\ nwi.nwi_ifstate_compare_rank (nwi.IfState "en0" 5 0) (nwi.IfState "en1" 1 1)
     = nwi.nwi_ifstate_compare_rank (nwi.IfState "utun0" 2 0)
         (nwi.IfState "en1" 1 1).
Proof.
  destruct (compare_rank_reflexive_antisymmetric
              (nwi.IfState "en0" 5 0) (nwi.IfState "en1" 1 1)
              (nwi.IfState "utun0" 2 0) (nwi.IfState "en1" 1 1))
    as (Hrefl & Hanti & Hrank).
  split; [exact Hrefl|]. split.
  - apply Hanti. reflexivity.
  - apply Hrank; reflexivity.
Defined.

(** * Further properties of dnsinfo_copy.c *)

Lemma connect_cases e w w1 :
  dnsinfo_connect e w = Returns w1 tt ->
  dnsinfo_active w < INT_MAX
  /\ ((dnsinfo_active w <> 0 /\ dnsinfo_client w <> None
       /\ w1 = with_active (dnsinfo_active w + 1) w)
      \/ ((dnsinfo_active w = 0 \/ dnsinfo_client w = None)
          /\ dnsinfo_client w1 = libSC_info_client_create e
          /\ trace w1 = trace w ++ [ev_client_create]
          /\ proc_name w1 = (if once w then proc_name w else getprogname e)
          /\ once w1 = true
          /\ dnsinfo_active w1
             = match libSC_info_client_create e with
               | Some _ => dnsinfo_active w + 1
               | None => dnsinfo_active w
               end)).
Proof.
  unfold dnsinfo_connect. intros H.
  apply bind_inv in H as (w0 & old & Hincr & H).
  apply post_incr_inv in Hincr as (-> & -> & Hmax).
  split; [done|].
  revert H. unfold bind, gets. cbn.
  destruct (Z.eqb_spec (dnsinfo_active w) 0) as [Hz|Hz]; cbn [orb].
  - intros H. right. split; [by left|].
    destruct (libSC_info_client_create e) as [c|]; cbn in H.
    + destruct (once w) eqn:Ho; cbn in H; injection H as <-; cbn;
        rewrite ?Ho; repeat split; done.
    + destruct (once w) eqn:Ho; cbn in H;
        (destruct (INT_MIN <? dnsinfo_active w + 1); cbn in H; [|done]);
        injection H as <-; cbn; rewrite ?Ho; repeat split; try done; lia.
  - destruct (dnsinfo_client w) as [c0|] eqn:Hc0.
    + rewrite bool_decide_eq_false_2 by done. intros [= <-]. by left.
    + rewrite bool_decide_eq_true_2 by done. intros H. right.
      split; [by right|].
      destruct (libSC_info_client_create e) as [c|]; cbn in H.
      * destruct (once w) eqn:Ho; cbn in H; injection H as <-; cbn;
          rewrite ?Ho; repeat split; done.
      * destruct (once w) eqn:Ho; cbn in H;
          (destruct (INT_MIN <? dnsinfo_active w + 1); cbn in H; [|done]);
          injection H as <-; cbn; rewrite ?Ho; repeat split; try done; lia.
Qed.

Lemma connect_keeps_rest e w w1 :
  dnsinfo_connect e w = Returns w1 tt ->
  (once w = true -> proc_name w1 = proc_name w /\ once w1 = true).
Proof.
  intros H Ho. apply connect_cases in H as (_ & [(_ & _ & ->)|(_ & _ & _ & Hp & Ho' & _)]).
  - done.
  - by rewrite Hp, Ho.
Qed.

Lemma expand_none_inv X buf w w' :
  dnsinfo_expand X buf w = Returns w' None ->
  (buf = None /\ w' = w)
  \/ (exists p block,
        buf = Some p /\ heap w !! p = Some block
        /\ w' = with_heap (delete p (heap w)) w).
Proof.
  unfold dnsinfo_expand. destruct buf as [p|]; [|intros [= <-]; by left].
  unfold load, bind, gets. cbn.
  destruct (heap w !! p) as [block|] eqn:Hp; [|done]. cbn.
  destruct (X block) as [block'|]; [done|].
  unfold free, bind, gets. cbn. rewrite Hp. cbn.
  intros [= <-]. right. eauto.
Qed.

(** What any call of [dns_configuration_copy] that returns has done. *)
Lemma copy_inv L X e w w' r :
  dns_configuration_copy L X e w = Returns w' r ->
  (libSC_info_available e = false
   /\ w' = with_trace (trace w ++ [ev_os_log]) w /\ r = None)
  \/ (libSC_info_available e = true
      /\ exists w1,
          dnsinfo_connect e w = Returns w1 tt
          /\ dnsinfo_active w' = dnsinfo_active w1
          /\ dnsinfo_client w' = dnsinfo_client w1
          /\ proc_name w' = proc_name w1
          /\ once w' = once w1
          /\ releases (trace w') = releases (trace w)
          /\ match r with
             | Some p =>
                 is_Some (dnsinfo_client w1) /\ heap w !! p = None
                 /\ exists block, heap w' = <[p := block]> (heap w)
             | None => heap w' = heap w
             end).
Proof.
  unfold dns_configuration_copy.
  destruct (libSC_info_available e); cbn [negb].
  2:{ intros [= <- <-]. by left. }
  intros H. right. split; [done|].
  apply bind_inv in H as (w1 & [] & Hconn & H). exists w1. split; [done|].
  pose proof (connect_inv _ _ _ Hconn) as (Hheap & Hrel & _).
  unfold bind at 1, gets at 1 in H.
  destruct (dnsinfo_client w1) as [c|] eqn:Hc.
  2:{ injection H as <- <-. by rewrite Hc. }
  destruct (active c); cbn [negb] in H.
  2:{ injection H as <- <-. by rewrite Hc. }
  change (bind (dnsinfo_receive L e (libSC_send_message_with_reply_sync e))
               (dnsinfo_expand X) (request_sent c w1) = Returns w' r) in H.
  apply bind_inv in H as (w2 & buf & Hrecv & Hexp).
  assert (Hsent : releases (trace (request_sent c w1)) = releases (trace w)).
  { cbn. by rewrite releases_snoc_other. }
  apply receive_inv in Hrecv
    as [[-> ->] | (q & block & -> & Hfresh & ->)].
  - injection Hexp as <- <-. cbn. by rewrite Hc.
  - destruct r as [p|].
    + apply expand_inv in Hexp as ([= ->] & block' & ->). cbn in *.
      rewrite Hc, Hheap in *. repeat split; try done.
      exists block'. by rewrite insert_insert_eq.
    + apply expand_none_inv in Hexp as [[[=] _]|(p & b & [= <-] & _ & ->)].
      cbn in *. rewrite Hc, Hheap in *. repeat split; try done.
      by rewrite delete_insert_eq, delete_id.
Qed.

(** X1: A client that exists but is not active: [dns_configuration_copy]
    returns NULL without sending anything, and the increment made on the
    queue stays. *)
Theorem copy_inactive_client_keeps_increment L X e w w1 c :
  libSC_info_available e = true ->
  dnsinfo_connect e w = Returns w1 tt ->
  dnsinfo_client w1 = Some c ->
  active c = false ->
  dns_configuration_copy L X e w = Returns w1 None
  /\ dnsinfo_active w1 = dnsinfo_active w + 1.
Proof.
  intros Hav Hconn Hc Hact. split.
  - unfold dns_configuration_copy. rewrite Hav. cbn [negb].
    rewrite (bind_returns _ _ _ _ _ Hconn).
    unfold bind, gets. by rewrite Hc, Hact.
  - apply connect_inv in Hconn as (_ & _ & H). apply H. by rewrite Hc.
Qed.

Lemma copy_heap_grows L X e w w' r :
  dns_configuration_copy L X e w = Returns w' r ->
  (forall q block, heap w !! q = Some block -> heap w' !! q = Some block)
  /\ releases (trace w') = releases (trace w)
  /\ (r = None -> heap w' = heap w).
Proof.
  intros H. apply copy_inv in H
    as [(_ & -> & ->)|(_ & w1 & _ & _ & _ & _ & _ & Hrel & Hr)].
  - cbn. split; [done|]. split; [|done]. by rewrite releases_snoc_other.
  - destruct r as [p|].
    + destruct Hr as (_ & Hfresh & block & ->). split; [|done].
      intros q b Hq. rewrite lookup_insert_ne; [done|]. by intros ->; rewrite Hfresh in Hq.
    + rewrite Hr. done.
Qed.

Lemma copy_free_round_trip L X e w w' p :
  INT_MIN <= dnsinfo_active w ->
  dns_configuration_copy L X e w = Returns w' (Some p) ->
  exists w'',
    dns_configuration_free (Some p) w' = Returns w'' tt
    /\ dnsinfo_active w'' = dnsinfo_active w
    /\ heap w'' = heap w
    /\ (dnsinfo_active w <> 0 ->
        dnsinfo_client w'' = dnsinfo_client w' /\ trace w'' = trace w')
    /\ (dnsinfo_active w = 0 ->
        dnsinfo_client w'' = None
        /\ trace w'' = trace w' ++ [ev_client_release (dnsinfo_client w')]).
Proof.
  intros Hmin Hcopy.
  apply copy_success_inv in Hcopy as (Hact & _ & Hfresh & [block Hheap] & _).
  assert (Hp : heap w' !! p = Some block) by (rewrite Hheap; apply lookup_insert_eq).
  eexists. split; [apply (free_config_spec p w' block Hp); lia|].
  rewrite Hact. replace (dnsinfo_active w + 1 - 1) with (dnsinfo_active w) by lia.
  destruct (Z.eqb_spec (dnsinfo_active w) 0) as [Hz|Hz]; cbn.
  - rewrite Hheap, delete_insert_eq, delete_id by done. repeat split; done.
  - rewrite Hheap, delete_insert_eq, delete_id by done. repeat split; done.
Qed.

Lemma free_inv p w w' :
  dns_configuration_free (Some p) w = Returns w' tt ->
  INT_MIN < dnsinfo_active w /\ exists block, heap w !! p = Some block.
Proof.
  unfold dns_configuration_free. intros H.
  apply bind_inv in H as (w1 & n & Hdecr & H).
  assert (Hmin : INT_MIN < dnsinfo_active w).
  { revert Hdecr. unfold pre_decr_dnsinfo_active, bind, gets. cbn.
    by destruct (Z.ltb_spec INT_MIN (dnsinfo_active w)). }
  split; [done|].
  rewrite (pre_decr_ok w Hmin) in Hdecr. injection Hdecr as <- <-.
  apply bind_inv in H as (w2 & [] & Hrel & Hfree).
  assert (Hheap : heap w2 = heap w).
  { revert Hrel. destruct (dnsinfo_active w - 1 =? 0); by intros [= <-]. }
  revert Hfree. unfold free, bind, gets. cbn. rewrite Hheap.
  destruct (heap w !! p) as [block|]; [eauto|done].
Qed.

Lemma ack_inv gen p bundle_id w w' :
  _dns_configuration_ack gen (Some p) bundle_id w = Returns w' tt ->
  w' = w
  \/ exists c block,
       dnsinfo_client w = Some c /\ active c = true
       /\ heap w !! p = Some block
       /\ w' = with_trace
                 (trace w ++ [ev_connection_send_message (connection c)
                                (ack_request (gen block))])
                 (with_active (dnsinfo_active w + 1) w).
Proof.
  unfold _dns_configuration_ack, bind at 1, gets at 1.
  destruct (dnsinfo_client w) as [c|] eqn:Hc; [|intros [= <-]; by left].
  destruct (active c) eqn:Hact; cbn [negb]; [|intros [= <-]; by left].
  intros H. apply bind_inv in H as (w1 & old & Hincr & H).
  apply post_incr_inv in Hincr as (-> & -> & Hmax).
  revert H. unfold load, bind, gets. cbn.
  destruct (heap w !! p) as [block|] eqn:Hp; [|done]. cbn.
  intros [= <-]. right. exists c, block. repeat split; done.
Qed.

Section consistency.

Context (L : layout) (X : list byte -> option (list byte)).
Context (gen : list byte -> Z).

Lemma copy_consistent e w w' r held :
  dns_configuration_copy L X e w = Returns w' r ->
  consistent w held ->
  consistent w' (match r with Some _ => held + 1 | None => held end).
Proof.
  intros H [Hheld Hiff].
  apply copy_inv in H
    as [(_ & -> & ->)|(_ & w1 & Hconn & Hact & Hcl & _ & _ & _ & Hr)].
  { done. }
  unfold consistent. rewrite Hact, Hcl.
  apply connect_cases in Hconn
    as (_ & [(Hn & Hc & ->)|(Hneed & Hc1 & _ & _ & _ & Ha1)]).
  - cbn in *. assert (dnsinfo_active w + 1 <> 0) by lia.
    split; [destruct r; lia|]. split; [done|]. intros Hnone. by rewrite Hnone in Hc.
  - assert (Hzero : dnsinfo_active w = 0).
    { destruct Hneed as [?|Hnone]; [done|]. by apply Hiff. }
    rewrite Ha1, Hc1.
    destruct (libSC_info_client_create e) as [c|].
    + split; [destruct r; lia|]. split; [lia|done].
    + split; [|done]. destruct r as [p|]; [|lia].
      destruct Hr as ([? Hsome] & _). by rewrite Hc1 in Hsome.
Qed.

Lemma free_consistent p w w' held :
  dns_configuration_free (Some p) w = Returns w' tt ->
  consistent w held -> 0 < held ->
  consistent w' (held - 1)
  /\ (trace w' = trace w
      \/ exists c, trace w' = trace w ++ [ev_client_release (Some c)]).
Proof.
  intros H [Hheld Hiff] Hpos.
  pose proof (free_inv _ _ _ H) as (Hmin & block & Hp).
  rewrite (free_config_spec _ _ _ Hp Hmin) in H. injection H as <-.
  unfold consistent.
  destruct (Z.eqb_spec (dnsinfo_active w - 1) 0) as [Hz|Hz]; cbn.
  - split; [split; [lia|done]|]. right.
    destruct (dnsinfo_client w) as [c|] eqn:Hc; [eauto|].
    assert (dnsinfo_active w = 0) by by apply Hiff. lia.
  - split; [|by left]. split; [lia|]. split; [done|].
    intros Hnone. apply Hiff in Hnone. lia.
Qed.

Lemma ack_consistent p bundle_id w w' held :
  _dns_configuration_ack gen (Some p) bundle_id w = Returns w' tt ->
  consistent w held ->
  consistent w' held /\ releases (trace w') = releases (trace w).
Proof.
  intros H [Hheld Hiff].
  apply ack_inv in H as [->|(c & block & Hc & _ & _ & ->)]; [done|].
  split; [|cbn; by rewrite releases_snoc_other].
  split; cbn; [lia|]. rewrite Hc. split; [lia|done].
Qed.

End consistency.


Lemma step_in_step L X gen c held w held' w' :
  step L X gen c held w = Returns w' held' ->
  in_step w held -> in_step w' held'.
Proof.
  intros Hstep (Hlive & Hcons & Htrace).
  destruct c as [e|p|p b]; cbn [step] in Hstep.
  - apply bind_inv in Hstep as (w2 & r & Hcopy & Hret). injection Hret as <- <-.
    pose proof (copy_consistent _ _ _ _ _ _ _ Hcopy Hcons) as Hcons'.
    pose proof (copy_heap_grows _ _ _ _ _ _ Hcopy) as (Hkeep & Hrel & _).
    assert (Hlive' : forall q, q ∈ held -> is_Some (heap w2 !! q)).
    { intros q Hq. destruct (Hlive q Hq) as [block Hb]. exists block. by apply Hkeep. }
    rewrite <- Hrel in Htrace.
    destruct r as [p|]; [|done].
    apply copy_success_inv in Hcopy as (_ & _ & Hfresh & [block Hheap] & _).
    assert (Hnew : p ∉ held).
    { intros Hin. destruct (Hlive p Hin) as [? Hp]. by rewrite Hfresh in Hp. }
    split; [|split; [|done]].
    + intros q [->%elem_of_singleton|Hq]%elem_of_union; [|by apply Hlive'].
      rewrite Hheap, lookup_insert_eq. by eexists.
    + rewrite size_union by (by apply disjoint_singleton_l).
      rewrite size_singleton.
      by replace (Z.of_nat (1 + size held)) with (Z.of_nat (size held) + 1) by lia.
  - destruct (bool_decide_reflect (p ∈ held)) as [Hin|]; [|done].
    apply bind_inv in Hstep as (w2 & [] & Hfree & Hret). injection Hret as <- <-.
    assert (Hsize : size held = S (size (held ∖ {[p]}))).
    { rewrite (union_difference_L {[p]} held) at 1
        by (by apply singleton_subseteq_l).
      rewrite size_union by (by apply disjoint_difference_r1).
      by rewrite size_singleton. }
    destruct (free_consistent _ _ _ (Z.of_nat (size held)) Hfree Hcons ltac:(lia))
      as (Hcons' & Hrel).
    pose proof (free_inv _ _ _ Hfree) as (Hmin & block & Hp).
    rewrite (free_config_spec _ _ _ Hp Hmin) in Hfree. injection Hfree as Hw2.
    split; [|split].
    + intros q [Hq Hne%not_elem_of_singleton]%elem_of_difference.
      rewrite <- Hw2. cbn. rewrite lookup_delete_ne by done. by apply Hlive.
    + by replace (Z.of_nat (size (held ∖ {[p]})))
        with (Z.of_nat (size held) - 1) by lia.
    + destruct Hrel as [->|[c ->]]; [done|].
      unfold releases. rewrite filter_app. apply Forall_app. split; [done|].
      rewrite filter_cons_True by done. by repeat constructor.
  - destruct (bool_decide_reflect (p ∈ held)) as [Hin|]; [|done].
    apply bind_inv in Hstep as (w2 & [] & Hack & Hret). injection Hret as <- <-.
    destruct (ack_consistent _ _ _ _ _ _ Hack Hcons) as (Hcons' & Hrel).
    split; [|split; [done|by rewrite Hrel]].
    intros q Hq. apply ack_inv in Hack as [->|(c & block & _ & _ & _ & ->)];
      by apply Hlive.
Qed.

(** X4: The count and the client stay in step with the snapshots that are
    out.  In every run of copies, frees and acknowledgements that frees and
    acknowledges only snapshots that are out, started in step: at the end the
    snapshots out are live blocks, there is a client while one of them is out
    or the count is not zero, and [libSC_info_client_release] has never been
    handed NULL. *)
Theorem run_stays_in_step L X gen calls held w held' w' :
  run L X gen calls held w = Returns w' held' ->
  in_step w held ->
  in_step w' held'
  /\ (held' <> ∅ -> is_Some (dnsinfo_client w'))
  /\ (dnsinfo_active w' = 0 -> dnsinfo_client w' = None /\ held' = ∅).
Proof.
  intros Hrun Hin.
  assert (Hend : in_step w' held').
  { revert held w Hrun Hin. induction calls as [|c calls IH]; intros held w Hrun Hin.
    - by injection Hrun as <- <-.
    - cbn [run] in Hrun. apply bind_inv in Hrun as (w1 & held1 & Hstep & Hrun).
      eapply IH; [done|]. by eapply step_in_step. }
  split; [done|].
  destruct Hend as (_ & [Hheld Hiff] & _).
  split.
  - intros Hne. destruct (decide (dnsinfo_client w' = None)) as [Hc|Hc].
    + apply Hiff in Hc.
      assert (size held' <> 0%nat); [|lia].
      apply size_non_empty_iff. by intros ?%leibniz_equiv.
    + by destruct (dnsinfo_client w').
  - intros Hz. split; [by apply Hiff|].
    apply leibniz_equiv, size_empty_iff. lia.
Qed.

(** X5: [_dns_configuration_ack] only counts and sends: whatever it is
    given, it leaves the heap and the client alone and releases nothing;
    either it changes nothing at all, or it adds one to the count and sends
    one message. *)
Theorem ack_only_counts_and_sends gen config bundle_id w w' :
  _dns_configuration_ack gen config bundle_id w = Returns w' tt ->
  heap w' = heap w
  /\ dnsinfo_client w' = dnsinfo_client w
  /\ (w' = w
      \/ (dnsinfo_active w' = dnsinfo_active w + 1
          /\ exists conn msg,
               trace w' = trace w ++ [ev_connection_send_message conn msg])).
Proof.
  destruct config as [p|]; [|intros [= <-]; auto].
  intros H. apply ack_inv in H as [->|(c & block & _ & _ & _ & ->)]; [auto|].
  cbn. split; [done|]. split; [done|]. right. eauto.
Qed.

(** X6: The process name is looked up once: when the [dispatch_once] of
    the queue block has run, no later call of [dns_configuration_copy]
    changes [proc_name]; the first call that has to create the client sets it
    to what [getprogname] returns. *)
Theorem copy_sets_proc_name_once L X e w w' r :
  dns_configuration_copy L X e w = Returns w' r ->
  (once w = true -> proc_name w' = proc_name w /\ once w' = true)
  /\ (once w = false -> once w' = true -> proc_name w' = getprogname e).
Proof.
  intros H. apply copy_inv in H
    as [(_ & -> & _)|(_ & w1 & Hconn & _ & _ & -> & -> & _)].
  - split; [done|]. cbn. by intros ->.
  - split; [exact (connect_keeps_rest _ _ _ Hconn)|].
    intros Ho Ho'.
    apply connect_cases in Hconn as (_ & [(_ & _ & ->)|(_ & _ & _ & Hp & _)]).
    + cbn in Ho'. congruence.
    + by rewrite Hp, Ho.
Qed.

(** X7: [main]: a copy, freed when there is one.  Started with the
    connection closed, it leaves the heap as it found it, and the connection
    closed again -- unless the copy failed after the client was created:
    then the count is left at one with the client in place, never
    released. *)
Theorem main_from_closed L X e w w' :
  dnsinfo_active w = 0 ->
  dnsinfo_client w = None ->
  main L X e w = Returns w' tt ->
  heap w' = heap w
  /\ ((dnsinfo_active w' = 0 /\ dnsinfo_client w' = None)
      \/ (dnsinfo_active w' = 1 /\ is_Some (dnsinfo_client w')
          /\ releases (trace w') = releases (trace w))).
Proof.
  intros Hzero Hnone Hmain. unfold main in Hmain.
  apply bind_inv in Hmain as (w1 & r & Hcopy & Hfree).
  destruct r as [p|].
  - destruct (copy_free_round_trip L X e w w1 p) as (w2 & Hf & Ha & Hh & _ & Hrel);
      [unfold INT_MIN; lia|done|].
    rewrite Hf in Hfree. injection Hfree as <-.
    split; [done|]. left. split; [lia|]. by apply Hrel.
  - injection Hfree as <-.
    apply copy_inv in Hcopy
      as [(_ & -> & _)|(_ & w2 & Hconn & -> & -> & _ & _ & Hrel & ->)].
    + split; [done|]. by left.
    + split; [done|].
      apply connect_cases in Hconn as (_ & [(Hn & _)|(_ & Hc & _ & _ & _ & Ha)]);
        [done|].
      rewrite Ha, Hc. destruct (libSC_info_client_create e) as [c|].
      * right. split; [lia|]. split; [by eexists|done].
      * by left.
Qed.

(** ** The properties that are used above, by their names *)

(** X2: No call of [dns_configuration_copy] releases the client or touches
    a block that was live before it, and a call that returns NULL leaves the
    heap as it found it: a failed copy leaks no memory. *)
Theorem copy_keeps_live_blocks L X e w w' r :
  dns_configuration_copy L X e w = Returns w' r ->
  (forall q block, heap w !! q = Some block -> heap w' !! q = Some block)
  /\ releases (trace w') = releases (trace w)
  /\ (r = None -> heap w' = heap w).
Proof. apply copy_heap_grows. Qed.

(** X3: A copy followed by the free of its snapshot gives back what it
    took: the count and the heap are as before the copy; the client is
    released exactly when the count was zero before the copy. *)
Theorem copy_then_free_restores L X e w w' p :
  INT_MIN <= dnsinfo_active w ->
  dns_configuration_copy L X e w = Returns w' (Some p) ->
  exists w'',
    dns_configuration_free (Some p) w' = Returns w'' tt
    /\ dnsinfo_active w'' = dnsinfo_active w
    /\ heap w'' = heap w
    /\ (dnsinfo_active w <> 0 ->
        dnsinfo_client w'' = dnsinfo_client w' /\ trace w'' = trace w')
    /\ (dnsinfo_active w = 0 ->
        dnsinfo_client w'' = None
        /\ trace w'' = trace w' ++ [ev_client_release (dnsinfo_client w')]).
Proof. apply copy_free_round_trip. Qed.

(** ** The further properties at sample values *)

Lemma closed_in_step : in_step closed_world ∅.
Proof.
  split; [|split].
  - intros p Hp. by apply not_elem_of_empty in Hp.
  - split; [by vm_compute|done].
  - constructor.
Qed.

(** X1 at a first call that gets an inactive client. *)
Lemma copy_inactive_client_keeps_increment_witness :
  dns_configuration_copy sample_layout always_expands inactive_env closed_world
  = Returns inactive_world None
  /\ dnsinfo_active inactive_world = dnsinfo_active closed_world + 1.
Proof.
  apply (copy_inactive_client_keeps_increment sample_layout always_expands
           inactive_env closed_world inactive_world
           {| active := false; connection := 7 |}); reflexivity.
Defined.

(** X2 at a copy made with one block live. *)
Lemma copy_keeps_live_blocks_witness :
  (forall q block,
      heap open_world !! q = Some block -> heap after_open_copy !! q = Some block)
  /\ releases (trace after_open_copy) = releases (trace open_world)
  /\ (Some 2%positive = None -> heap after_open_copy = heap open_world).
Proof.
  apply (copy_keeps_live_blocks sample_layout always_expands
           (sample_env (Some (sample_reply good_data))) open_world
           after_open_copy (Some 2%positive)).
  vm_compute. reflexivity.
Defined.

(** X3 at a copy made on an open connection, and its free. *)
Lemma copy_then_free_restores_witness :
  exists w'',
    dns_configuration_free (Some 2%positive) after_open_copy = Returns w'' tt
    /\ dnsinfo_active w'' = dnsinfo_active open_world
    /\ heap w'' = heap open_world
    /\ (dnsinfo_active open_world <> 0 ->
        dnsinfo_client w'' = dnsinfo_client after_open_copy
        /\ trace w'' = trace after_open_copy)
    /\ (dnsinfo_active open_world = 0 ->
        dnsinfo_client w'' = None
        /\ trace w''
           = trace after_open_copy
             ++ [ev_client_release (dnsinfo_client after_open_copy)]).
Proof.
  apply (copy_then_free_restores sample_layout always_expands
           (sample_env (Some (sample_reply good_data))) open_world
           after_open_copy 2%positive).
  - vm_compute. discriminate.
  - vm_compute. reflexivity.
Defined.

(** X4 at a copy, an acknowledgement and a free from the closed state: the
    acknowledgement keeps the client after the free. *)
Lemma run_stays_in_step_witness :
  in_step after_sample_calls ∅
  /\ ((∅ : gset loc) <> ∅ -> is_Some (dnsinfo_client after_sample_calls))
  /\ (dnsinfo_active after_sample_calls = 0 ->
      dnsinfo_client after_sample_calls = None /\ (∅ : gset loc) = ∅).
Proof.
  apply (run_stays_in_step sample_layout always_expands (fun _ => 42)
           sample_calls ∅ closed_world ∅ after_sample_calls).
  - vm_compute. reflexivity.
  - exact closed_in_step.
Defined.

(** X5 at the acknowledgement of the block of [open_world]. *)
Lemma ack_only_counts_and_sends_witness :
  heap (with_trace
          (trace open_world ++ [ev_connection_send_message 7 (ack_request 42)])
          (with_active 2 open_world)) = heap open_world
  /\ dnsinfo_client
       (with_trace
          (trace open_world ++ [ev_connection_send_message 7 (ack_request 42)])
          (with_active 2 open_world)) = dnsinfo_client open_world
  /\ (with_trace
        (trace open_world ++ [ev_connection_send_message 7 (ack_request 42)])
        (with_active 2 open_world) = open_world
      \/ (dnsinfo_active
            (with_trace
               (trace open_world
                ++ [ev_connection_send_message 7 (ack_request 42)])
               (with_active 2 open_world)) = dnsinfo_active open_world + 1
          /\ exists conn msg,
               trace
                 (with_trace
                    (trace open_world
                     ++ [ev_connection_send_message 7 (ack_request 42)])
                    (with_active 2 open_world))
               = trace open_world ++ [ev_connection_send_message conn msg])).
Proof.
  apply (ack_only_counts_and_sends (fun _ => 42) (Some 1%positive) "scutil"
           open_world).
  reflexivity.
Defined.

(** X6 at a first call, which looks the name up, with no reply. *)
Lemma copy_sets_proc_name_once_witness :
  (once closed_world = true ->
   proc_name (request_sent sample_client connected_world) = proc_name closed_world
   /\ once (request_sent sample_client connected_world) = true)
  /\ (once closed_world = false ->
      once (request_sent sample_client connected_world) = true ->
      proc_name (request_sent sample_client connected_world)
      = getprogname (sample_env None)).
Proof.
  apply (copy_sets_proc_name_once sample_layout always_expands (sample_env None)
           closed_world (request_sent sample_client connected_world) None).
  reflexivity.
Defined.

(** X7 at a copy answered with [good_data]. *)
Lemma main_from_closed_witness :
  heap after_main = heap closed_world
  /\ ((dnsinfo_active after_main = 0 /\ dnsinfo_client after_main = None)
      \/ (dnsinfo_active after_main = 1 /\ is_Some (dnsinfo_client after_main)
          /\ releases (trace after_main) = releases (trace closed_world))).
Proof.
  apply (main_from_closed sample_layout always_expands
           (sample_env (Some (sample_reply good_data))) closed_world after_main).
  - reflexivity.
  - reflexivity.
  - vm_compute. reflexivity.
Defined.

(** * Properties of scutil.c *)

(** ** scutil.c: strings in memory *)

Lemma byte_eqb_eq a b : scutil.byte_eqb a b = true <-> a = b.
Proof.
  unfold scutil.byte_eqb. split.
  - apply Byte.byte_dec_bl.
  - apply Byte.byte_dec_lb.
Qed.

Lemma byte_eqb_neq a b : scutil.byte_eqb a b = false <-> a <> b.
Proof.
  rewrite <- byte_eqb_eq. destruct (scutil.byte_eqb a b); split; congruence.
Qed.

Lemma byte_eqb_refl a : scutil.byte_eqb a a = true.
Proof. by apply byte_eqb_eq. Qed.

Lemma strlen_cons_inv c l z :
  scutil.strlen (c :: l) = Some z ->
  (c = scutil.NUL /\ z = 0%nat)
  \/ (c <> scutil.NUL /\ exists z', z = S z' /\ scutil.strlen l = Some z').
Proof.
  cbn [scutil.strlen]. destruct (scutil.byte_eqb c scutil.NUL) eqn:Hc.
  - apply byte_eqb_eq in Hc. intros [= <-]. by left.
  - apply byte_eqb_neq in Hc. destruct (scutil.strlen l) as [z'|]; [|done].
    intros [= <-]. right. eauto.
Qed.

Lemma strlen_app pre rest :
  Forall (fun c => c <> scutil.NUL) pre ->
  scutil.strlen (pre ++ scutil.NUL :: rest) = Some (length pre).
Proof.
  induction 1 as [|c pre Hc _ IH]; [done|].
  cbn [app scutil.strlen length]. apply byte_eqb_neq in Hc. by rewrite Hc, IH.
Qed.

Lemma strlen_lt l z : scutil.strlen l = Some z -> (z < length l)%nat.
Proof.
  revert z. induction l as [|c l IH]; intros z H; [done|].
  apply strlen_cons_inv in H as [[_ ->]|(_ & z' & -> & H)]; cbn; [lia|].
  apply IH in H. lia.
Qed.

Lemma strlen_lookup l z : scutil.strlen l = Some z -> l !! z = Some scutil.NUL.
Proof.
  revert z. induction l as [|c l IH]; intros z H; [done|].
  apply strlen_cons_inv in H as [[-> ->]|(_ & z' & -> & H)]; [done|].
  by apply IH.
Qed.

Lemma strlen_before l z i c :
  scutil.strlen l = Some z -> (i < z)%nat -> l !! i = Some c -> c <> scutil.NUL.
Proof.
  revert z i. induction l as [|d l IH]; intros z i H Hi Hc; [done|].
  apply strlen_cons_inv in H as [[_ ->]|(Hd & z' & -> & H)]; [lia|].
  destruct i as [|i]; [by injection Hc as <-|].
  eapply IH; [done| |done]. lia.
Qed.

Lemma strlen_drop l z k :
  scutil.strlen l = Some z -> (k <= z)%nat ->
  scutil.strlen (drop k l) = Some (z - k)%nat.
Proof.
  revert z k. induction l as [|c l IH]; intros z k H Hk; [done|].
  destruct k as [|k]; [by rewrite Nat.sub_0_r|].
  apply strlen_cons_inv in H as [[_ ->]|(_ & z' & -> & H)]; [lia|].
  cbn. apply IH; [done|lia].
Qed.

Lemma isspace_NUL : scutil.isspace scutil.NUL = false.
Proof. reflexivity. Qed.

(** ** scutil.c: [getString] *)

Lemma skip_space_ok l z :
  scutil.strlen l = Some z ->
  exists k c,
    scutil.skip_space l = Some k /\ (k <= z)%nat
    /\ l !! k = Some c /\ scutil.isspace c = false
    /\ Forall (fun c => scutil.isspace c = true) (take k l).
Proof.
  revert z. induction l as [|c l IH]; intros z H; [done|].
  cbn [scutil.skip_space]. destruct (scutil.isspace c) eqn:Hsp.
  - apply strlen_cons_inv in H as [[-> _]|(_ & z' & -> & H)]; [done|].
    destruct (IH _ H) as (k & d & -> & Hk & Hd & Hnsp & Hall).
    exists (S k), d. cbn. repeat split; [lia|done|done|].
    by constructor.
  - exists 0%nat, c. repeat split; [lia|done|]. constructor.
Qed.

(** What [scan] finds: [e] is inside the bytes, at or before the NUL, and
    every escape it counts takes two bytes. *)
Lemma scan_ok isQuoted : forall m l z,
  (length l <= m)%nat ->
  scutil.strlen l = Some z ->
  exists n k,
    scutil.scan isQuoted l = Some (n, k) /\ (n <= z)%nat /\ (2 * k <= n)%nat.
Proof.
  induction m as [|m IH]; intros l z Hm H.
  { destruct l; [done|cbn in Hm; lia]. }
  destruct l as [|c l]; [done|]. cbn [scutil.scan].
  apply strlen_cons_inv in H as [[-> ->]|(Hc & z' & -> & H)].
  { exists 0%nat, 0%nat. repeat split; lia. }
  apply byte_eqb_neq in Hc. rewrite Hc.
  destruct (isQuoted && scutil.byte_eqb c scutil.DQUOTE).
  { exists 0%nat, 0%nat. repeat split; lia. }
  destruct (scutil.byte_eqb c scutil.BACKSLASH).
  - destruct l as [|d l]; [done|].
    apply strlen_cons_inv in H as [[-> ->]|(Hd & z'' & -> & H)].
    { exists 1%nat, 0%nat. repeat split; lia. }
    apply byte_eqb_neq in Hd. rewrite Hd.
    destruct (IH l z'') as (n & k & -> & Hn & Hk); [cbn in Hm; lia|done|].
    cbn. eexists _, _. split; [done|].
    destruct (_ || _); cbn; lia.
  - destruct (negb isQuoted && scutil.isspace c).
    { exists 0%nat, 0%nat. repeat split; lia. }
    destruct (IH l z') as (n & k & -> & Hn & Hk); [cbn in Hm; lia|done|].
    cbn. eexists _, _. split; [done|]. lia.
Qed.

Lemma copy_step c l n size i out :
  scutil.copy (c :: l) (S n) size i out
  = if size <=? Z.of_nat i then None
    else if scutil.byte_eqb c scutil.BACKSLASH then
      match l with
      | [] => None
      | d :: _ =>
          if scutil.byte_eqb d scutil.DQUOTE || scutil.isspace d
          then scutil.copy l n size i out
          else scutil.copy l n size (S i) (out ++ [c])
      end
    else scutil.copy l n size (S i) (out ++ [c]).
Proof. reflexivity. Qed.

(** The copy stays inside the new string: with [n] and [escaped] as [scan]
    found them, no write of the loop is at or above [n - escaped + 1] less
    one. *)
Lemma copy_ok isQuoted : forall m l z n k size i out,
  (length l <= m)%nat ->
  scutil.strlen l = Some z ->
  scutil.scan isQuoted l = Some (n, k) ->
  Z.of_nat i + Z.of_nat n - Z.of_nat k < size ->
  exists i' out',
    scutil.copy l n size i out = Some (i', out')
    /\ Z.of_nat i' <= Z.of_nat i + Z.of_nat n - Z.of_nat k.
Proof.
  induction m as [|m IH]; intros l z n k size i out Hm Hz Hscan Hsize.
  { destruct l; [done|cbn in Hm; lia]. }
  destruct l as [|c l]; [done|].
  pose proof (scan_ok isQuoted _ _ _ Hm Hz) as (n0 & k0 & Hscan0 & _ & Hk0).
  rewrite Hscan in Hscan0. injection Hscan0 as <- <-.
  cbn [scutil.scan] in Hscan.
  destruct (scutil.byte_eqb c scutil.NUL) eqn:Hc.
  { injection Hscan as <- <-. exists i, out. split; [done|lia]. }
  destruct (isQuoted && scutil.byte_eqb c scutil.DQUOTE).
  { injection Hscan as <- <-. exists i, out. split; [done|lia]. }
  apply strlen_cons_inv in Hz as [[-> _]|(_ & z' & -> & Hz)]; [done|].
  destruct (scutil.byte_eqb c scutil.BACKSLASH) eqn:Hbs.
  - destruct l as [|d l]; [done|].
    destruct (scutil.byte_eqb d scutil.NUL) eqn:Hd.
    + injection Hscan as <- <-. cbn [scutil.copy]. rewrite Hbs.
      destruct (Z.leb_spec size (Z.of_nat i)); [lia|].
      apply byte_eqb_eq in Hd as ->. cbn.
      eexists _, _. split; [done|]. lia.
    + apply strlen_cons_inv in Hz as [[-> _]|(_ & z'' & -> & Hz)]; [done|].
      destruct (scutil.scan isQuoted l) as [[n' k']|] eqn:Hscan'; [|done].
      cbn in Hscan. injection Hscan as <- <-.
      pose proof (scan_ok isQuoted m l z'') as (? & ? & Hs2 & _ & Hk');
        [cbn in Hm; lia|done|].
      rewrite Hscan' in Hs2. injection Hs2 as <- <-.
      rewrite copy_step, Hbs. cbv beta iota.
      destruct (Z.leb_spec size (Z.of_nat i)); [lia|].
      (* the byte after the backslash *)
      assert (Hstep : forall i1 out1,
                 Z.of_nat i1 + 1 + Z.of_nat n' - Z.of_nat k' < size ->
                 exists i' out',
                   scutil.copy (d :: l) (S n') size i1 out1 = Some (i', out')
                   /\ Z.of_nat i' <= Z.of_nat i1 + 1 + Z.of_nat n' - Z.of_nat k').
      { intros i1 out1 Hi1. cbn [scutil.copy].
        destruct (Z.leb_spec size (Z.of_nat i1)); [lia|].
        destruct (scutil.byte_eqb d scutil.BACKSLASH).
        - destruct l as [|d' l]; [by cbn in Hscan'|].
          destruct (scutil.byte_eqb d' scutil.DQUOTE || scutil.isspace d').
          + destruct (IH (d' :: l) z'' n' k' size i1 out1)
              as (i' & out' & -> & Hi'); [cbn in *; lia|done|done|lia|].
            eexists _, _. split; [done|]. lia.
          + destruct (IH (d' :: l) z'' n' k' size (S i1) (out1 ++ [d]))
              as (i' & out' & -> & Hi'); [cbn in *; lia|done|done|lia|].
            eexists _, _. split; [done|]. lia.
        - destruct (IH l z'' n' k' size (S i1) (out1 ++ [d]))
            as (i' & out' & -> & Hi'); [cbn in *; lia|done|done|lia|].
          eexists _, _. split; [done|]. lia. }
      destruct (scutil.byte_eqb d scutil.DQUOTE || scutil.isspace d).
      * destruct (Hstep i out) as (i' & out' & -> & Hi'); [lia|].
        eexists _, _. split; [done|]. lia.
      * destruct (Hstep (S i) (out ++ [c])) as (i' & out' & -> & Hi'); [lia|].
        eexists _, _. split; [done|]. lia.
  - destruct (negb isQuoted && scutil.isspace c).
    { injection Hscan as <- <-. exists i, out. split; [done|lia]. }
    destruct (scutil.scan isQuoted l) as [[n' k']|] eqn:Hscan'; [|done].
    cbn in Hscan. injection Hscan as <- <-.
    cbn [scutil.copy]. rewrite Hbs.
    destruct (Z.leb_spec size (Z.of_nat i)); [lia|].
    destruct (IH l z' n' k' size (S i) (out ++ [c]))
      as (i' & out' & -> & Hi'); [cbn in *; lia|done|done|lia|].
    eexists _, _. split; [done|]. lia.
Qed.

Lemma scan_unquoted_moves c l n k :
  scutil.scan false (c :: l) = Some (n, k) ->
  c <> scutil.NUL -> scutil.isspace c = false -> (0 < n)%nat.
Proof.
  intros H Hc Hsp. cbn [scutil.scan andb negb] in H.
  apply byte_eqb_neq in Hc. rewrite Hc, Hsp in H.
  destruct (scutil.byte_eqb c scutil.BACKSLASH).
  - destruct l as [|d l]; [done|].
    destruct (scutil.byte_eqb d scutil.NUL); [injection H as <- <-; lia|].
    destruct (scutil.scan false l) as [[n' k']|]; [|done].
    cbn in H. injection H as <- <-. lia.
  - destruct (scutil.scan false l) as [[n' k']|]; [|done].
    cbn in H. injection H as <- <-. lia.
Qed.

(** X8: Memory safety and progress of [getString]: on bytes that hold a NUL,
    the call makes no access outside them or outside the string it
    allocates; the pointer ends at most one byte past the NUL, and it has
    moved whenever a string is returned. *)
Theorem getString_at_safe l z :
  scutil.strlen l = Some z ->
  exists r d,
    scutil.getString_at l = Some (r, d)
    /\ (d <= S z)%nat
    /\ (is_Some r -> (0 < d)%nat).
Proof.
  intros Hz. unfold scutil.getString_at.
  destruct l as [|c0 l0] eqn:Hl; [done|]. rewrite <- Hl in *. 
  assert (Hhead : head l = Some c0) by by rewrite Hl.
  rewrite Hhead. cbn [mbind option_bind].
  destruct (scutil.byte_eqb c0 scutil.NUL).
  { exists None, 0%nat. split; [done|]. split; [lia|]. by intros [? [=]]. }
  destruct (skip_space_ok _ _ Hz) as (k & c & -> & Hk & Hc & Hsp & _).
  cbn [mbind option_bind]. rewrite Hc. cbn [mbind option_bind].
  destruct (scutil.byte_eqb c scutil.NUL) eqn:Hnul.
  { exists None, k. split; [done|]. split; [lia|]. by intros [? [=]]. }
  apply byte_eqb_neq in Hnul.
  assert (Hlt : (k < z)%nat).
  { destruct (decide (k = z)) as [->|]; [|lia].
    rewrite (strlen_lookup _ _ Hz) in Hc. by injection Hc as <-. }
  set (isQuoted := scutil.byte_eqb c scutil.DQUOTE).
  set (s := if isQuoted then S k else k).
  assert (Hs : (k <= s <= z)%nat) by (subst s; destruct isQuoted; lia).
  pose proof (strlen_drop _ _ s Hz (proj2 Hs)) as Hz'.
  destruct (scan_ok isQuoted _ _ _ (Nat.le_refl _) Hz') as (n & esc & Hscan & Hn & Hesc).
  rewrite Hscan. cbn [mbind option_bind].
  destruct (copy_ok isQuoted _ _ _ n esc (Z.of_nat n - Z.of_nat esc + 1) 0%nat []
              (Nat.le_refl _) Hz' Hscan) as (i & out & -> & Hi); [lia|].
  cbn [mbind option_bind].
  destruct (Z.leb_spec (Z.of_nat n - Z.of_nat esc + 1) (Z.of_nat i)); [lia|].
  eexists _, _. split; [done|]. split.
  - subst s. destruct isQuoted; lia.
  - intros _. subst s. destruct isQuoted eqn:Hq; [lia|].
    assert (0 < n)%nat; [|lia].
    rewrite (drop_S _ _ _ Hc) in Hscan.
    by eapply scan_unquoted_moves.
Qed.

(** ** scutil.c: what [getString] returns *)

Lemma word_char_inv c :
  scutil.word_char c = true ->
  scutil.byte_eqb c scutil.NUL = false /\ scutil.isspace c = false
  /\ scutil.byte_eqb c scutil.BACKSLASH = false.
Proof.
  unfold scutil.word_char.
  destruct (scutil.byte_eqb c scutil.NUL), (scutil.isspace c),
    (scutil.byte_eqb c scutil.BACKSLASH); done.
Qed.

Lemma quoted_char_inv c :
  scutil.quoted_char c = true ->
  scutil.byte_eqb c scutil.NUL = false /\ scutil.byte_eqb c scutil.DQUOTE = false
  /\ scutil.byte_eqb c scutil.BACKSLASH = false.
Proof.
  unfold scutil.quoted_char.
  destruct (scutil.byte_eqb c scutil.NUL), (scutil.byte_eqb c scutil.DQUOTE),
    (scutil.byte_eqb c scutil.BACKSLASH); done.
Qed.

Lemma skip_space_app sp c rest :
  Forall (fun c => scutil.isspace c = true) sp ->
  scutil.isspace c = false ->
  scutil.skip_space (sp ++ c :: rest) = Some (length sp).
Proof.
  intros Hsp Hc. induction Hsp as [|x sp Hx _ IH]; cbn.
  - by rewrite Hc.
  - by rewrite Hx, IH.
Qed.

Lemma scan_word_app w l :
  Forall (fun c => scutil.word_char c = true) w ->
  scutil.scan false (w ++ l)
  = '(n, k) ← scutil.scan false l; Some ((length w + n)%nat, k).
Proof.
  induction 1 as [|c w Hc _ IH].
  - cbn. by destruct (scutil.scan false l) as [[? ?]|].
  - apply word_char_inv in Hc as (Hn & Hs & Hb).
    cbn [app scutil.scan length]. rewrite Hn, Hb, Hs, IH. cbn.
    by destruct (scutil.scan false l) as [[? ?]|].
Qed.

Lemma scan_quoted_app w l :
  Forall (fun c => scutil.quoted_char c = true) w ->
  scutil.scan true (w ++ l)
  = '(n, k) ← scutil.scan true l; Some ((length w + n)%nat, k).
Proof.
  induction 1 as [|c w Hc _ IH].
  - cbn. by destruct (scutil.scan true l) as [[? ?]|].
  - apply quoted_char_inv in Hc as (Hn & Hq & Hb).
    cbn [app scutil.scan length]. rewrite Hn, Hb, Hq, IH. cbn.
    by destruct (scutil.scan true l) as [[? ?]|].
Qed.

Lemma copy_app w l n size i out :
  Forall (fun c => scutil.byte_eqb c scutil.BACKSLASH = false) w ->
  Z.of_nat i + Z.of_nat (length w) <= size ->
  scutil.copy (w ++ l) (length w + n) size i out
  = scutil.copy l n size (i + length w) (out ++ w).
Proof.
  intros Hw. revert i out. induction Hw as [|c w Hc _ IH]; intros i out Hsize.
  - cbn. by rewrite Nat.add_0_r, app_nil_r.
  - cbn [app length Nat.add]. rewrite copy_step, Hc.
    destruct (Z.leb_spec size (Z.of_nat i)); [cbn [length] in Hsize; lia|].
    rewrite IH by (cbn [length] in Hsize; lia).
    rewrite <- app_assoc. cbn [app]. f_equal. lia.
Qed.

Lemma word_not_backslash w :
  Forall (fun c => scutil.word_char c = true) w ->
  Forall (fun c => scutil.byte_eqb c scutil.BACKSLASH = false) w.
Proof.
  intros H. eapply Forall_impl; [exact H|].
  intros c Hc. by apply word_char_inv in Hc as (_ & _ & ?).
Qed.

Lemma quoted_not_backslash w :
  Forall (fun c => scutil.quoted_char c = true) w ->
  Forall (fun c => scutil.byte_eqb c scutil.BACKSLASH = false) w.
Proof.
  intros H. eapply Forall_impl; [exact H|].
  intros c Hc. by apply quoted_char_inv in Hc as (_ & _ & ?).
Qed.

Lemma scan_stops isQuoted d rest :
  d = scutil.NUL \/ (isQuoted = false /\ scutil.isspace d = true)
  \/ (isQuoted = true /\ d = scutil.DQUOTE) ->
  scutil.scan isQuoted (d :: rest) = Some (0%nat, 0%nat).
Proof.
  intros [->|[[-> Hd]|[-> ->]]]; [done| |done].
  cbn. destruct (scutil.byte_eqb d scutil.NUL); [done|].
  destruct (scutil.byte_eqb d scutil.BACKSLASH) eqn:Hb.
  - apply byte_eqb_eq in Hb as ->. done.
  - by rewrite Hd.
Qed.

(** The first part of [getString_at] on white space [sp] followed by a byte
    [c] that is neither white space nor NUL. *)
Lemma getString_at_start sp c rest :
  Forall (fun c => scutil.isspace c = true) sp ->
  scutil.isspace c = false ->
  scutil.byte_eqb c scutil.NUL = false ->
  scutil.getString_at (sp ++ c :: rest)
  = let isQuoted := scutil.byte_eqb c scutil.DQUOTE in
    let l := if isQuoted then rest else c :: rest in
    let q := if isQuoted then 1%nat else 0%nat in
    '(n, escaped) ← scutil.scan isQuoted l;
    let size := Z.of_nat n - Z.of_nat escaped + 1 in
    '(i, string) ← scutil.copy l n size 0 [];
    if size <=? Z.of_nat i then None
    else Some (Some string, (length sp + q + n + q)%nat).
Proof.
  intros Hsp Hc Hn. unfold scutil.getString_at.
  assert (Hhead : exists c0, head (sp ++ c :: rest) = Some c0
                             /\ scutil.byte_eqb c0 scutil.NUL = false).
  { destruct Hsp as [|x sp Hx _]; [by exists c|]. exists x. split; [done|].
    apply byte_eqb_neq. intros ->. done. }
  destruct Hhead as (c0 & -> & Hc0). cbn [mbind option_bind]. rewrite Hc0.
  rewrite skip_space_app by done. cbn [mbind option_bind].
  rewrite list_lookup_middle by done. cbn [mbind option_bind]. rewrite Hn.
  assert (Hdrop : drop (S (length sp)) (sp ++ c :: rest) = rest).
  { rewrite cons_middle, app_assoc. apply drop_app_length'.
    rewrite length_app. cbn. lia. }
  cbv zeta. destruct (scutil.byte_eqb c scutil.DQUOTE).
  - rewrite Hdrop.
    destruct (scutil.scan true rest) as [[n k]|]; [|done].
    cbn [mbind option_bind].
    destruct (scutil.copy rest n (Z.of_nat n - Z.of_nat k + 1) 0 [])
      as [[i out]|]; [|done].
    cbn [mbind option_bind].
    destruct (Z.of_nat n - Z.of_nat k + 1 <=? Z.of_nat i); [done|].
    f_equal. f_equal. cbn. lia.
  - rewrite drop_app_length.
    destruct (scutil.scan false (c :: rest)) as [[n k]|]; [|done].
    cbn [mbind option_bind].
    destruct (scutil.copy (c :: rest) n (Z.of_nat n - Z.of_nat k + 1) 0 [])
      as [[i out]|]; [|done].
    cbn [mbind option_bind].
    destruct (Z.of_nat n - Z.of_nat k + 1 <=? Z.of_nat i); [done|].
    f_equal. f_equal. cbn. lia.
Qed.


Lemma getString_at_word sp w d rest :
  Forall (fun c => scutil.isspace c = true) sp ->
  Forall (fun c => scutil.word_char c = true) w ->
  w <> [] ->
  head w <> Some scutil.DQUOTE ->
  d = scutil.NUL \/ scutil.isspace d = true ->
  scutil.getString_at (sp ++ w ++ d :: rest)
  = Some (Some w, (length sp + length w)%nat).
Proof.
  intros Hsp Hw Hne Hq Hd. destruct w as [|c w]; [done|].
  pose proof Hw as Hw'. apply Forall_cons in Hw' as [Hc _].
  apply word_char_inv in Hc as (Hn & Hs & Hb).
  cbn [app]. rewrite getString_at_start by done.
  assert (Hnq : scutil.byte_eqb c scutil.DQUOTE = false).
  { apply byte_eqb_neq. intros ->. by apply Hq. }
  cbv zeta. rewrite Hnq.
  change (c :: w ++ d :: rest) with ((c :: w) ++ d :: rest).
  rewrite scan_word_app by done.
  rewrite scan_stops by (destruct Hd; auto).
  cbn [mbind option_bind].
  rewrite copy_app; [|by apply word_not_backslash|]; cycle 1.
  { lia. }
  cbn [scutil.copy mbind option_bind app].
  match goal with |- context [if ?a <=? ?b then _ else _] =>
    destruct (Z.leb_spec a b); [lia|] end.
  f_equal. f_equal. lia.
Qed.

Lemma getString_quoted_body sp body t rest :
  Forall (fun c => scutil.isspace c = true) sp ->
  Forall (fun c => scutil.quoted_char c = true) body ->
  t = scutil.NUL \/ t = scutil.DQUOTE ->
  scutil.getString_at (sp ++ scutil.DQUOTE :: body ++ t :: rest)
  = Some (Some body, (length sp + length body + 2)%nat).
Proof.
  intros Hsp Hbody Ht.
  rewrite getString_at_start by done. cbv zeta.
  change (scutil.byte_eqb scutil.DQUOTE scutil.DQUOTE) with true. cbv iota.
  rewrite scan_quoted_app by done.
  rewrite scan_stops by (destruct Ht; auto).
  cbn [mbind option_bind].
  rewrite copy_app; [|by apply quoted_not_backslash|lia].
  cbn [scutil.copy mbind option_bind app].
  match goal with |- context [if ?a <=? ?b then _ else _] =>
    destruct (Z.leb_spec a b); [lia|] end.
  f_equal. f_equal. lia.
Qed.

(** X10: A quoted string: the bytes between the quotes are returned, white space
    included, and the pointer is left after the closing quote. *)
Theorem getString_quoted sp body rest :
  Forall (fun c => scutil.isspace c = true) sp ->
  Forall (fun c => scutil.quoted_char c = true) body ->
  scutil.getString_at (sp ++ scutil.DQUOTE :: body ++ scutil.DQUOTE :: rest)
  = Some (Some body, (length sp + length body + 2)%nat).
Proof. intros. apply getString_quoted_body; auto. Qed.

(** X11: A quoted string that is not closed: the bytes up to the NUL are
    returned and the pointer is left one byte after the NUL, so that the
    next call reads what follows the string -- outside the array when the
    NUL is its last byte. *)
Theorem getString_unclosed_quote_passes_NUL sp body rest :
  Forall (fun c => scutil.isspace c = true) sp ->
  Forall (fun c => scutil.quoted_char c = true) body ->
  let mem := sp ++ scutil.DQUOTE :: body ++ scutil.NUL :: rest in
  exists z,
    scutil.strlen mem = Some z
    /\ scutil.getString mem (Some 0%nat) = Some (Some body, Some (S z))
    /\ (rest = [] -> scutil.getString mem (Some (S z)) = None).
Proof.
  intros Hsp Hbody mem.
  assert (Hz : scutil.strlen mem = Some (length sp + S (length body))%nat).
  { subst mem.
    replace (sp ++ scutil.DQUOTE :: body ++ scutil.NUL :: rest)
      with ((sp ++ scutil.DQUOTE :: body) ++ scutil.NUL :: rest)
      by (by rewrite <- app_assoc).
    rewrite strlen_app; [by rewrite length_app|].
    apply Forall_app. split.
    - eapply Forall_impl; [exact Hsp|]. by intros c Hc ->.
    - constructor; [done|]. eapply Forall_impl; [exact Hbody|].
      intros c Hc ->. done. }
  eexists. split; [exact Hz|]. split.
  - unfold scutil.getString. rewrite drop_0. subst mem.
    rewrite getString_quoted_body by auto. cbn. do 3 f_equal. lia.
  - intros ->. unfold scutil.getString.
    rewrite drop_ge; [done|].
    subst mem. rewrite !length_app. cbn. rewrite length_app. cbn. lia.
Qed.

(** X12: NULL is returned exactly when only white space is left before the
    NUL. *)
Theorem getString_NULL_iff_blank l z :
  scutil.strlen l = Some z ->
  (exists d, scutil.getString_at l = Some (None, d))
  <-> Forall (fun c => scutil.isspace c = true) (take z l).
Proof.
  intros Hz. split.
  - intros [d Hd].
    destruct (skip_space_ok _ _ Hz) as (k & c & Hk & Hkz & Hc & Hsp & Hall).
    unfold scutil.getString_at in Hd.
    destruct l as [|c0 l0] eqn:Hl; [done|]. rewrite <- Hl in *.
    assert (Hhead : head l = Some c0) by by rewrite Hl.
    rewrite Hhead in Hd. cbn [mbind option_bind] in Hd.
    destruct (scutil.byte_eqb c0 scutil.NUL) eqn:Hc0.
    { apply byte_eqb_eq in Hc0 as ->.
      assert (z = 0%nat) as ->; [|constructor].
      rewrite Hl in Hz. by injection Hz as <-. }
    rewrite Hk in Hd. cbn [mbind option_bind] in Hd. rewrite Hc in Hd.
    cbn [mbind option_bind] in Hd.
    destruct (scutil.byte_eqb c scutil.NUL) eqn:Hnul.
    + apply byte_eqb_eq in Hnul as ->.
      assert (k = z) as <-; [|done].
      destruct (decide (k = z)); [done|].
      exfalso. by apply (strlen_before l z k scutil.NUL Hz ltac:(lia) Hc).
    + destruct (scutil.scan _ _) as [[n e]|]; [|done].
      cbn [mbind option_bind] in Hd.
      destruct (scutil.copy _ _ _ _ _) as [[i out]|]; [|done].
      cbn [mbind option_bind] in Hd.
      by destruct (_ <=? _).
  - intros Hall.
    pose proof (strlen_lookup _ _ Hz) as Hnul.
    rewrite <- (take_drop_middle _ _ _ Hnul).
    destruct (take z l) as [|c sp] eqn:Htake.
    + exists 0%nat. done.
    + exists (length (c :: sp)).
      unfold scutil.getString_at.
      apply Forall_cons in Hall as Hall'. destruct Hall' as [Hc _].
      cbn [app head mbind option_bind].
      assert (scutil.byte_eqb c scutil.NUL = false) as ->.
      { apply byte_eqb_neq. by intros ->. }
      change (c :: sp ++ scutil.NUL :: drop (S z) l)
        with ((c :: sp) ++ scutil.NUL :: drop (S z) l).
      rewrite skip_space_app by done. cbn [mbind option_bind].
      rewrite list_lookup_middle by done. done.
Qed.

(** X13: An escaped quote or white space inside a word: the backslash is
    dropped, the byte after it is kept and does not end the word. *)
Theorem getString_escape sp w1 x w2 d rest :
  Forall (fun c => scutil.isspace c = true) sp ->
  Forall (fun c => scutil.word_char c = true) w1 ->
  Forall (fun c => scutil.word_char c = true) w2 ->
  head w1 <> Some scutil.DQUOTE ->
  x = scutil.DQUOTE \/ scutil.isspace x = true ->
  d = scutil.NUL \/ scutil.isspace d = true ->
  scutil.getString_at (sp ++ w1 ++ scutil.BACKSLASH :: x :: w2 ++ d :: rest)
  = Some (Some (w1 ++ x :: w2),
          (length sp + (length w1 + 2 + length w2))%nat).
Proof.
  intros Hsp Hw1 Hw2 Hq Hx Hd.
  assert (Hxn : scutil.byte_eqb x scutil.NUL = false).
  { apply byte_eqb_neq. intros ->. by destruct Hx. }
  assert (Hxb : scutil.byte_eqb x scutil.BACKSLASH = false).
  { apply byte_eqb_neq. intros ->. by destruct Hx. }
  assert (Hxe : scutil.byte_eqb x scutil.DQUOTE || scutil.isspace x = true).
  { destruct Hx as [->| ->]; [done|apply orb_true_r]. }
  set (tail := scutil.BACKSLASH :: x :: w2 ++ d :: rest).
  assert (Hscan : scutil.scan false (w1 ++ tail)
                  = Some ((length w1 + 2 + length w2)%nat, 1%nat)).
  { rewrite scan_word_app by done. subst tail. cbn [scutil.scan].
    change (scutil.byte_eqb scutil.BACKSLASH scutil.NUL) with false.
    change (scutil.byte_eqb scutil.BACKSLASH scutil.BACKSLASH) with true.
    cbn [andb negb]. rewrite Hxn, Hxe.
    rewrite scan_word_app by done.
    rewrite scan_stops by (destruct Hd; auto). cbn. do 2 f_equal. lia. }
  assert (Hcopy : forall size,
             Z.of_nat (length w1 + 1 + length w2) < size ->
             scutil.copy (w1 ++ tail) (length w1 + 2 + length w2) size 0 []
             = Some ((length w1 + 1 + length w2)%nat, w1 ++ x :: w2)).
  { intros size Hsize.
    rewrite <- Nat.add_assoc.
    rewrite copy_app; [|by apply word_not_backslash|lia].
    subst tail. cbn [Nat.add]. rewrite copy_step.
    change (scutil.byte_eqb scutil.BACKSLASH scutil.BACKSLASH) with true.
    rewrite Hxe. cbv iota.
    rewrite copy_step, Hxb.
    rewrite <- (Nat.add_0_r (length w2)) at 1.
    rewrite copy_app; [|by apply word_not_backslash|lia].
    cbn [scutil.copy app Nat.add]. rewrite <- !app_assoc. cbn [app].
    destruct (Z.leb_spec size (Z.of_nat (length w1))); [lia|].
    do 2 f_equal. lia. }
  destruct w1 as [|c w1].
  - cbn [app] in *. subst tail.
    rewrite getString_at_start by done.
    change (scutil.byte_eqb scutil.BACKSLASH scutil.DQUOTE) with false.
    cbv zeta iota. rewrite Hscan. cbn [mbind option_bind].
    rewrite Hcopy by (cbn; lia). cbn [mbind option_bind].
    match goal with |- context [if ?a <=? ?b then _ else _] =>
      destruct (Z.leb_spec a b); [cbn in *; lia|] end.
    f_equal. f_equal. cbn. lia.
  - pose proof Hw1 as Hw1'. apply Forall_cons in Hw1' as [Hc _].
    apply word_char_inv in Hc as (Hn & Hs & Hb).
    assert (Hnq : scutil.byte_eqb c scutil.DQUOTE = false).
    { apply byte_eqb_neq. intros ->. by apply Hq. }
    cbn [app] in *.
    rewrite getString_at_start by done.
    cbv zeta. rewrite Hnq. cbv iota.
    rewrite Hscan. cbn [mbind option_bind].
    rewrite Hcopy by (cbn [length]; lia). cbn [mbind option_bind].
    match goal with |- context [if ?a <=? ?b then _ else _] =>
      destruct (Z.leb_spec a b); [cbn [length] in *; lia|] end.
    f_equal. f_equal. cbn [length]. lia.
Qed.

(** ** scutil.c: the loop over [getString] *)

Lemma skip_space_inv l k :
  scutil.skip_space l = Some k ->
  exists c, l !! k = Some c /\ scutil.isspace c = false.
Proof.
  revert k. induction l as [|c l IH]; intros k; [done|].
  cbn [scutil.skip_space]. destruct (scutil.isspace c) eqn:Hc.
  - destruct (scutil.skip_space l) as [k'|]; [|done].
    intros [= <-]. by apply IH.
  - intros [= <-]. by exists c.
Qed.

Lemma getString_at_moves l string d :
  scutil.getString_at l = Some (Some string, d) -> (0 < d)%nat.
Proof.
  unfold scutil.getString_at.
  destruct (head l) as [c0|]; [|done]. cbn [mbind option_bind].
  destruct (scutil.byte_eqb c0 scutil.NUL); [done|].
  destruct (scutil.skip_space l) as [k|] eqn:Hk; [|done].
  cbn [mbind option_bind].
  apply skip_space_inv in Hk as (c & Hc & Hsp). rewrite Hc.
  cbn [mbind option_bind].
  destruct (scutil.byte_eqb c scutil.NUL) eqn:Hn; [done|].
  apply byte_eqb_neq in Hn.
  destruct (scutil.byte_eqb c scutil.DQUOTE) eqn:Hq.
  - destruct (scutil.scan _ _) as [[n e]|]; [|done]. cbn [mbind option_bind].
    destruct (scutil.copy _ _ _ _ _) as [[i out]|]; [|done].
    cbn [mbind option_bind]. destruct (_ <=? _); [done|].
    intros [= _ <-]. lia.
  - rewrite (drop_S _ _ _ Hc).
    destruct (scutil.scan _ _) as [[n e]|] eqn:Hscan; [|done].
    cbn [mbind option_bind].
    destruct (scutil.copy _ _ _ _ _) as [[i out]|]; [|done].
    cbn [mbind option_bind]. destruct (_ <=? _); [done|].
    intros [= _ <-]. apply scan_unquoted_moves in Hscan; [lia|done..].
Qed.

(** The loop of lines 205-211 ends: with as much fuel as the array has
    bytes, and one more, it never runs out of fuel. *)
Lemma getStrings_enough_fuel fuel mem pos :
  (length mem - pos < fuel)%nat ->
  scutil.getStrings fuel mem (Some pos) <> scutil.OutOfFuel.
Proof.
  revert pos. induction fuel as [|fuel IH]; intros pos Hfuel; [lia|].
  cbn [scutil.getStrings]. unfold scutil.getString.
  destruct (scutil.getString_at (drop pos mem)) as [[[string|] d]|] eqn:Hget;
    cbn [mbind option_bind]; [|done..].
  pose proof (getString_at_moves _ _ _ Hget) as Hd.
  assert (Hpos : (pos < length mem)%nat).
  { destruct (decide (pos < length mem)%nat); [done|].
    rewrite drop_ge in Hget by lia. done. }
  specialize (IH (pos + d)%nat ltac:(lia)).
  by destruct (scutil.getStrings fuel mem (Some (pos + d)%nat)).
Qed.

Lemma getString_blank sp rest :
  scutil.is_space sp ->
  scutil.getString_at (sp ++ scutil.NUL :: rest) = Some (None, length sp).
Proof.
  intros Hsp. unfold scutil.getString_at.
  destruct sp as [|c sp]; [done|].
  apply Forall_cons in Hsp as Hsp'. destruct Hsp' as [Hc _].
  cbn [app head mbind option_bind].
  assert (scutil.byte_eqb c scutil.NUL = false) as ->.
  { apply byte_eqb_neq. by intros ->. }
  change (c :: sp ++ scutil.NUL :: rest) with ((c :: sp) ++ scutil.NUL :: rest).
  rewrite skip_space_app by done. cbn [mbind option_bind].
  by rewrite list_lookup_middle.
Qed.

Lemma getStrings_spaced more : forall sp w trailing rest mem pos fuel,
  scutil.is_space sp -> scutil.is_word w ->
  Forall (fun item => scutil.is_space (fst item) /\ fst item <> []
                      /\ scutil.is_word (snd item)) more ->
  scutil.is_space trailing ->
  drop pos mem = sp ++ w ++ scutil.spaced more ++ trailing ++ scutil.NUL :: rest ->
  (S (length more) < fuel)%nat ->
  scutil.getStrings fuel mem (Some pos) = scutil.Ok (w :: map snd more).
Proof.
  induction more as [|[sp' w'] more IH];
    intros sp w trailing rest mem pos fuel Hsp (Hne & Hq & Hw) Hmore Htr Hdrop Hfuel.
  - destruct fuel as [|[|fuel]]; [cbn in Hfuel; lia..|].
    cbn [scutil.spaced flat_map app] in Hdrop.
    cbn [scutil.getStrings]. unfold scutil.getString at 1. rewrite Hdrop.
    assert (Hnext : exists d tl, trailing ++ scutil.NUL :: rest = d :: tl
                      /\ (d = scutil.NUL \/ scutil.isspace d = true)).
    { destruct Htr as [|d tr Hd _]; eauto. }
    destruct Hnext as (d & tl & Heq & Hd). rewrite Heq.
    rewrite getString_at_word by done. cbn [mbind option_bind].
    unfold scutil.getString.
    assert (Hdrop' : drop (pos + (length sp + length w)) mem
                     = trailing ++ scutil.NUL :: rest).
    { rewrite <- drop_drop, Hdrop, Heq, app_assoc.
      rewrite drop_app_length'; [done|]. by rewrite length_app. }
    rewrite Hdrop', getString_blank by done. done.
  - destruct fuel as [|fuel]; [lia|].
    apply Forall_cons in Hmore as [(Hsp' & Hne' & Hw') Hmore].
    cbn [scutil.spaced flat_map fst snd] in Hdrop.
    fold (scutil.spaced more) in Hdrop.
    cbn [scutil.getStrings]. unfold scutil.getString at 1. rewrite Hdrop.
    destruct sp' as [|d sp']; [done|].
    rewrite <- !app_assoc. cbn [app].
    rewrite getString_at_word; [|done..|right; by apply Forall_cons in Hsp' as [? _]].
    cbn [mbind option_bind].
    rewrite (IH (d :: sp') w' trailing rest); [done..| |cbn [length] in Hfuel; lia].
    rewrite <- drop_drop, Hdrop.
    rewrite <- !app_assoc, (app_assoc sp w).
    rewrite drop_app_length'; [done|by rewrite length_app].
Qed.

Lemma getStrings_collects sp w more trailing rest :
  scutil.is_space sp -> scutil.is_word w ->
  Forall (fun item => scutil.is_space (fst item) /\ fst item <> []
                      /\ scutil.is_word (snd item)) more ->
  scutil.is_space trailing ->
  let mem := sp ++ w ++ scutil.spaced more ++ trailing ++ scutil.NUL :: rest in
  scutil.getStrings (S (length mem)) mem (Some 0%nat)
  = scutil.Ok (w :: map snd more).
Proof.
  intros Hsp Hw Hmore Htr mem.
  apply (getStrings_spaced more sp w trailing rest mem 0 (S (length mem)));
    [done..|].
  subst mem. rewrite !length_app. cbn [length].
  assert (length more <= length (scutil.spaced more))%nat; [|lia].
  clear -Hmore. induction Hmore as [|[sp' w'] more (_ & Hne & _) _ IH]; [done|].
  cbn [scutil.spaced flat_map fst snd length]. rewrite !length_app.
  fold (scutil.spaced more). destruct sp'; [done|]. cbn [length]. lia.
Qed.

(** ** scutil.c: [getLine] *)

Lemma fgets_read_long n line ending :
  Forall (fun c => c <> scutil.NEWLINE) line ->
  (n <= length line)%nat ->
  scutil.fgets_read n (line ++ ending) = (take n line, drop n line ++ ending).
Proof.
  intros Hline. revert n. induction Hline as [|c line Hc _ IH]; intros n Hn.
  - cbn in Hn. assert (n = 0%nat) as -> by lia. by destruct ending.
  - destruct n as [|n]; [done|]. cbn [app scutil.fgets_read take drop].
    apply byte_eqb_neq in Hc. rewrite Hc, IH by (cbn in Hn; lia). done.
Qed.

Lemma fgets_read_newline n line rest :
  Forall (fun c => c <> scutil.NEWLINE) line ->
  (length line < n)%nat ->
  scutil.fgets_read n (line ++ scutil.NEWLINE :: rest)
  = (line ++ [scutil.NEWLINE], rest).
Proof.
  intros Hline. revert n. induction Hline as [|c line Hc _ IH]; intros n Hn.
  - destruct n as [|n]; [cbn in Hn; lia|]. done.
  - destruct n as [|n]; [cbn in Hn; lia|]. cbn [app scutil.fgets_read].
    apply byte_eqb_neq in Hc. rewrite Hc, IH by (cbn in Hn; lia). done.
Qed.

Lemma fgets_read_eof n line :
  Forall (fun c => c <> scutil.NEWLINE) line ->
  (length line < n)%nat ->
  scutil.fgets_read n line = (line, []).
Proof.
  intros Hline. revert n. induction Hline as [|c line Hc _ IH]; intros n Hn.
  - by destruct n.
  - destruct n as [|n]; [cbn in Hn; lia|]. cbn [scutil.fgets_read].
    apply byte_eqb_neq in Hc. rewrite Hc, IH by (cbn in Hn; lia). done.
Qed.

Lemma eat_line_newline line rest :
  Forall (fun c => c <> scutil.NEWLINE) line ->
  scutil.eat_line (line ++ scutil.NEWLINE :: rest) = rest.
Proof.
  induction 1 as [|c line Hc _ IH]; [done|].
  cbn [app scutil.eat_line]. apply byte_eqb_neq in Hc. by rewrite Hc.
Qed.

Lemma eat_line_eof line :
  Forall (fun c => c <> scutil.NEWLINE) line -> scutil.eat_line line = [].
Proof.
  induction 1 as [|c line Hc _ IH]; [done|].
  cbn [scutil.eat_line]. apply byte_eqb_neq in Hc. by rewrite Hc.
Qed.

Lemma c_string_app text tail :
  Forall (fun c => c <> scutil.NUL) text ->
  scutil.c_string (text ++ scutil.NUL :: tail) = Some text.
Proof.
  intros Htext. unfold scutil.c_string. rewrite strlen_app by done.
  cbn. by rewrite take_app_length.
Qed.

(** The tail of [getLine], from the array just filled to the result, when
    the array holds [text], then [last], then a NUL. *)
Lemma getLine_finish (src : scutil.Input) (st : scutil.io) text last tail :
  Forall (fun c => c <> scutil.NUL) text ->
  last <> scutil.NUL ->
  let buf := text ++ last :: scutil.NUL :: tail in
  match scutil.strlen buf with
  | Some (S m) => buf !! m = Some last /\ m = length text
  | _ => False
  end.
Proof.
  intros Htext Hlast buf. subst buf.
  replace (text ++ last :: scutil.NUL :: tail)
    with ((text ++ [last]) ++ scutil.NUL :: tail) by (by rewrite <- app_assoc).
  rewrite strlen_app.
  - rewrite length_app. cbn [length]. rewrite Nat.add_1_r. split; [|done].
    rewrite <- app_assoc. cbn [app]. by rewrite list_lookup_middle.
  - apply Forall_app. split; [done|]. by constructor.
Qed.

Lemma getLine_file_unbroken buf len src st cs rest :
  scutil.el src = false ->
  (len <= length buf)%nat ->
  scutil.fgets_read (len - 1) (scutil.fp st) = (cs, rest) ->
  cs <> [] ->
  Forall (fun c => c <> scutil.NUL) cs ->
  Forall (fun c => c <> scutil.NEWLINE) cs ->
  scutil.getLine buf len src st
  = scutil.Ok
      (Some (cs ++ scutil.NUL :: drop (S (length cs)) buf),
       scutil.MkIo (scutil.eat_line rest) (scutil.tty st)
         (if scutil.h src then scutil.hist st ++ [cs] else scutil.hist st)
         (scutil.nesting st) (scutil.printed st)).
Proof.
  intros Hel Hlen Hread Hne Hnul Hnl. unfold scutil.getLine.
  destruct (Nat.ltb_spec (length buf) len); [lia|].
  rewrite Hel, Hread.
  destruct cs as [|c0 cs0] eqn:Hcs; [done|]. rewrite <- Hcs in *.
  assert (Hlast : exists pre last, cs = pre ++ [last]).
  { destruct (exists_last (l := cs)) as (pre & last & ->); [by rewrite Hcs|]. eauto. }
  destruct Hlast as (pre & last & Hpl).
  cbn [app].
  rewrite Hpl in Hnul, Hnl. apply Forall_app in Hnul as [Hnul Hlnul].
  apply Forall_app in Hnl as [_ Hlnl].
  apply Forall_cons in Hlnul as [Hlnul _]. apply Forall_cons in Hlnl as [Hlnl _].
  pose proof (getLine_finish src st pre last (drop (S (length cs)) buf) Hnul Hlnul)
    as Hfin. cbv zeta in Hfin.
  set (buf1 := cs ++ scutil.NUL :: drop (S (length cs)) buf).
  assert (Hbuf1 : buf1 = pre ++ last :: scutil.NUL :: drop (S (length cs)) buf).
  { subst buf1. by rewrite Hpl, <- app_assoc. }
  rewrite <- Hbuf1 in Hfin.
  destruct (scutil.strlen buf1) as [[|m]|]; [done| |done].
  destruct Hfin as [Hm _]. rewrite Hm.
  apply byte_eqb_neq in Hlnl. rewrite Hlnl. cbn [negb].
  subst buf1. rewrite c_string_app.
  - cbn. by destruct (scutil.h src).
  - rewrite Hpl. apply Forall_app. split; [done|]. by constructor.
Qed.

Lemma getLine_file_line buf len src st line ending :
  scutil.el src = false ->
  (len <= length buf)%nat ->
  (2 <= len)%nat ->
  scutil.fp st = line ++ ending ->
  Forall (fun c => c <> scutil.NEWLINE) line ->
  Forall (fun c => c <> scutil.NUL) line ->
  (ending = [] /\ line <> []) \/ (exists rest, ending = scutil.NEWLINE :: rest) ->
  let text := take (len - 1) line in
  exists junk,
    scutil.getLine buf len src st
    = scutil.Ok
        (Some (text ++ scutil.NUL :: junk),
         scutil.MkIo (tail ending) (scutil.tty st)
           (if scutil.h src then scutil.hist st ++ [text] else scutil.hist st)
           (scutil.nesting st) (scutil.printed st)).
Proof.
  intros Hel Hlen H2 Hfp Hnl Hnul Hending text.
  destruct (decide (len - 1 <= length line)%nat) as [Hlong|Hshort].
  - (* the array fills before the line ends *)
    assert (Heat : scutil.eat_line (drop (len - 1) line ++ ending) = tail ending).
    { destruct Hending as [[-> _]|[rest ->]].
      - rewrite app_nil_r. apply eat_line_eof. by apply Forall_drop.
      - apply eat_line_newline. by apply Forall_drop. }
    assert (Hread : scutil.fgets_read (len - 1) (scutil.fp st)
                    = (text, drop (len - 1) line ++ ending)).
    { rewrite Hfp. by apply fgets_read_long. }
    assert (Hne : text <> []).
    { subst text. destruct line; [cbn in Hlong; lia|].
      destruct (len - 1)%nat eqn:E; [lia|]. done. }
    rewrite (getLine_file_unbroken _ _ _ _ _ _ Hel Hlen Hread Hne
               (Forall_take _ _ _ Hnul) (Forall_take _ _ _ Hnl)).
    rewrite Heat. by eexists.
  - assert (Htext : text = line) by (subst text; apply take_ge; lia).
    rewrite Htext.
    destruct Hending as [[-> Hne]|[rest ->]].
    + (* the last line of the file, without a newline *)
      assert (Hread : scutil.fgets_read (len - 1) (scutil.fp st) = (line, [])).
      { rewrite Hfp, app_nil_r. apply fgets_read_eof; [done|lia]. }
      rewrite (getLine_file_unbroken _ _ _ _ _ _ Hel Hlen Hread Hne Hnul Hnl).
      by eexists.
    + (* the whole line with its newline *)
      exists (scutil.NUL :: drop (S (S (length line))) buf).
      unfold scutil.getLine.
      destruct (Nat.ltb_spec (length buf) len); [lia|].
      rewrite Hel, Hfp, fgets_read_newline by (done || lia).
      assert (Hcs : forall (A : Type) (x y : A),
                 match line ++ [scutil.NEWLINE], line ++ scutil.NEWLINE :: rest with
                 | [], [] => x | _, _ => y end = y).
      { intros. by destruct line. }
      rewrite Hcs.
      set (buf1 := (line ++ [scutil.NEWLINE]) ++ [scutil.NUL]
                   ++ drop (S (length (line ++ [scutil.NEWLINE]))) buf).
      assert (Hbuf1 : buf1 = line ++ scutil.NEWLINE :: scutil.NUL
                             :: drop (S (S (length line))) buf).
      { subst buf1. rewrite length_app, <- app_assoc. cbn [app length].
        by rewrite Nat.add_1_r. }
      pose proof (getLine_finish src st line scutil.NEWLINE
                    (drop (S (S (length line))) buf) Hnul ltac:(done)) as Hfin.
      cbv zeta in Hfin. rewrite <- Hbuf1 in Hfin.
      destruct (scutil.strlen buf1) as [[|m]|]; [done| |done].
      destruct Hfin as [Hm ->]. rewrite Hm.
      change (scutil.byte_eqb scutil.NEWLINE scutil.NEWLINE) with true.
      cbv iota.
      assert (Hins : <[length line := scutil.NUL]> buf1
                     = line ++ scutil.NUL :: scutil.NUL
                       :: drop (S (S (length line))) buf).
      { rewrite Hbuf1. rewrite insert_app_r_alt by lia.
        by rewrite Nat.sub_diag. }
      rewrite Hins, c_string_app by done.
      cbn. by destruct (scutil.h src).
Qed.

(** X16: A line of the file that begins with a NUL byte: [strlen] is zero and
    the byte tested for the newline is the one before the array. *)
Theorem getLine_leading_NUL_faults buf len src st more :
  scutil.el src = false ->
  (len <= length buf)%nat ->
  (2 <= len)%nat ->
  scutil.fp st = scutil.NUL :: more ->
  scutil.getLine buf len src st = scutil.Fault.
Proof.
  intros Hel Hlen H2 Hfp. unfold scutil.getLine.
  destruct (Nat.ltb_spec (length buf) len); [lia|].
  rewrite Hel, Hfp.
  destruct (len - 1)%nat as [|n] eqn:Hn; [lia|].
  cbn [scutil.fgets_read].
  change (scutil.byte_eqb scutil.NUL scutil.NEWLINE) with false. cbv iota.
  destruct (scutil.fgets_read n more) as [cs rest]. done.
Qed.

Lemma strlen_none l :
  Forall (fun c => c <> scutil.NUL) l -> scutil.strlen l = None.
Proof.
  induction 1 as [|c l Hc _ IH]; [done|].
  cbn [scutil.strlen]. apply byte_eqb_neq in Hc. by rewrite Hc, IH.
Qed.

(** X18: A line from the editor that is as long as the array or longer:
    [strncpy] leaves no NUL in the array and [strlen] runs off its end. *)
Theorem getLine_editor_long_line_faults buf len src st line lines :
  scutil.el src = true ->
  length buf = len ->
  scutil.tty st = line :: lines ->
  (len <= length line)%nat ->
  Forall (fun c => c <> scutil.NUL) line ->
  scutil.getLine buf len src st = scutil.Fault.
Proof.
  intros Hel Hlen Htty Hlong Hnul. unfold scutil.getLine.
  destruct (Nat.ltb_spec (length buf) len); [lia|].
  rewrite Hel, Htty. unfold scutil.strncpy.
  rewrite take_app_le by lia. rewrite drop_ge by lia. rewrite app_nil_r.
  rewrite strlen_none; [done|]. by apply Forall_take.
Qed.

(** X17: [getLine] on the editor: a line that fits comes back without its
    newline; the file is not read. *)
Theorem getLine_editor buf len src st text lines :
  scutil.el src = true ->
  (len <= length buf)%nat ->
  scutil.tty st = (text ++ [scutil.NEWLINE]) :: lines ->
  (S (length text) < len)%nat ->
  Forall (fun c => c <> scutil.NUL) text ->
  exists junk,
    scutil.getLine buf len src st
    = scutil.Ok
        (Some (text ++ scutil.NUL :: junk),
         scutil.MkIo (scutil.fp st) lines
           (if scutil.h src then scutil.hist st ++ [text] else scutil.hist st)
           (scutil.nesting st) (scutil.printed st)).
Proof.
  intros Hel Hlen Htty Hfit Hnul.
  set (k := (len - S (S (length text)))%nat).
  exists (scutil.NUL :: replicate k scutil.NUL ++ drop len buf).
  unfold scutil.getLine.
  destruct (Nat.ltb_spec (length buf) len); [lia|].
  rewrite Hel, Htty.
  assert (Hcpy : scutil.strncpy buf (text ++ [scutil.NEWLINE]) len
                 = text ++ scutil.NEWLINE :: scutil.NUL
                   :: replicate k scutil.NUL ++ drop len buf).
  { unfold scutil.strncpy.
    replace len with (length (text ++ [scutil.NEWLINE]) + S k)%nat at 1
      by (rewrite length_app; cbn; lia).
    rewrite take_app_add.
    replace (S k) with (length (scutil.NUL :: replicate k scutil.NUL)) at 1
      by (cbn; by rewrite length_replicate).
    replace (replicate len scutil.NUL)
      with ((scutil.NUL :: replicate k scutil.NUL)
            ++ replicate (len - S k) scutil.NUL).
    - rewrite take_app_length. rewrite <- !app_assoc. done.
    - change (scutil.NUL :: replicate k scutil.NUL)
        with (replicate (S k) scutil.NUL).
      rewrite <- replicate_add. f_equal. lia. }
  rewrite Hcpy.
  pose proof (getLine_finish src st text scutil.NEWLINE
                (replicate k scutil.NUL ++ drop len buf) Hnul ltac:(done)) as Hfin.
  cbv zeta in Hfin.
  destruct (scutil.strlen _) as [[|m]|]; [done| |done].
  destruct Hfin as [Hm ->]. rewrite Hm.
  change (scutil.byte_eqb scutil.NEWLINE scutil.NEWLINE) with true. cbv iota.
  rewrite insert_app_r_alt by lia. rewrite Nat.sub_diag. cbn [insert list_insert].
  rewrite c_string_app by done.
  cbn. by destruct (scutil.h src).
Qed.

(** ** scutil.c: [strcasecmp] and the words that end the session *)

Lemma byte_Z_inj a b : scutil.byte_Z a = scutil.byte_Z b -> a = b.
Proof.
  unfold scutil.byte_Z. intros H. apply N2Z.inj in H.
  assert (Some a = Some b) as [= ->]; [|done].
  by rewrite <- !Byte.of_to_N, H.
Qed.

Lemma tolower_NUL c : scutil.tolower c = scutil.NUL -> c = scutil.NUL.
Proof. by destruct c. Qed.

Lemma byte_Z_zero c : scutil.byte_Z c = 0 -> c = scutil.NUL.
Proof. intros H. by apply byte_Z_inj. Qed.

(** [strcasecmp] is zero exactly on strings equal up to the case of their
    letters. *)
Lemma strcasecmp_zero a b :
  Forall (fun c => c <> scutil.NUL) a ->
  Forall (fun c => c <> scutil.NUL) b ->
  scutil.strcasecmp a b = 0 <-> scutil.tolower <$> a = scutil.tolower <$> b.
Proof.
  intros Ha. revert b. induction Ha as [|c a Hc _ IH]; intros b Hb.
  - destruct Hb as [|d b Hd _]; [done|]. cbn. split; [|done].
    intros H. exfalso. apply Hd, tolower_NUL, byte_Z_zero. lia.
  - destruct Hb as [|d b Hd Hb]; cbn [scutil.strcasecmp fmap list_fmap].
    + split; [|done]. intros H. exfalso. by apply Hc, tolower_NUL, byte_Z_zero.
    + destruct (scutil.byte_eqb (scutil.tolower c) (scutil.tolower d)) eqn:E.
      * apply byte_eqb_eq in E. rewrite E, (IH b Hb). split; [by intros ->|].
        by intros [= ?].
      * apply byte_eqb_neq in E. split.
        -- intros H. exfalso. apply E, byte_Z_inj. lia.
        -- by intros [= ? _].
Qed.

(** ** scutil.c: [process_line] *)

Section process_line_facts.

Context (do_command : list (list byte) -> scutil.io -> scutil.io).

Lemma strcasecmp_literal text lit :
  Forall (fun c => c <> scutil.NUL) text ->
  Forall (fun c => c <> scutil.NUL) lit ->
  scutil.tolower <$> lit = lit ->
  (scutil.strcasecmp text lit =? 0) = true <-> scutil.tolower <$> text = lit.
Proof.
  intros Ht Hl Hlow. rewrite Z.eqb_eq, strcasecmp_zero by done.
  by rewrite Hlow.
Qed.

Lemma literal_no_NUL (s : string) :
  forallb (fun c => negb (scutil.byte_eqb c scutil.NUL)) (scutil.cstr s) = true ->
  Forall (fun c => c <> scutil.NUL) (scutil.cstr s).
Proof.
  intros H. apply Forall_forall. intros c Hc.
  rewrite forallb_forall in H. apply list_elem_of_In in Hc.
  specialize (H c Hc). apply negb_true_iff in H. by apply byte_eqb_neq.
Qed.

(** What [process_line] does once [getLine] has returned the array
    [text ++ NUL :: junk]. *)
Lemma process_line_text stale src st text junk st1 :
  scutil.getLine stale scutil.LINE_LENGTH src st
  = scutil.Ok (Some (text ++ scutil.NUL :: junk), st1) ->
  Forall (fun c => c <> scutil.NUL) text ->
  let line := text ++ scutil.NUL :: junk in
  let st2 :=
    if 0 <? scutil.nesting st1 then
      scutil.MkIo (scutil.fp st1) (scutil.tty st1) (scutil.hist st1)
        (scutil.nesting st1)
        (scutil.printed st1 ++ [(scutil.nesting st1, text)])
    else st1 in
  (scutil.ends_session text ->
   scutil.process_line do_command stale src st = scutil.Ok (false, st2))
  /\ (~ scutil.ends_session text ->
      scutil.process_line do_command stale src st
      = match scutil.getStrings (S (length line)) line (Some 0%nat) with
        | scutil.Fault => scutil.Fault
        | scutil.OutOfFuel => scutil.OutOfFuel
        | scutil.Ok [] => scutil.Ok (true, st2)
        | scutil.Ok (arg0 :: args) =>
            if scutil.byte_eqb (hd scutil.NUL arg0) scutil.HASH
            then scutil.Ok (true, st2)
            else scutil.Ok (true, do_command (arg0 :: args) st2)
        end).
Proof.
  intros Hget Htext line st2. unfold scutil.process_line. rewrite Hget.
  rewrite c_string_app by done. fold st2.
  pose proof (strcasecmp_literal text (scutil.cstr "exit") Htext
                (literal_no_NUL "exit" eq_refl) eq_refl) as Hexit.
  pose proof (strcasecmp_literal text (scutil.cstr "quit") Htext
                (literal_no_NUL "quit" eq_refl) eq_refl) as Hquit.
  pose proof (strcasecmp_literal text (scutil.cstr "q") Htext
                (literal_no_NUL "q" eq_refl) eq_refl) as Hq.
  split.
  - intros [H|[H|H]].
    + apply Hexit in H. by rewrite H.
    + apply Hquit in H. rewrite H. by destruct (_ =? 0).
    + apply Hq in H. rewrite H. by do 2 destruct (_ =? 0).
  - intros Hno. unfold scutil.ends_session in Hno.
    destruct (scutil.strcasecmp text (scutil.cstr "exit") =? 0) eqn:E1;
      [exfalso; apply Hno; left; by apply Hexit|].
    destruct (scutil.strcasecmp text (scutil.cstr "quit") =? 0) eqn:E2;
      [exfalso; apply Hno; right; left; by apply Hquit|].
    destruct (scutil.strcasecmp text (scutil.cstr "q") =? 0) eqn:E3;
      [exfalso; apply Hno; right; right; by apply Hq|].
    done.
Qed.

End process_line_facts.

Lemma echo_after_line src st text rest :
  (if 0 <? scutil.nesting st then
     scutil.MkIo rest (scutil.tty st)
       (if scutil.h src then scutil.hist st ++ [text] else scutil.hist st)
       (scutil.nesting st) (scutil.printed st ++ [(scutil.nesting st, text)])
   else
     scutil.MkIo rest (scutil.tty st)
       (if scutil.h src then scutil.hist st ++ [text] else scutil.hist st)
       (scutil.nesting st) (scutil.printed st))
  = scutil.after_line src st text rest.
Proof. unfold scutil.after_line. by destruct (0 <? scutil.nesting st). Qed.

Lemma process_line_file do_command stale src st line ending :
  scutil.el src = false ->
  (scutil.LINE_LENGTH <= length stale)%nat ->
  scutil.fp st = line ++ ending ->
  Forall (fun c => c <> scutil.NEWLINE) line ->
  Forall (fun c => c <> scutil.NUL) line ->
  (ending = [] /\ line <> []) \/ (exists rest, ending = scutil.NEWLINE :: rest) ->
  let text := take (scutil.LINE_LENGTH - 1) line in
  let st' := scutil.after_line src st text (tail ending) in
  exists junk,
    (scutil.ends_session text ->
     scutil.process_line do_command stale src st = scutil.Ok (false, st'))
    /\ (~ scutil.ends_session text ->
        scutil.process_line do_command stale src st
        = match scutil.getStrings (S (length (text ++ scutil.NUL :: junk)))
                  (text ++ scutil.NUL :: junk) (Some 0%nat) with
          | scutil.Fault => scutil.Fault
          | scutil.OutOfFuel => scutil.OutOfFuel
          | scutil.Ok [] => scutil.Ok (true, st')
          | scutil.Ok (arg0 :: args) =>
              if scutil.byte_eqb (hd scutil.NUL arg0) scutil.HASH
              then scutil.Ok (true, st')
              else scutil.Ok (true, do_command (arg0 :: args) st')
          end).
Proof.
  intros Hel Hlen Hfp Hnl Hnul Hending text st'.
  destruct (getLine_file_line stale scutil.LINE_LENGTH src st line ending
              Hel Hlen ltac:(unfold scutil.LINE_LENGTH; lia) Hfp Hnl Hnul Hending)
    as (junk & Hget).
  exists junk.
  pose proof (process_line_text do_command stale src st text junk _ Hget
                (Forall_take _ _ _ Hnul)) as Hrun.
  cbv zeta in Hrun. cbn [scutil.nesting scutil.fp scutil.tty scutil.hist
                          scutil.printed] in Hrun.
  rewrite echo_after_line in Hrun. exact Hrun.
Qed.

(** At the end of the file [process_line] returns FALSE and changes
    nothing. *)
Lemma process_line_eof do_command stale src st :
  scutil.el src = false ->
  (scutil.LINE_LENGTH <= length stale)%nat ->
  scutil.fp st = [] ->
  scutil.process_line do_command stale src st = scutil.Ok (false, st).
Proof.
  intros Hel Hlen Hfp. unfold scutil.process_line, scutil.getLine.
  destruct (Nat.ltb_spec (length stale) scutil.LINE_LENGTH); [lia|].
  by rewrite Hel, Hfp.
Qed.

(** X19: A line that reads exit, quit or q, in any case of the letters, makes
    [process_line] return FALSE; the line is consumed, entered in the
    history and echoed like any other, and no command is run. *)
Theorem process_line_exit_word do_command stale src st line ending :
  scutil.el src = false ->
  (scutil.LINE_LENGTH <= length stale)%nat ->
  scutil.fp st = line ++ ending ->
  Forall (fun c => c <> scutil.NEWLINE) line ->
  Forall (fun c => c <> scutil.NUL) line ->
  (ending = [] /\ line <> []) \/ (exists rest, ending = scutil.NEWLINE :: rest) ->
  scutil.ends_session (take (scutil.LINE_LENGTH - 1) line) ->
  scutil.process_line do_command stale src st
  = scutil.Ok (false,
               scutil.after_line src st (take (scutil.LINE_LENGTH - 1) line)
                 (tail ending)).
Proof.
  intros Hel Hlen Hfp Hnl Hnul Hending Hexit.
  destruct (process_line_file do_command stale src st line ending
              Hel Hlen Hfp Hnl Hnul Hending) as (junk & Hrun & _).
  by apply Hrun.
Qed.

Lemma space_no_NUL sp :
  scutil.is_space sp -> Forall (fun c => c <> scutil.NUL) sp.
Proof.
  intros H. eapply Forall_impl; [exact H|]. by intros c Hc ->.
Qed.

Lemma word_no_NUL w :
  scutil.is_word w -> Forall (fun c => c <> scutil.NUL) w.
Proof.
  intros (_ & _ & H). eapply Forall_impl; [exact H|]. by intros c Hc ->.
Qed.

Lemma spaced_no_NUL more :
  Forall (fun item => scutil.is_space (fst item) /\ fst item <> []
                      /\ scutil.is_word (snd item)) more ->
  Forall (fun c => c <> scutil.NUL) (scutil.spaced more).
Proof.
  induction 1 as [|[sp w] more (Hsp & _ & Hw) _ IH]; [constructor|].
  cbn [scutil.spaced flat_map fst snd]. rewrite !Forall_app.
  split; [split|done]; [by apply space_no_NUL|by apply word_no_NUL].
Qed.

(** X20: A line of words: [do_command] is run once, on exactly the words of the
    line in their order, unless the first word begins with [#]; either way
    [process_line] returns TRUE with the line consumed. *)
Theorem process_line_words do_command stale src st sp w more trailing ending :
  scutil.el src = false ->
  (scutil.LINE_LENGTH <= length stale)%nat ->
  let text := sp ++ w ++ scutil.spaced more ++ trailing in
  scutil.fp st = text ++ ending ->
  (ending = [] \/ exists rest, ending = scutil.NEWLINE :: rest) ->
  (length text < scutil.LINE_LENGTH - 1)%nat ->
  Forall (fun c => c <> scutil.NEWLINE) text ->
  scutil.is_space sp -> scutil.is_word w ->
  Forall (fun item => scutil.is_space (fst item) /\ fst item <> []
                      /\ scutil.is_word (snd item)) more ->
  scutil.is_space trailing ->
  ~ scutil.ends_session text ->
  let st' := scutil.after_line src st text (tail ending) in
  scutil.process_line do_command stale src st
  = scutil.Ok (true,
               if scutil.byte_eqb (hd scutil.NUL w) scutil.HASH then st'
               else do_command (w :: map snd more) st').
Proof.
  intros Hel Hlen text Hfp Hending Hfit Hnl Hsp Hw Hmore Htr Hno st'.
  assert (Hnul : Forall (fun c => c <> scutil.NUL) text).
  { subst text. rewrite !Forall_app.
    auto using space_no_NUL, word_no_NUL, spaced_no_NUL. }
  assert (Hne : text <> []).
  { subst text. destruct Hw as (Hw & _). destruct sp, w; done. }
  destruct (process_line_file do_command stale src st text ending
              Hel Hlen Hfp Hnl Hnul) as (junk & _ & Hrun).
  { destruct Hending as [->|?]; auto. }
  rewrite take_ge in Hrun by lia. rewrite (Hrun Hno).
  replace (text ++ scutil.NUL :: junk)
    with (sp ++ w ++ scutil.spaced more ++ trailing ++ scutil.NUL :: junk)
    by (subst text; by rewrite <- !app_assoc).
  rewrite getStrings_collects by done.
  by destruct (scutil.byte_eqb (hd scutil.NUL w) scutil.HASH).
Qed.

(** X21: A line of white space only, or an empty line: nothing is run and
    [process_line] returns TRUE. *)
Theorem process_line_blank do_command stale src st sp rest :
  scutil.el src = false ->
  (scutil.LINE_LENGTH <= length stale)%nat ->
  scutil.fp st = sp ++ scutil.NEWLINE :: rest ->
  (length sp < scutil.LINE_LENGTH - 1)%nat ->
  Forall (fun c => c <> scutil.NEWLINE) sp ->
  scutil.is_space sp ->
  scutil.process_line do_command stale src st
  = scutil.Ok (true, scutil.after_line src st sp rest).
Proof.
  intros Hel Hlen Hfp Hfit Hnl Hsp.
  destruct (process_line_file do_command stale src st sp (scutil.NEWLINE :: rest)
              Hel Hlen Hfp Hnl (space_no_NUL _ Hsp)) as (junk & _ & Hrun);
    [eauto|].
  rewrite take_ge in Hrun by lia. rewrite Hrun.
  - cbn [scutil.getStrings]. unfold scutil.getString. rewrite drop_0.
    by rewrite getString_blank.
  - intros [H|[H|H]]; destruct Hsp as [|c sp Hc _]; try done;
      injection H as H _; by destruct c.
Qed.

Lemma process_line_fuel do_command stale src st :
  scutil.process_line do_command stale src st <> scutil.OutOfFuel.
Proof.
  unfold scutil.process_line.
  destruct (scutil.getLine stale scutil.LINE_LENGTH src st)
    as [[[line|] st1]| |] eqn:Hget; [| done | done |].
  - destruct (scutil.c_string line) as [text|]; [|done].
    destruct (_ =? 0); [done|]. destruct (_ =? 0); [done|].
    destruct (_ =? 0); [done|].
    pose proof (getStrings_enough_fuel (S (length line)) line 0 ltac:(lia)) as Hf.
    destruct (scutil.getStrings _ _ _) as [[|arg0 args]| |]; try done.
    by destruct (scutil.byte_eqb _ _).
  - exfalso. revert Hget. unfold scutil.getLine.
    destruct (_ <? _)%nat; [done|].
    destruct (if scutil.el src then _ else _) as [[buf st1]|]; [|done].
    destruct (scutil.strlen buf) as [[|m]|]; [done| |done].
    destruct (buf !! m) as [last|]; [|done].
    destruct (if scutil.byte_eqb last scutil.NEWLINE then _ else _) as [buf' st'].
    by destruct (scutil.c_string buf').
Qed.

Lemma quoted_no_NUL body :
  Forall (fun c => scutil.quoted_char c = true) body ->
  Forall (fun c => c <> scutil.NUL) body.
Proof. intros H. eapply Forall_impl; [exact H|]. by intros c Hc ->. Qed.

Lemma quote_not_exit body : ~ scutil.ends_session (scutil.DQUOTE :: body).
Proof. by intros [H|[H|H]]. Qed.

(** X23: A last line without a newline that opens a quoted string and does not
    close it: after the string, the loop goes on reading the array behind the
    NUL, and a word left there from before is handed to [do_command] as an
    argument of this line. *)
Theorem process_line_unclosed_quote_reads_stale
    do_command stale src st body pre w' post :
  scutil.el src = false ->
  scutil.fp st = scutil.DQUOTE :: body ->
  Forall (fun c => scutil.quoted_char c = true) body ->
  Forall (fun c => c <> scutil.NEWLINE) body ->
  (S (length body) < scutil.LINE_LENGTH - 1)%nat ->
  hd scutil.NUL body <> scutil.HASH ->
  stale = pre ++ w' ++ scutil.NUL :: post ->
  length pre = S (S (length body)) ->
  (scutil.LINE_LENGTH <= length stale)%nat ->
  scutil.is_word w' ->
  scutil.process_line do_command stale src st
  = scutil.Ok (true,
               do_command [body; w']
                 (scutil.after_line src st (scutil.DQUOTE :: body) [])).
Proof.
  intros Hel Hfp Hbody Hnl Hfit Hhash Hstale Hpre Hlen Hw.
  set (text := scutil.DQUOTE :: body).
  assert (Hnul : Forall (fun c => c <> scutil.NUL) text).
  { constructor; [done|]. by apply quoted_no_NUL. }
  assert (Hread : scutil.fgets_read (scutil.LINE_LENGTH - 1) (scutil.fp st)
                  = (text, [])).
  { rewrite Hfp. apply fgets_read_eof; [by constructor|].
    subst text. cbn [length]. lia. }
  pose proof (getLine_file_unbroken stale scutil.LINE_LENGTH src st text []
                Hel Hlen Hread ltac:(done) Hnul ltac:(by constructor)) as Hget.
  assert (Hjunk : drop (S (length text)) stale = w' ++ scutil.NUL :: post).
  { rewrite Hstale. apply drop_app_length'. by rewrite Hpre. }
  rewrite Hjunk in Hget.
  pose proof (process_line_text do_command stale src st text _ _ Hget Hnul)
    as [_ Hrun].
  rewrite (Hrun (quote_not_exit body)).
  cbn [scutil.nesting scutil.fp scutil.tty scutil.hist scutil.printed
       scutil.eat_line].
  rewrite echo_after_line.
  set (mem := text ++ scutil.NUL :: w' ++ scutil.NUL :: post).
  assert (H1 : scutil.getString mem (Some 0%nat)
               = Some (Some body, Some (S (S (length body))))).
  { unfold scutil.getString. rewrite drop_0. subst mem text.
    pose proof (getString_quoted_body [] body scutil.NUL
                  (w' ++ scutil.NUL :: post) ltac:(constructor) Hbody
                  ltac:(auto)) as Hq.
    cbn [app length Nat.add] in Hq |- *. rewrite Hq.
    cbn. do 3 f_equal. lia. }
  assert (H2 : scutil.getString mem (Some (S (S (length body))))
               = Some (Some w', Some (S (S (length body)) + length w')%nat)).
  { unfold scutil.getString.
    assert (drop (S (S (length body))) mem = w' ++ scutil.NUL :: post) as ->.
    { subst mem text. rewrite cons_middle, app_assoc.
      apply drop_app_length'. rewrite length_app. cbn. lia. }
    destruct Hw as (Hne & Hq & Hw).
    pose proof (getString_at_word [] w' scutil.NUL post ltac:(constructor) Hw Hne Hq
                  ltac:(auto)) as Hword.
    cbn [app length Nat.add] in Hword. by rewrite Hword. }
  assert (H3 : scutil.getString mem (Some (S (S (length body)) + length w')%nat)
               = Some (None, Some (S (S (length body)) + length w' + 0)%nat)).
  { unfold scutil.getString.
    assert (drop (S (S (length body)) + length w') mem = scutil.NUL :: post) as ->.
    { subst mem text.
      replace ((scutil.DQUOTE :: body) ++ scutil.NUL :: w' ++ scutil.NUL :: post)
        with (((scutil.DQUOTE :: body) ++ scutil.NUL :: w') ++ scutil.NUL :: post)
        by (by rewrite <- app_assoc).
      apply drop_app_length'. rewrite length_app. cbn. lia. }
    done. }
  assert (Hfuel : exists fuel, length mem = S (S fuel)).
  { subst mem text. rewrite length_app. cbn [length]. eexists.
    rewrite Nat.add_succ_r. reflexivity. }
  destruct Hfuel as [fuel ->].
  cbn [scutil.getStrings]. rewrite H1, H2, H3.
  apply byte_eqb_neq in Hhash. by rewrite Hhash.
Qed.

(** X24: A line of [LINE_LENGTH - 1] bytes or more that opens a quoted string
    and does not close it within them: the pointer is left behind the last
    byte of the array, and the next call of [getString] reads outside it. *)
Theorem process_line_long_unclosed_quote_faults
    do_command stale src st body ending :
  scutil.el src = false ->
  length stale = scutil.LINE_LENGTH ->
  scutil.fp st = scutil.DQUOTE :: body ++ ending ->
  (scutil.LINE_LENGTH - 2 <= length body)%nat ->
  Forall (fun c => scutil.quoted_char c = true) body ->
  Forall (fun c => c <> scutil.NEWLINE) body ->
  scutil.process_line do_command stale src st = scutil.Fault.
Proof.
  intros Hel Hlen Hfp Hlong Hbody Hnl.
  set (text := scutil.DQUOTE :: take (scutil.LINE_LENGTH - 2) body).
  assert (Htake : take (scutil.LINE_LENGTH - 1) (scutil.DQUOTE :: body) = text) by done.
  assert (Hnul : Forall (fun c => c <> scutil.NUL) text).
  { constructor; [done|]. by apply Forall_take, quoted_no_NUL. }
  assert (Hlt : length text = (scutil.LINE_LENGTH - 1)%nat).
  { subst text. cbn [length]. rewrite length_take.
    unfold scutil.LINE_LENGTH in *. lia. }
  assert (Hread : scutil.fgets_read (scutil.LINE_LENGTH - 1) (scutil.fp st)
                  = (text, drop (scutil.LINE_LENGTH - 1) (scutil.DQUOTE :: body)
                           ++ ending)).
  { rewrite Hfp, <- Htake. rewrite app_comm_cons.
    apply fgets_read_long; [by constructor|]. cbn [length].
    unfold scutil.LINE_LENGTH in *. lia. }
  pose proof (getLine_file_unbroken stale scutil.LINE_LENGTH src st text _
                Hel ltac:(lia) Hread ltac:(done) Hnul) as Hget.
  rewrite (drop_ge stale) in Hget by (unfold scutil.LINE_LENGTH in *; lia).
  specialize (Hget ltac:(constructor; [done|by apply Forall_take])).
  pose proof (process_line_text do_command stale src st text _ _ Hget Hnul)
    as [_ Hrun].
  rewrite (Hrun (quote_not_exit _)).
  assert (H1 : scutil.getString (text ++ [scutil.NUL]) (Some 0%nat)
               = Some (Some (take (scutil.LINE_LENGTH - 2) body),
                       Some (S (length text)))).
  { unfold scutil.getString. rewrite drop_0. subst text.
    pose proof (getString_quoted_body [] (take (scutil.LINE_LENGTH - 2) body)
                  scutil.NUL [] ltac:(constructor)
                  ltac:(by apply Forall_take) ltac:(auto)) as Hq.
    cbn [app length Nat.add] in Hq |- *. rewrite Hq.
    cbn. do 3 f_equal. lia. }
  cbn [scutil.getStrings]. rewrite H1.
  assert (Hmore : exists fuel, length (text ++ [scutil.NUL]) = S fuel).
  { rewrite length_app. cbn [length]. eexists. by rewrite Nat.add_1_r. }
  destruct Hmore as [fuel Hfuel]. rewrite Hfuel.
  cbn [scutil.getStrings]. unfold scutil.getString.
  rewrite drop_ge; [done|]. rewrite length_app. cbn. lia.
Qed.

(** ** scutil.c: the properties that are used above, by their names *)

(** X9: A word: after white space, the bytes up to the next white space or the
    NUL are returned as they are, and the pointer is left on that byte. *)
Theorem getString_word sp w d rest :
  Forall (fun c => scutil.isspace c = true) sp ->
  Forall (fun c => scutil.word_char c = true) w ->
  w <> [] ->
  head w <> Some scutil.DQUOTE ->
  d = scutil.NUL \/ scutil.isspace d = true ->
  scutil.getString_at (sp ++ w ++ d :: rest)
  = Some (Some w, (length sp + length w)%nat).
Proof. apply getString_at_word. Qed.

(** X14: Words separated by white space come back one by one, in order, and
    then NULL: the loop collects exactly the words. *)
Theorem getStrings_words sp w more trailing rest :
  scutil.is_space sp -> scutil.is_word w ->
  Forall (fun item => scutil.is_space (fst item) /\ fst item <> []
                      /\ scutil.is_word (snd item)) more ->
  scutil.is_space trailing ->
  let mem := sp ++ w ++ scutil.spaced more ++ trailing ++ scutil.NUL :: rest in
  scutil.getStrings (S (length mem)) mem (Some 0%nat)
  = scutil.Ok (w :: map snd more).
Proof. apply getStrings_collects. Qed.

(** X15: [getLine] on a file: the text of the line comes back without its
    newline, cut to [len - 1] bytes when it is longer, and the file is left
    after the newline whatever the length of the line; the text is entered in
    the history when there is one. *)
Theorem getLine_file buf len src st line ending :
  scutil.el src = false ->
  (len <= length buf)%nat ->
  (2 <= len)%nat ->
  scutil.fp st = line ++ ending ->
  Forall (fun c => c <> scutil.NEWLINE) line ->
  Forall (fun c => c <> scutil.NUL) line ->
  (ending = [] /\ line <> []) \/ (exists rest, ending = scutil.NEWLINE :: rest) ->
  let text := take (len - 1) line in
  exists junk,
    scutil.getLine buf len src st
    = scutil.Ok
        (Some (text ++ scutil.NUL :: junk),
         scutil.MkIo (tail ending) (scutil.tty st)
           (if scutil.h src then scutil.hist st ++ [text] else scutil.hist st)
           (scutil.nesting st) (scutil.printed st)).
Proof. apply getLine_file_line. Qed.


(** X22: [process_line] ends on every input: the fuel given to its loop is
    never used up, and the call returns or makes an access outside an
    object. *)
Theorem process_line_terminates do_command stale src st :
  scutil.process_line do_command stale src st = scutil.Fault
  \/ exists b st', scutil.process_line do_command stale src st = scutil.Ok (b, st').
Proof.
  pose proof (process_line_fuel do_command stale src st) as H.
  destruct (scutil.process_line do_command stale src st) as [[b st']| |];
    [right; eauto|by left|done].
Qed.

(** ** scutil.c: the properties at sample values *)

Ltac sample_chars :=
  repeat first
    [ reflexivity
    | discriminate
    | (let H := fresh in intros H; vm_compute in H; discriminate H)
    | apply Forall_nil_2
    | apply Forall_cons_2
    | split ].

Ltac sample_rest :=
  try solve
    [ vm_compute; lia
    | right; reflexivity
    | right; by eexists
    | right; left; reflexivity
    | apply Forall_replicate; first [reflexivity | discriminate]
    | (let H := fresh in intros [H|[H|H]]; discriminate H) ].

(** X8 at the bytes of [a\ b c]. *)
Lemma getString_at_safe_witness :
  exists r d,
    scutil.getString_at (scutil.cstr "a\ b c" ++ [scutil.NUL]) = Some (r, d)
    /\ (d <= 7)%nat /\ (is_Some r -> (0 < d)%nat).
Proof.
  apply (getString_at_safe (scutil.cstr "a\ b c" ++ [scutil.NUL]) 6); sample_chars; sample_rest.
Defined.

(** X9 at [  show x]. *)
Lemma getString_word_witness :
  scutil.getString_at
    (scutil.cstr "  " ++ scutil.cstr "show" ++ x20 :: scutil.cstr "x" ++ [scutil.NUL])
  = Some (Some (scutil.cstr "show"), 6%nat).
Proof.
  apply (getString_word (scutil.cstr "  ") (scutil.cstr "show") x20
           (scutil.cstr "x" ++ [scutil.NUL])); sample_chars; sample_rest.
Defined.

(** X10 at a quoted [a b] between a blank and [ c]. *)
Lemma getString_quoted_witness :
  scutil.getString_at
    (scutil.cstr " " ++ scutil.DQUOTE :: scutil.cstr "a b"
     ++ scutil.DQUOTE :: scutil.cstr " c" ++ [scutil.NUL])
  = Some (Some (scutil.cstr "a b"), 6%nat).
Proof.
  apply (getString_quoted (scutil.cstr " ") (scutil.cstr "a b")
           (scutil.cstr " c" ++ [scutil.NUL])); sample_chars; sample_rest.
Defined.

(** X11 at a quote and [abc], the array ending with the NUL. *)
Lemma getString_unclosed_quote_passes_NUL_witness :
  exists z,
    scutil.strlen (scutil.DQUOTE :: scutil.cstr "abc" ++ [scutil.NUL]) = Some z
    /\ scutil.getString (scutil.DQUOTE :: scutil.cstr "abc" ++ [scutil.NUL])
         (Some 0%nat)
       = Some (Some (scutil.cstr "abc"), Some (S z))
    /\ (@nil byte = [] ->
        scutil.getString (scutil.DQUOTE :: scutil.cstr "abc" ++ [scutil.NUL])
          (Some (S z)) = None).
Proof.
  apply (getString_unclosed_quote_passes_NUL [] (scutil.cstr "abc") []); sample_chars; sample_rest.
Defined.

(** X12 at three blanks. *)
Lemma getString_NULL_iff_blank_witness :
  (exists d, scutil.getString_at (scutil.cstr "   " ++ [scutil.NUL]) = Some (None, d))
  <-> Forall (fun c => scutil.isspace c = true)
             (take 3 (scutil.cstr "   " ++ [scutil.NUL])).
Proof.
  apply (getString_NULL_iff_blank (scutil.cstr "   " ++ [scutil.NUL]) 3); sample_chars; sample_rest.
Defined.

(** X13 at [a\ b c]. *)
Lemma getString_escape_witness :
  scutil.getString_at
    ([] ++ scutil.cstr "a" ++ scutil.BACKSLASH :: x20 :: scutil.cstr "b"
     ++ x20 :: scutil.cstr "c" ++ [scutil.NUL])
  = Some (Some (scutil.cstr "a" ++ x20 :: scutil.cstr "b"), 4%nat).
Proof.
  apply (getString_escape [] (scutil.cstr "a") x20 (scutil.cstr "b") x20
           (scutil.cstr "c" ++ [scutil.NUL])); sample_chars; sample_rest.
Defined.

(** X14 at [show  State: x ]. *)
Lemma getStrings_words_witness :
  scutil.getStrings 17
    ([] ++ scutil.cstr "show"
     ++ scutil.spaced [(scutil.cstr "  ", scutil.cstr "State:");
                       (scutil.cstr " ", scutil.cstr "x")]
     ++ scutil.cstr " " ++ [scutil.NUL]) (Some 0%nat)
  = scutil.Ok [scutil.cstr "show"; scutil.cstr "State:"; scutil.cstr "x"].
Proof.
  apply (getStrings_words [] (scutil.cstr "show")
           [(scutil.cstr "  ", scutil.cstr "State:");
            (scutil.cstr " ", scutil.cstr "x")]
           (scutil.cstr " ") []); sample_chars; sample_rest.
Defined.

(** X15 at a file that holds [list] and a second line. *)
Lemma getLine_file_witness :
  exists junk,
    scutil.getLine scutil.fresh_array scutil.LINE_LENGTH scutil.file_input
      (scutil.sample_io (scutil.cstr "list" ++ scutil.NEWLINE :: scutil.cstr "exit")
         [])
    = scutil.Ok
        (Some (scutil.cstr "list" ++ scutil.NUL :: junk),
         scutil.MkIo (scutil.cstr "exit") [] [] 0 []).
Proof.
  apply (getLine_file scutil.fresh_array scutil.LINE_LENGTH scutil.file_input
           (scutil.sample_io
              (scutil.cstr "list" ++ scutil.NEWLINE :: scutil.cstr "exit") [])
           (scutil.cstr "list") (scutil.NEWLINE :: scutil.cstr "exit")); sample_chars; sample_rest.
Defined.

(** X16 at a file that begins with a NUL. *)
Lemma getLine_leading_NUL_faults_witness :
  scutil.getLine scutil.fresh_array scutil.LINE_LENGTH scutil.file_input
    (scutil.sample_io (scutil.NUL :: scutil.cstr "list") [])
  = scutil.Fault.
Proof.
  apply (getLine_leading_NUL_faults scutil.fresh_array scutil.LINE_LENGTH
           scutil.file_input
           (scutil.sample_io (scutil.NUL :: scutil.cstr "list") [])
           (scutil.cstr "list")); sample_chars; sample_rest.
Defined.

(** X17 at the line [list] typed in the editor. *)
Lemma getLine_editor_witness :
  exists junk,
    scutil.getLine scutil.fresh_array scutil.LINE_LENGTH scutil.editor_input
      (scutil.sample_io [] [scutil.cstr "list" ++ [scutil.NEWLINE]])
    = scutil.Ok
        (Some (scutil.cstr "list" ++ scutil.NUL :: junk),
         scutil.MkIo [] [] [scutil.cstr "list"] 0 []).
Proof.
  apply (getLine_editor scutil.fresh_array scutil.LINE_LENGTH scutil.editor_input
           (scutil.sample_io [] [scutil.cstr "list" ++ [scutil.NEWLINE]])
           (scutil.cstr "list") []); sample_chars; sample_rest.
Defined.

(** X18 at a line of 300 bytes typed in the editor. *)
Lemma getLine_editor_long_line_faults_witness :
  scutil.getLine scutil.fresh_array scutil.LINE_LENGTH scutil.editor_input
    (scutil.sample_io [] [replicate 300 x61])
  = scutil.Fault.
Proof.
  apply (getLine_editor_long_line_faults scutil.fresh_array scutil.LINE_LENGTH
           scutil.editor_input (scutil.sample_io [] [replicate 300 x61])
           (replicate 300 x61) []); sample_chars; sample_rest.
Defined.

(** X19 at the line [Quit]. *)
Lemma process_line_exit_word_witness :
  scutil.process_line scutil.note_command scutil.fresh_array scutil.file_input
    (scutil.sample_io (scutil.cstr "Quit" ++ scutil.NEWLINE :: scutil.cstr "list") [])
  = scutil.Ok (false, scutil.sample_io (scutil.cstr "list") []).
Proof.
  apply (process_line_exit_word scutil.note_command scutil.fresh_array
           scutil.file_input
           (scutil.sample_io
              (scutil.cstr "Quit" ++ scutil.NEWLINE :: scutil.cstr "list") [])
           (scutil.cstr "Quit") (scutil.NEWLINE :: scutil.cstr "list")); sample_chars; sample_rest.
Defined.

(** X20 at the line [show State:]. *)
Lemma process_line_words_witness :
  scutil.process_line scutil.note_command scutil.fresh_array scutil.file_input
    (scutil.sample_io
       (([] ++ scutil.cstr "show"
         ++ scutil.spaced [(scutil.cstr " ", scutil.cstr "State:")] ++ [])
        ++ [scutil.NEWLINE]) [])
  = scutil.Ok
      (true,
       scutil.MkIo [] [] [] 0
         [(-1, scutil.cstr "show"); (-1, scutil.cstr "State:")]).
Proof.
  apply (process_line_words scutil.note_command scutil.fresh_array
           scutil.file_input
           (scutil.sample_io
              (([] ++ scutil.cstr "show"
                ++ scutil.spaced [(scutil.cstr " ", scutil.cstr "State:")] ++ [])
               ++ [scutil.NEWLINE]) [])
           [] (scutil.cstr "show") [(scutil.cstr " ", scutil.cstr "State:")] []
           [scutil.NEWLINE]); sample_chars; sample_rest.
Defined.

(** X21 at a line of two blanks. *)
Lemma process_line_blank_witness :
  scutil.process_line scutil.note_command scutil.fresh_array scutil.file_input
    (scutil.sample_io (scutil.cstr "  " ++ scutil.NEWLINE :: scutil.cstr "list") [])
  = scutil.Ok (true, scutil.sample_io (scutil.cstr "list") []).
Proof.
  apply (process_line_blank scutil.note_command scutil.fresh_array
           scutil.file_input
           (scutil.sample_io
              (scutil.cstr "  " ++ scutil.NEWLINE :: scutil.cstr "list") [])
           (scutil.cstr "  ") (scutil.cstr "list")); sample_chars; sample_rest.
Defined.

(** X23 at a last line of a quote and [ab], the array still holding
    [get Setup:]. *)
Lemma process_line_unclosed_quote_reads_stale_witness :
  scutil.process_line scutil.note_command scutil.used_array scutil.file_input
    (scutil.sample_io (scutil.DQUOTE :: scutil.cstr "ab") [])
  = scutil.Ok
      (true,
       scutil.MkIo [] [] [] 0
         [(-1, scutil.cstr "ab"); (-1, scutil.cstr "Setup:")]).
Proof.
  apply (process_line_unclosed_quote_reads_stale scutil.note_command
           scutil.used_array scutil.file_input
           (scutil.sample_io (scutil.DQUOTE :: scutil.cstr "ab") [])
           (scutil.cstr "ab") (scutil.cstr "get ") (scutil.cstr "Setup:")
           (replicate 245 scutil.NUL)); sample_chars; sample_rest.
Defined.

(** X24 at a line of a quote and 300 letters. *)
Lemma process_line_long_unclosed_quote_faults_witness :
  scutil.process_line scutil.note_command scutil.fresh_array scutil.file_input
    (scutil.sample_io (scutil.DQUOTE :: replicate 300 x61 ++ [scutil.NEWLINE]) [])
  = scutil.Fault.
Proof.
  apply (process_line_long_unclosed_quote_faults scutil.note_command
           scutil.fresh_array scutil.file_input
           (scutil.sample_io
              (scutil.DQUOTE :: replicate 300 x61 ++ [scutil.NEWLINE]) [])
           (replicate 300 x61) [scutil.NEWLINE]); sample_chars; sample_rest.
Defined.
